(** * Unified-diff hunk parsing and content reconstruction

    A shallow embedding of [src/Source/common/diffHunk.ts]: the line
    reader, the hunk-header regular expression, the hunk parser, the hunk
    segmenter, the content reconstructor and the change orchestrator,
    followed by the properties the specification states about them and by
    further properties of the module.

    Conventions of the embedding.
    - A JavaScript string is a [string] (a sequence of characters); indices
      into it are integers ([Z]), as [indexOf] answers [-1].  The module
      compares characters with the line feed, the carriage return, the
      space, [+], [-], [@], the comma and the decimal digits only, so
      8-bit characters stand for its UTF-16 code units.
    - A JavaScript [number] that can be the result of [Number(...)] is a
      [jsnum]: [NaN] or an integer.  Decimal captures are read exactly (a
      double agrees with this below 2^53).
    - A run of the code is an [outcome]: a value, a [TypeError] (a property
      read on [undefined] or [null]), or [Timeout] when the fuel that bounds
      a [while] loop of the model runs out. *)

From Stdlib Require Import ZArith List String Ascii Bool Lia Sorted.
Import ListNotations.

Local Open Scope string_scope.
Local Open Scope Z_scope.

(** ** Outcomes of a run *)

Inductive outcome (A : Type) : Type :=
| Return (a : A)
| TypeError
| Timeout.

Arguments Return {A} a.
Arguments TypeError {A}.
Arguments Timeout {A}.

Definition bind {A B : Type} (c : outcome A) (f : A -> outcome B) : outcome B :=
  match c with
  | Return a => f a
  | TypeError => TypeError
  | Timeout => Timeout
  end.

Notation "x <- c ;; k" := (bind c (fun x => k))
  (at level 61, c at next level, right associativity).

(** ** JavaScript numbers and strings *)

Inductive jsnum : Type :=
| JNaN
| JInt (z : Z).

(** [a + k] for an integer [k]: [NaN] is absorbing.  The sum is exact, as
    the sum of two doubles is while it stays within
    [Number.MAX_SAFE_INTEGER]. *)
Definition jadd (a : jsnum) (k : Z) : jsnum :=
  match a with
  | JNaN => JNaN
  | JInt z => JInt (z + k)
  end.

(** [a === b] on numbers: [NaN] equals nothing. *)
Definition jeqb (a b : jsnum) : bool :=
  match a, b with
  | JInt x, JInt y => x =? y
  | _, _ => false
  end.

(** [a < b] on numbers: false when either side is [NaN]. *)
Definition jltb (a b : jsnum) : bool :=
  match a, b with
  | JInt x, JInt y => x <? y
  | _, _ => false
  end.

(** [a || d]: [d] when [a] is falsy ([NaN] or [0]). *)
Definition jor (a d : jsnum) : jsnum :=
  match a with
  | JNaN => d
  | JInt 0 => d
  | JInt _ => a
  end.

Definition LF : ascii := "010"%char.
Definition CR : ascii := "013"%char.

Definition is_digit (c : ascii) : bool :=
  let n := nat_of_ascii c in (48 <=? n)%nat && (n <=? 57)%nat.

Definition digit_value (c : ascii) : Z := Z.of_nat (nat_of_ascii c) - 48.

Fixpoint all_digits (s : string) : bool :=
  match s with
  | EmptyString => true
  | String c s' => is_digit c && all_digits s'
  end.

Fixpoint decimal_from (acc : Z) (s : string) : Z :=
  match s with
  | EmptyString => acc
  | String c s' => decimal_from (10 * acc + digit_value c) s'
  end.

(** [Number(x)] where [x] is a capture of the header expression:
    [undefined] gives [NaN], a run of decimal digits its value, read
    exactly as a double reads it up to [Number.MAX_SAFE_INTEGER].  (Other
    strings never reach [Number] in this module; they are given [NaN].) *)
Definition Number (x : option string) : jsnum :=
  match x with
  | None => JNaN
  | Some s => if all_digits s && negb (String.eqb s "") then JInt (decimal_from 0 s) else JNaN
  end.

Definition strlen (text : string) : Z := Z.of_nat (String.length text).

(** [text[i]]: [None] is [undefined]. *)
Definition charAt (text : string) (i : Z) : option ascii :=
  if i <? 0 then None else String.get (Z.to_nat i) text.

Fixpoint indexOf_at (text : string) (c : ascii) (skip : nat) (pos : Z) : Z :=
  match text with
  | EmptyString => -1
  | String a rest =>
      match skip with
      | S skip' => indexOf_at rest c skip' (pos + 1)
      | O => if Ascii.eqb a c then pos else indexOf_at rest c O (pos + 1)
      end
  end.

(** [text.indexOf(c, from)] for a one-character needle. *)
Definition indexOf (text : string) (c : ascii) (from : Z) : Z :=
  indexOf_at text c (Z.to_nat from) 0.

(** [text.substr(start, length)] for [start >= 0]. *)
Definition substr (text : string) (start len : Z) : string :=
  String.substring (Z.to_nat start) (Z.to_nat len) text.

(** [text.substr(1)]. *)
Definition substr1 (text : string) : string :=
  match text with
  | EmptyString => EmptyString
  | String _ rest => rest
  end.

(** ** The data model *)

Inductive DiffChangeType : Type :=
| Context
| Add
| Delete
| Control.

Definition DiffChangeType_eqb (a b : DiffChangeType) : bool :=
  match a, b with
  | Context, Context | Add, Add | Delete, Delete | Control, Control => true
  | _, _ => false
  end.

Module DiffLine.
Record t : Type := mk {
  type : DiffChangeType;
  oldLineNumber : jsnum;
  newLineNumber : jsnum;
  positionInHunk : Z;
  raw : string;
  endwithLineBreak : bool
}.

Definition text (l : t) : string := substr1 (raw l).

Definition set_endwithLineBreak (l : t) (b : bool) : t :=
  mk (type l) (oldLineNumber l) (newLineNumber l) (positionInHunk l) (raw l) b.
End DiffLine.

Module DiffHunk.
Record t : Type := mk {
  oldLineNumber : jsnum;
  oldLength : jsnum;
  newLineNumber : jsnum;
  newLength : jsnum;
  positionInHunk : Z;
  diffLines : list DiffLine.t
}.

Definition set_diffLines (h : t) (ls : list DiffLine.t) : t :=
  mk (oldLineNumber h) (oldLength h) (newLineNumber h) (newLength h)
     (positionInHunk h) ls.
End DiffHunk.

Definition getDiffChangeType (text : string) : DiffChangeType :=
  match text with
  | String " " _ => Context
  | String "+" _ => Add
  | String "-" _ => Delete
  | _ => Control
  end.

(** ** [DIFF_HUNK_HEADER]

    The expression is kept as a syntax tree and run by a backtracking
    matcher in continuation-passing style, anchored at the start of the
    line (the expression begins with [^] and has no [$]). *)

Inductive regex : Type :=
| Lit (s : string)
| Digits
| Seq (r1 r2 : regex)
| Opt (r : regex)
| Group (n : nat) (r : regex).

Definition captures := list (nat * string).

Fixpoint capture (n : nat) (caps : captures) : option string :=
  match caps with
  | [] => None
  | (m, s) :: rest => if Nat.eqb m n then Some s else capture n rest
  end.

Fixpoint strip_prefix (p s : string) : option string :=
  match p, s with
  | EmptyString, _ => Some s
  | String a p', String b s' => if Ascii.eqb a b then strip_prefix p' s' else None
  | String _ _, EmptyString => None
  end.

(** What was consumed between the input [s] and the rest [s']. *)
Definition consumed (s s' : string) : string :=
  String.substring 0 (String.length s - String.length s') s.

Section Matcher.
Context {R : Type}.

(** [\d*], greedy: the longest run first, shorter ones on failure. *)
Fixpoint digits_star (s : string) (k : string -> option R) : option R :=
  match s with
  | String c s' =>
      if is_digit c then
        match digits_star s' k with
        | Some r => Some r
        | None => k s
        end
      else k s
  | EmptyString => k s
  end.

(** [\d+]. *)
Definition digits_plus (s : string) (k : string -> option R) : option R :=
  match s with
  | String c s' => if is_digit c then digits_star s' k else None
  | EmptyString => None
  end.
End Matcher.

Fixpoint rmatch (r : regex) (s : string) (caps : captures)
    (k : string -> captures -> option captures) : option captures :=
  match r with
  | Lit l =>
      match strip_prefix l s with
      | Some s' => k s' caps
      | None => None
      end
  | Digits => digits_plus s (fun s' => k s' caps)
  | Seq r1 r2 => rmatch r1 s caps (fun s' caps' => rmatch r2 s' caps' k)
  | Opt r1 =>
      match rmatch r1 s caps k with
      | Some c => Some c
      | None => k s caps
      end
  | Group n r1 =>
      rmatch r1 s caps (fun s' caps' => k s' ((n, consumed s s') :: caps'))
  end.

(** [/^@@ \-(\d+)(,(\d+))?( \+(\d+)(,(\d+)?)?)? @@/] *)
Definition DIFF_HUNK_HEADER : regex :=
  Seq (Lit "@@ -")
 (Seq (Group 1 Digits)
 (Seq (Opt (Group 2 (Seq (Lit ",") (Group 3 Digits))))
 (Seq (Opt (Group 4 (Seq (Lit " +")
                    (Seq (Group 5 Digits)
                         (Opt (Group 6 (Seq (Lit ",") (Opt (Group 7 Digits)))))))))
      (Lit " @@")))).

(** [re.exec(line)]: the captures, or [None] for [null]. *)
Definition exec (re : regex) (line : string) : option captures :=
  rmatch re line [] (fun _ caps => Some caps).

(** [re.test(line)]. *)
Definition test (re : regex) (line : string) : bool :=
  match exec re line with
  | Some _ => true
  | None => false
  end.

(** ** [countCarriageReturns] and [LineReader] *)

(** The [while] loop of [countCarriageReturns]; [fuel] bounds its turns. *)
Fixpoint countCarriageReturns_loop (fuel : nat) (text : string) (index count : Z)
    : outcome Z :=
  let index := indexOf text CR index in
  if negb (index =? -1) then
    match fuel with
    | O => Timeout
    | S fuel' => countCarriageReturns_loop fuel' text (index + 1) (count + 1)
    end
  else Return count.

Definition countCarriageReturns (text : string) : outcome Z :=
  countCarriageReturns_loop (String.length text) text 0 0.

(** The [while] loop of [LineReader]; the lines it yields, in order. *)
Fixpoint LineReader_loop (fuel : nat) (text : string) (index : Z)
    : outcome (list string) :=
  if negb (index =? -1) && (index <? strlen text) then
    match fuel with
    | O => Timeout
    | S fuel' =>
        let startIndex := index in
        let index := indexOf text LF index in
        let endIndex := if negb (index =? -1) then index else strlen text in
        let length := endIndex - startIndex in
        let length :=
          if negb (index =? -1) then
            if (0 <? index) &&
               match charAt text (index - 1) with
               | Some c => Ascii.eqb c CR
               | None => false
               end
            then length - 1 else length
          else length in
        let index := if negb (index =? -1) then index + 1 else index in
        rest <- LineReader_loop fuel' text index ;;
        Return (substr text startIndex length :: rest)
    end
  else Return [].

Definition LineReader (text : string) : outcome (list string) :=
  LineReader_loop (String.length text) text 0.


(** ** [parseDiffHunk] and [parsePatch] *)

(** The local variables of [parseDiffHunk] that live across loop turns. *)
Record cursor : Type := mkCursor {
  diffHunk : option DiffHunk.t;
  positionInHunk : Z;
  oldLine : jsnum;
  newLine : jsnum
}.

(** [diffLines[diffLines.length - 1].endwithLineBreak = false], under the
    guard [diffLines && diffLines.length]. *)
Definition clear_last_line_break (ls : list DiffLine.t) : list DiffLine.t :=
  match rev ls with
  | [] => ls
  | l :: before => rev before ++ [DiffLine.set_endwithLineBreak l false]
  end.

Definition yield_open (h : option DiffHunk.t) : list DiffHunk.t :=
  match h with
  | Some d => [d]
  | None => []
  end.

(** One turn of the [while] loop on [line], up to (not including) the
    closing [if (positionInHunk !== -1) ++positionInHunk]: the hunks it
    yields and the variables after it. *)
Definition parseDiffHunk_branch (line : string) (st : cursor)
    : outcome (list DiffHunk.t * cursor) :=
  if test DIFF_HUNK_HEADER line then
    let yielded := yield_open (diffHunk st) in
    let positionInHunk :=
      if positionInHunk st =? -1 then 0 else positionInHunk st in
    match exec DIFF_HUNK_HEADER line with
    | None => TypeError
    | Some matches =>
        let oriStartLine := Number (capture 1 matches) in
        let oriLen := jor (Number (capture 3 matches)) (JInt 1) in
        let newStartLine := Number (capture 5 matches) in
        let newLen := jor (Number (capture 7 matches)) (JInt 1) in
        let hunk :=
          DiffHunk.mk oriStartLine oriLen newStartLine newLen positionInHunk
            [DiffLine.mk Control (JInt (-1)) (JInt (-1)) positionInHunk line true] in
        Return (yielded, mkCursor (Some hunk) positionInHunk oriStartLine newStartLine)
    end
  else
    match diffHunk st with
    | Some hunk =>
        let type := getDiffChangeType line in
        match type with
        | Control =>
            let hunk :=
              DiffHunk.set_diffLines hunk
                (clear_last_line_break (DiffHunk.diffLines hunk)) in
            Return ([], mkCursor (Some hunk) (positionInHunk st) (oldLine st) (newLine st))
        | _ =>
            let l :=
              DiffLine.mk type
                (match type with Add => JInt (-1) | _ => oldLine st end)
                (match type with Delete => JInt (-1) | _ => newLine st end)
                (positionInHunk st) line true in
            let hunk :=
              DiffHunk.set_diffLines hunk (DiffHunk.diffLines hunk ++ [l])%list in
            returns <- countCarriageReturns line ;;
            let lineCount := 1 + returns in
            let '(oldLine, newLine) :=
              match type with
              | Context => (jadd (oldLine st) lineCount, jadd (newLine st) lineCount)
              | Delete => (jadd (oldLine st) lineCount, newLine st)
              | Add => (oldLine st, jadd (newLine st) lineCount)
              | Control => (oldLine st, newLine st)
              end in
            Return ([], mkCursor (Some hunk) (positionInHunk st) oldLine newLine)
        end
    | None => Return ([], st)
    end.

Definition parseDiffHunk_turn (line : string) (st : cursor)
    : outcome (list DiffHunk.t * cursor) :=
  r <- parseDiffHunk_branch line st ;;
  let '(yielded, st') := r in
  let positionInHunk :=
    if negb (positionInHunk st' =? -1) then positionInHunk st' + 1
    else positionInHunk st' in
  Return (yielded, mkCursor (diffHunk st') positionInHunk (oldLine st') (newLine st')).

(** The [while (!itr.done)] loop over the lines the reader yields, and the
    last [yield] after it. *)
Fixpoint parseDiffHunk_loop (lines : list string) (st : cursor)
    : outcome (list DiffHunk.t) :=
  match lines with
  | [] => Return (yield_open (diffHunk st))
  | line :: rest =>
      r <- parseDiffHunk_turn line st ;;
      let '(yielded, st') := r in
      more <- parseDiffHunk_loop rest st' ;;
      Return (yielded ++ more)%list
  end.

Definition parseDiffHunk_init : cursor :=
  mkCursor None (-1) (JInt (-1)) (JInt (-1)).

(** Every hunk the generator yields, in order. *)
Definition parseDiffHunk (diffHunkPatch : string) : outcome (list DiffHunk.t) :=
  lines <- LineReader diffHunkPatch ;;
  parseDiffHunk_loop lines parseDiffHunk_init.

Definition parsePatch (patch : string) : outcome (list DiffHunk.t) :=
  parseDiffHunk patch.

Definition nl : string := String LF "".
Definition cr : string := String CR "".


(** ** [splitIntoSmallerHunks] *)

Definition newHunk (fromLine : DiffLine.t) : DiffHunk.t :=
  DiffHunk.mk (DiffLine.oldLineNumber fromLine) (JInt 0)
              (DiffLine.newLineNumber fromLine) (JInt 0) 0 [].

Definition addLineToHunk (hunk : DiffHunk.t) (line : DiffLine.t) : DiffHunk.t :=
  let lines := (DiffHunk.diffLines hunk ++ [line])%list in
  let '(oldLength, newLength) :=
    match DiffLine.type line with
    | Delete => (jadd (DiffHunk.oldLength hunk) 1, DiffHunk.newLength hunk)
    | Add => (DiffHunk.oldLength hunk, jadd (DiffHunk.newLength hunk) 1)
    | Context => (jadd (DiffHunk.oldLength hunk) 1, jadd (DiffHunk.newLength hunk) 1)
    | Control => (DiffHunk.oldLength hunk, DiffHunk.newLength hunk)
    end in
  DiffHunk.mk (DiffHunk.oldLineNumber hunk) oldLength
              (DiffHunk.newLineNumber hunk) newLength
              (DiffHunk.positionInHunk hunk) lines.

Definition hunkHasChanges (hunk : DiffHunk.t) : bool :=
  existsb (fun line => negb (DiffChangeType_eqb (DiffLine.type line) Context))
          (DiffHunk.diffLines hunk).

(** [diffLines[diffLines.length - 1].type] throws on an empty list; the
    [&&] before it keeps it from being read there. *)
Definition hunkHasSandwichedChanges (hunk : DiffHunk.t) : outcome bool :=
  if hunkHasChanges hunk then
    match last (map Some (DiffHunk.diffLines hunk)) None with
    | Some line => Return (DiffChangeType_eqb (DiffLine.type line) Context)
    | None => TypeError
    end
  else Return false.

Record segmenter : Type := mkSegmenter {
  splitHunks : list DiffHunk.t;
  currentHunk : option DiffHunk.t;
  nextHunk : option DiffHunk.t
}.

Definition or_newHunk (h : option DiffHunk.t) (line : DiffLine.t) : DiffHunk.t :=
  match h with
  | Some d => d
  | None => newHunk line
  end.

(** The body of [for (const line of hunk.diffLines)]. *)
Definition splitIntoSmallerHunks_turn (line : DiffLine.t) (st : segmenter)
    : outcome segmenter :=
  match DiffLine.type line with
  | Context =>
      let current := addLineToHunk (or_newHunk (currentHunk st) line) line in
      sandwiched <- hunkHasSandwichedChanges current ;;
      if sandwiched : bool then
        let next := addLineToHunk (or_newHunk (nextHunk st) line) line in
        Return (mkSegmenter (splitHunks st) (Some current) (Some next))
      else
        Return (mkSegmenter (splitHunks st) (Some current) (nextHunk st))
  | type =>
      match currentHunk st with
      | Some current =>
          sandwiched <- hunkHasSandwichedChanges current ;;
          let st' :=
            if sandwiched : bool then
              mkSegmenter (splitHunks st ++ [current])%list (nextHunk st) None
            else st in
          match type with
          | Delete | Add =>
              match currentHunk st' with
              | Some current' =>
                  Return (mkSegmenter (splitHunks st')
                            (Some (addLineToHunk current' line)) (nextHunk st'))
              | None => TypeError
              end
          | _ => Return st'
          end
      | None => Return st
      end
  end.

Fixpoint splitIntoSmallerHunks_loop (lines : list DiffLine.t) (st : segmenter)
    : outcome segmenter :=
  match lines with
  | [] => Return st
  | line :: rest =>
      st' <- splitIntoSmallerHunks_turn line st ;;
      splitIntoSmallerHunks_loop rest st'
  end.

Definition splitIntoSmallerHunks (hunk : DiffHunk.t) : outcome (list DiffHunk.t) :=
  st <- splitIntoSmallerHunks_loop (DiffHunk.diffLines hunk)
          (mkSegmenter [] None None) ;;
  Return (splitHunks st ++ yield_open (currentHunk st))%list.

(** ** [getModifiedContentFromDiffHunk] *)

(** [content.split(/\r?\n/)]: [acc] holds, reversed, the characters of the
    piece being read. *)
Fixpoint split_lines_from (acc : list ascii) (s : string) : list string :=
  match s with
  | EmptyString => [string_of_list_ascii (rev acc)]
  | String c rest =>
      if Ascii.eqb c LF then
        string_of_list_ascii (rev acc) :: split_lines_from [] rest
      else
        match rest with
        | String c' rest' =>
            if Ascii.eqb c CR && Ascii.eqb c' LF then
              string_of_list_ascii (rev acc) :: split_lines_from [] rest'
            else split_lines_from (c :: acc) rest
        | EmptyString => split_lines_from (c :: acc) rest
        end
  end.

Definition split_lines (content : string) : list string :=
  split_lines_from [] content.

(** [array[i]]: [None] is [undefined]. *)
Definition element {A : Type} (array : list A) (i : Z) : option A :=
  if i <? 0 then None else nth_error array (Z.to_nat i).

(** [array.join("\n")]: [undefined] is written as the empty string. *)
Definition join_lines (array : list (option string)) : string :=
  String.concat nl
    (map (fun x => match x with Some s => s | None => EmptyString end) array).

(** [a + b] on numbers. *)
Definition jplus (a b : jsnum) : jsnum :=
  match a, b with
  | JInt x, JInt y => JInt (x + y)
  | _, _ => JNaN
  end.

(** The values [left[j - 1]] pushed by
    [for (let j = from; j < bound; j++)] (no turn when a side is [NaN]). *)
Definition copy_left (left : list string) (from bound : jsnum)
    : list (option string) :=
  match from, bound with
  | JInt a, JInt b =>
      map (fun i => element left (a + Z.of_nat i - 1)) (seq 0 (Z.to_nat (b - a)))
  | _, _ => []
  end.

(** [for (k = length - 1; k >= 0; k--)]: the flag of the last line that is
    not a [Delete], or [start] when there is none. *)
Definition last_line_break (start : bool) (lines : list DiffLine.t) : bool :=
  match filter (fun l => negb (DiffChangeType_eqb (DiffLine.type l) Delete))
               (rev lines) with
  | l :: _ => DiffLine.endwithLineBreak l
  | [] => start
  end.

(** What one hunk pushes on [right] from its own lines. *)
Fixpoint hunk_lines (lines : list DiffLine.t) : list (option string) :=
  match lines with
  | [] => []
  | diffLine :: rest =>
      match DiffLine.type diffLine with
      | Delete | Control => hunk_lines rest
      | Add | Context => Some (DiffLine.text diffLine) :: hunk_lines rest
      end
  end.

Record rebuilder : Type := mkRebuilder {
  right : list (option string);
  lastCommonLine : jsnum;
  lastDiffLineEndsWithNewline : bool
}.

(** The [while (!diffHunkIter.done)] loop, over the hunks the generator
    yields. *)
Fixpoint getModifiedContent_loop (left : list string) (hunks : list DiffHunk.t)
    (st : rebuilder) : rebuilder :=
  match hunks with
  | [] => st
  | diffHunk :: rest =>
      let oriStartLine := DiffHunk.oldLineNumber diffHunk in
      let right1 :=
        (right st ++ copy_left left (jadd (lastCommonLine st) 1) oriStartLine)%list in
      let lastCommonLine :=
        jadd (jplus oriStartLine (DiffHunk.oldLength diffHunk)) (-1) in
      let right2 := (right1 ++ hunk_lines (DiffHunk.diffLines diffHunk))%list in
      let ends :=
        match rest with
        | [] => last_line_break (lastDiffLineEndsWithNewline st)
                  (DiffHunk.diffLines diffHunk)
        | _ :: _ => lastDiffLineEndsWithNewline st
        end in
      getModifiedContent_loop left rest (mkRebuilder right2 lastCommonLine ends)
  end.

Definition getModifiedContentFromDiffHunk (originalContent patch : string)
    : outcome string :=
  let left := split_lines originalContent in
  diffHunks <- parseDiffHunk patch ;;
  let st := getModifiedContent_loop left diffHunks (mkRebuilder [] (JInt 0) true) in
  let length := JInt (Z.of_nat (List.length left)) in
  let right :=
    if lastDiffLineEndsWithNewline st then
      if jltb (lastCommonLine st) length then
        (right st ++ copy_left left (jadd (lastCommonLine st) 1) (jadd length 1))%list
      else (right st ++ [Some EmptyString])%list
    else right st in
  Return (join_lines right).

(** ** [getGitChangeType] and [parseDiff] *)

(** The members of [GitChangeType] (declared in [./file]) that this module
    names. *)
Inductive GitChangeType : Type :=
| ADD
| DELETE
| MODIFY
| RENAME
| UNKNOWN.

Definition GitChangeType_eqb (a b : GitChangeType) : bool :=
  match a, b with
  | ADD, ADD | DELETE, DELETE | MODIFY, MODIFY | RENAME, RENAME
  | UNKNOWN, UNKNOWN => true
  | _, _ => false
  end.

Definition getGitChangeType (status : string) : GitChangeType :=
  if String.eqb status "removed" then DELETE
  else if String.eqb status "added" then ADD
  else if String.eqb status "renamed" then RENAME
  else if String.eqb status "modified" then MODIFY
  else UNKNOWN.

(** The fields of [IRawFileChange] (declared in [../github/interface]) that
    [parseDiff] reads; [None] is [undefined]. *)
Record IRawFileChange : Type := mkRaw {
  filename : string;
  previous_filename : option string;
  status : string;
  additions : Z;
  patch : option string;
  blob_url : option string
}.

(** The two file changes of [./file], by their constructors' arguments. *)
Inductive FileChange : Type :=
| SlimFileChange (parentCommit : string) (blobUrl : option string)
    (status : GitChangeType) (fileName : string)
    (previousFileName : option string)
| InMemFileChange (parentCommit : string) (status : GitChangeType)
    (fileName : string) (previousFileName : option string) (patch : string)
    (diffHunks : option (list DiffHunk.t)) (blobUrl : option string).

(** A value [review.patch] is truthy when it is a string that is not empty. *)
Definition truthy (x : option string) : bool :=
  match x with
  | Some s => negb (String.eqb s EmptyString)
  | None => false
  end.

(** The body of the [for] loop of [parseDiff]: the change it pushes. *)
Definition parseDiff_turn (review : IRawFileChange) (parentCommit : string)
    : outcome FileChange :=
  let gitChangeType := getGitChangeType (status review) in
  if negb (truthy (patch review))
     && negb (GitChangeType_eqb gitChangeType RENAME)
     && negb (GitChangeType_eqb gitChangeType MODIFY)
     && negb (GitChangeType_eqb gitChangeType ADD && (additions review =? 0))
  then
    Return (SlimFileChange parentCommit (blob_url review) gitChangeType
              (filename review) (previous_filename review))
  else
    let text := match patch review with Some text => text | None => EmptyString end in
    diffHunks <-
      (if truthy (patch review) then
         hunks <- parsePatch text ;; Return (Some hunks)
       else Return None) ;;
    Return (InMemFileChange parentCommit gitChangeType (filename review)
              (previous_filename review) text diffHunks (blob_url review)).

Fixpoint parseDiff (reviews : list IRawFileChange) (parentCommit : string)
    : outcome (list FileChange) :=
  match reviews with
  | [] => Return []
  | review :: rest =>
      change <- parseDiff_turn review parentCommit ;;
      changes <- parseDiff rest parentCommit ;;
      Return (change :: changes)
  end.

(** * Notions used in the statements *)

(** ** The parser's turn as a step relation *)

Definition bump (positionInHunk : Z) : Z :=
  if negb (positionInHunk =? -1) then positionInHunk + 1 else positionInHunk.

Definition header_line (positionInHunk : Z) (line : string) : DiffLine.t :=
  DiffLine.mk Control (JInt (-1)) (JInt (-1)) positionInHunk line true.

Definition header_hunk (positionInHunk : Z) (line : string) (matches : captures)
    : DiffHunk.t :=
  DiffHunk.mk (Number (capture 1 matches))
              (jor (Number (capture 3 matches)) (JInt 1))
              (Number (capture 5 matches))
              (jor (Number (capture 7 matches)) (JInt 1))
              positionInHunk [header_line positionInHunk line].

Definition content_line (type : DiffChangeType) (st : cursor) (line : string)
    : DiffLine.t :=
  DiffLine.mk type
    (match type with Add => JInt (-1) | _ => oldLine st end)
    (match type with Delete => JInt (-1) | _ => newLine st end)
    (positionInHunk st) line true.

Definition advance_old (type : DiffChangeType) (st : cursor) (lineCount : Z) : jsnum :=
  match type with
  | Context | Delete => jadd (oldLine st) lineCount
  | _ => oldLine st
  end.

Definition advance_new (type : DiffChangeType) (st : cursor) (lineCount : Z) : jsnum :=
  match type with
  | Context | Add => jadd (newLine st) lineCount
  | _ => newLine st
  end.

Inductive turn_step (line : string) (st : cursor)
    : list DiffHunk.t -> cursor -> Prop :=
| step_header (matches : captures) (p : Z) :
    exec DIFF_HUNK_HEADER line = Some matches ->
    p = (if positionInHunk st =? -1 then 0 else positionInHunk st) ->
    turn_step line st (yield_open (diffHunk st))
      (mkCursor (Some (header_hunk p line matches)) (bump p)
                (Number (capture 1 matches)) (Number (capture 5 matches)))
| step_marker (hunk : DiffHunk.t) :
    exec DIFF_HUNK_HEADER line = None ->
    diffHunk st = Some hunk ->
    getDiffChangeType line = Control ->
    turn_step line st []
      (mkCursor
         (Some (DiffHunk.set_diffLines hunk
                  (clear_last_line_break (DiffHunk.diffLines hunk))))
         (bump (positionInHunk st)) (oldLine st) (newLine st))
| step_content (hunk : DiffHunk.t) (returns : Z) :
    exec DIFF_HUNK_HEADER line = None ->
    diffHunk st = Some hunk ->
    getDiffChangeType line <> Control ->
    countCarriageReturns line = Return returns ->
    0 <= returns ->
    turn_step line st []
      (mkCursor
         (Some (DiffHunk.set_diffLines hunk
                  (DiffHunk.diffLines hunk
                     ++ [content_line (getDiffChangeType line) st line])%list))
         (bump (positionInHunk st))
         (advance_old (getDiffChangeType line) st (1 + returns))
         (advance_new (getDiffChangeType line) st (1 + returns)))
| step_stray :
    exec DIFF_HUNK_HEADER line = None ->
    diffHunk st = None ->
    turn_step line st []
      (mkCursor None (bump (positionInHunk st)) (oldLine st) (newLine st)).

(** ** Stored lines and their positions *)

Definition all_lines (hunks : list DiffHunk.t) : list DiffLine.t :=
  List.concat (map DiffHunk.diffLines hunks).

Definition positions (lines : list DiffLine.t) : list Z :=
  map DiffLine.positionInHunk lines.

Definition open_lines (st : cursor) : list DiffLine.t :=
  all_lines (yield_open (diffHunk st)).

(** Before the first header no hunk is open and the counter is [-1]; from
    then on a hunk is open and the counter is not negative. *)
Definition counter_ok (st : cursor) : Prop :=
  match diffHunk st with
  | None => positionInHunk st = -1
  | Some _ => 0 <= positionInHunk st
  end.

Fixpoint ascending_from (p : Z) (l : list Z) : Prop :=
  match l with
  | [] => True
  | x :: rest => p <= x /\ ascending_from (x + 1) rest
  end.

(** ** Line numbers *)

(** The relation between a line's kind and its two numbers. *)
Definition line_number_invariant (l : DiffLine.t) : Prop :=
  (DiffLine.type l = Add <-> jeqb (DiffLine.oldLineNumber l) (JInt (-1)) = true) /\
  (DiffLine.type l = Delete <-> jeqb (DiffLine.newLineNumber l) (JInt (-1)) = true).

(** What the parser keeps: a [Control] line is a header with both numbers
    [-1]; any other line obeys the relation. *)
Definition line_numbers_ok (l : DiffLine.t) : Prop :=
  match DiffLine.type l with
  | Control =>
      DiffLine.oldLineNumber l = JInt (-1) /\ DiffLine.newLineNumber l = JInt (-1)
  | _ => line_number_invariant l
  end.

Definition nonneg (n : jsnum) : Prop :=
  match n with
  | JNaN => True
  | JInt z => 0 <= z
  end.

Definition numbers_ok (st : cursor) : Prop :=
  match diffHunk st with
  | None => True
  | Some hunk =>
      Forall line_numbers_ok (DiffHunk.diffLines hunk) /\
      nonneg (oldLine st) /\ nonneg (newLine st)
  end.

(** ** The shape of a header line *)

(** A run of one or more decimal digits. *)
Definition digit_string (d : string) : Prop :=
  all_digits d = true /\ d <> "".

(** The next character, if any, is not a digit. *)
Definition no_digit_ahead (s : string) : Prop :=
  match s with
  | String c _ => is_digit c = false
  | EmptyString => True
  end.

(** The part of a header that follows the old range. *)
Inductive new_range : Type :=
| NoNewRange
| NewStart (newStart : string)
| NewStartComma (newStart : string)
| NewStartCount (newStart newCount : string).

Definition new_start (nr : new_range) : option string :=
  match nr with
  | NoNewRange => None
  | NewStart ns | NewStartComma ns | NewStartCount ns _ => Some ns
  end.

Definition new_count (nr : new_range) : option string :=
  match nr with
  | NewStartCount _ nc => Some nc
  | _ => None
  end.

Definition render_count (oldCount : option string) (rest : string) : string :=
  match oldCount with
  | Some c => "," ++ c ++ rest
  | None => rest
  end.

Definition render_new (nr : new_range) (rest : string) : string :=
  match nr with
  | NoNewRange => rest
  | NewStart ns => " +" ++ ns ++ rest
  | NewStartComma ns => " +" ++ ns ++ "," ++ rest
  | NewStartCount ns nc => " +" ++ ns ++ "," ++ nc ++ rest
  end.

(** [@@ -<oldStart>[,<oldCount>][ +<newStart>[,[<newCount>]]] @@<tail>] *)
Definition header_text (oldStart : string) (oldCount : option string)
    (nr : new_range) (tail : string) : string :=
  "@@ -" ++ oldStart ++ render_count oldCount (render_new nr (" @@" ++ tail)).

Definition digit_option (x : option string) : Prop :=
  match x with
  | Some d => digit_string d
  | None => True
  end.

Definition header_parts_ok (oldStart : string) (oldCount : option string)
    (nr : new_range) : Prop :=
  digit_string oldStart /\ digit_option oldCount /\
  digit_option (new_start nr) /\ digit_option (new_count nr).

(** The shape of the lines [DIFF_HUNK_HEADER] accepts. *)
Definition header_shape (line : string) : Prop :=
  exists oldStart oldCount nr tail,
    header_parts_ok oldStart oldCount nr /\
    line = header_text oldStart oldCount nr tail.

(** The pattern as the specification words it: both ranges present, each
    with an optional count,
    [@@ -<oldStart>[,<oldCount>]? +<newStart>[,<newCount>]? @@]. *)
Definition SPEC_HUNK_HEADER : regex :=
  Seq (Lit "@@ -")
 (Seq (Group 1 Digits)
 (Seq (Opt (Group 2 (Seq (Lit ",") (Group 3 Digits))))
 (Seq (Group 4 (Seq (Lit " +")
               (Seq (Group 5 Digits)
                    (Opt (Group 6 (Seq (Lit ",") (Group 7 Digits)))))))
      (Lit " @@")))).

Definition decimal (d : string) : Z := decimal_from 0 d.

(** The hunk that is open after one turn of the parser on [line]. *)
Definition opened_hunk (line : string) (st : cursor) : option DiffHunk.t :=
  match parseDiffHunk_branch line st with
  | Return (_, st') => diffHunk st'
  | _ => None
  end.

(** ** Line ends *)

(** [s] with every carriage return that precedes a line feed removed. *)
Fixpoint normalize_line_ends (s : string) : string :=
  match s with
  | EmptyString => EmptyString
  | String c rest =>
      match rest with
      | String c' rest' =>
          if Ascii.eqb c CR && Ascii.eqb c' LF
          then String LF (normalize_line_ends rest')
          else String c (normalize_line_ends rest)
      | EmptyString => String c EmptyString
      end
  end.

Fixpoint has_crlf (s : string) : bool :=
  match s with
  | EmptyString => false
  | String c rest =>
      (Ascii.eqb c CR
       && match rest with
          | String c' _ => Ascii.eqb c' LF
          | EmptyString => false
          end)
      || has_crlf rest
  end.

(** ** Occurrences of a line, and the segmenter between two turns *)

Definition jsnum_eq_dec (a b : jsnum) : {a = b} + {a <> b}.
Proof.
  decide equality. apply Z.eq_dec.
Defined.

Definition DiffChangeType_eq_dec (a b : DiffChangeType) : {a = b} + {a <> b}.
Proof.
  decide equality.
Defined.

Definition DiffLine_eq_dec (a b : DiffLine.t) : {a = b} + {a <> b}.
Proof.
  decide equality;
    [ apply bool_dec | apply string_dec | apply Z.eq_dec
    | apply jsnum_eq_dec | apply jsnum_eq_dec | apply DiffChangeType_eq_dec ].
Defined.

(** How often the line [l] occurs in [lines]. *)
Definition occ (l : DiffLine.t) (lines : list DiffLine.t) : nat :=
  count_occ DiffLine_eq_dec lines l.

Definition lines_of (h : option DiffHunk.t) : list DiffLine.t :=
  match h with
  | Some d => DiffHunk.diffLines d
  | None => []
  end.

Definition is_context (l : DiffLine.t) : bool :=
  DiffChangeType_eqb (DiffLine.type l) Context.

Definition is_change (l : DiffLine.t) : bool :=
  match DiffLine.type l with
  | Add | Delete => true
  | _ => false
  end.

(** The lines of a hunk up to its first [Context] line, and from it on. *)
Fixpoint before_first_context (lines : list DiffLine.t) : list DiffLine.t :=
  match lines with
  | [] => []
  | l :: rest => if is_context l then [] else l :: before_first_context rest
  end.

Fixpoint from_first_context (lines : list DiffLine.t) : list DiffLine.t :=
  match lines with
  | [] => []
  | l :: rest => if is_context l then lines else from_first_context rest
  end.

(** [hunkHasSandwichedChanges] as a total test. *)
Definition sandwiched (hunk : DiffHunk.t) : bool :=
  hunkHasChanges hunk &&
  match last (map Some (DiffHunk.diffLines hunk)) None with
  | Some line => is_context line
  | None => false
  end.

(** What holds of the three variables between two turns of the loop. *)
Definition segmenter_ok (st : segmenter) : Prop :=
  (currentHunk st = None -> nextHunk st = None /\ splitHunks st = []) /\
  (forall current,
     currentHunk st = Some current -> sandwiched current = true ->
     nextHunk st <> None) /\
  Forall (fun l => is_context l = true) (lines_of (nextHunk st)).

(** Occurrences in the hunks that are sure to be returned, and in the one
    that waits in [nextHunk]. *)
Definition settled (st : segmenter) (l : DiffLine.t) : nat :=
  (occ l (all_lines (splitHunks st)) + occ l (lines_of (currentHunk st)))%nat.

Definition pending (st : segmenter) (l : DiffLine.t) : nat :=
  occ l (lines_of (nextHunk st)).

(** ** Inputs and predicates of the claims *)

Definition new_file_patch : string :=
  "@@ -0,0 +1,2 @@" ++ nl ++ "+a" ++ nl ++ "+b".

Definition leading_change_patch : string :=
  "@@ -1,3 +1,3 @@" ++ nl ++ "-a" ++ nl ++ "+A" ++ nl ++ " b" ++ nl ++ " c".

Definition is_slim (change : FileChange) : bool :=
  match change with
  | SlimFileChange _ _ _ _ _ => true
  | InMemFileChange _ _ _ _ _ _ _ => false
  end.

(** The parsed hunks a change carries ([None]: it carries none). *)
Definition hunks_of (change : FileChange) : option (list DiffHunk.t) :=
  match change with
  | SlimFileChange _ _ _ _ _ => None
  | InMemFileChange _ _ _ _ _ diffHunks _ => diffHunks
  end.

Definition empty_add : IRawFileChange :=
  mkRaw "new.txt" None "added" 0 None None.

Definition three_line_add : IRawFileChange :=
  mkRaw "new.txt" None "added" 3 None None.

(** What [parseDiff] pushes for one record. *)
Definition change_matches (review : IRawFileChange) (change : FileChange) : Prop :=
  let kind := getGitChangeType (status review) in
  (is_slim change = true <->
   truthy (patch review) = false /\ kind <> RENAME /\ kind <> MODIFY /\
   ~ (kind = ADD /\ additions review = 0)) /\
  (is_slim change = false ->
   (hunks_of change <> None <-> truthy (patch review) = true)).

Definition crlf_content : string := "a" ++ cr ++ nl ++ "b".

(** A count written with zeros only. *)
Definition zero_count (d : string) : Prop := digit_string d /\ decimal d = 0.

(** The stored lines of the hunks [parsePatch] returns, in emission order. *)
Definition parsed_lines (patch : string) : list DiffLine.t :=
  match parsePatch patch with
  | Return hunks => all_lines hunks
  | _ => []
  end.

Definition round_trip_original : string :=
  "a" ++ nl ++ "b" ++ nl ++ "c" ++ nl ++ "d" ++ nl.

Definition round_trip_patch : string :=
  "@@ -1,4 +1,4 @@" ++ nl ++ " a" ++ nl ++ "-b" ++ nl ++ "+B" ++ nl
    ++ " c" ++ nl ++ " d".

(** ** Searching and cutting strings by index *)

(** Whether the character [c] occurs in [s]. *)
Fixpoint contains_char (c : ascii) (s : string) : bool :=
  match s with
  | EmptyString => false
  | String a rest => Ascii.eqb a c || contains_char c rest
  end.

(** How many times the character [c] occurs in [s]. *)
Fixpoint count_char (c : ascii) (s : string) : Z :=
  match s with
  | EmptyString => 0
  | String a rest => (if Ascii.eqb a c then 1 else 0) + count_char c rest
  end.

(** ** [LineReader] as a scan *)

(** The line collected in [acc] (reversed), without the carriage return it
    ends with, if any. *)
Definition strip_cr (acc : list ascii) : string :=
  match acc with
  | c :: acc' =>
      if Ascii.eqb c CR then string_of_list_ascii (rev acc')
      else string_of_list_ascii (rev acc)
  | [] => EmptyString
  end.

(** The lines of [s]: the pieces between line feeds, each without the
    carriage return before its line feed; what follows the last line feed
    is a line when it is not empty.  [acc] holds, reversed, the characters
    of the piece being read. *)
Fixpoint scan_lines_from (acc : list ascii) (s : string) : list string :=
  match s with
  | EmptyString =>
      match acc with
      | [] => []
      | _ :: _ => [string_of_list_ascii (rev acc)]
      end
  | String c rest =>
      if Ascii.eqb c LF then strip_cr acc :: scan_lines_from [] rest
      else scan_lines_from (c :: acc) rest
  end.

Definition scan_lines (text : string) : list string :=
  scan_lines_from [] text.

(** [before] is empty or ends with a line feed. *)
Definition at_line_start (before : string) : Prop :=
  before = EmptyString \/ exists p, before = (p ++ String LF "")%string.

(** Whether the last character of [l] is a carriage return. *)
Definition ends_with_cr (l : string) : bool :=
  match rev (list_ascii_of_string l) with
  | c :: _ => Ascii.eqb c CR
  | [] => false
  end.

(** A line that can stand between two line feeds and be read back: it
    holds no line feed and does not end with a carriage return. *)
Definition plain_line (l : string) : Prop :=
  contains_char LF l = false /\ ends_with_cr l = false.

(** [lines] with its last element left out when that is the empty string. *)
Fixpoint without_final_empty (lines : list string) : list string :=
  match lines with
  | [] => []
  | l :: rest =>
      match rest with
      | [] => if String.eqb l EmptyString then [] else [l]
      | _ :: _ => l :: without_final_empty rest
      end
  end.

(** A carriage return waits at the head of [acc] and [s] starts with the
    line feed that would take it away. *)
Definition cr_then_lf (acc : list ascii) (s : string) : bool :=
  match acc, s with
  | a :: _, String c _ => Ascii.eqb a CR && Ascii.eqb c LF
  | _, _ => false
  end.

(** ** Patches written hunk by hunk *)

(** A line of a hunk body as it is written: its kind, its text, and
    whether it ends with a line break (when it does not, the marker line
    follows it in the patch). *)
Definition body_item : Type := DiffChangeType * string * bool.

Definition item_kind (item : body_item) : DiffChangeType := fst (fst item).
Definition item_text (item : body_item) : string := snd (fst item).
Definition item_break (item : body_item) : bool := snd item.

(** One hunk of a patch as it is written, with the lines of the original
    that stand, unchanged, between the previous hunk and this one, and the
    lines of the original that the hunk takes the place of. *)
Record patch_section : Type := mkSection {
  sec_gap : list string;
  sec_replaced : list string;
  sec_oldStart : string;
  sec_oldCount : option string;
  sec_new : new_range;
  sec_tail : string;
  sec_body : list body_item
}.

Definition prefix_of (kind : DiffChangeType) : ascii :=
  match kind with
  | Context => " "%char
  | Add => "+"%char
  | Delete => "-"%char
  | Control => "\"%char
  end.

Definition marker_line : string := "\ No newline at end of file".

Definition render_line (item : body_item) : string :=
  String (prefix_of (item_kind item)) (item_text item).

(** The lines of the patch text an item takes. *)
Definition render_item (item : body_item) : list string :=
  if item_break item then [render_line item]
  else [render_line item; marker_line].

Definition sec_header (s : patch_section) : string :=
  header_text (sec_oldStart s) (sec_oldCount s) (sec_new s) (sec_tail s).

(** The lines of the patch text that make up the section. *)
Definition sec_lines (s : patch_section) : list string :=
  sec_header s :: flat_map render_item (sec_body s).

(** The texts of the body on the new side. *)
Fixpoint new_texts (body : list body_item) : list string :=
  match body with
  | [] => []
  | item :: rest =>
      match item_kind item with
      | Context | Add => item_text item :: new_texts rest
      | _ => new_texts rest
      end
  end.

(** The old length the parser records for a written count: an absent
    count and a count of zero both give [1]. *)
Definition recorded_length (count : option string) : Z :=
  match count with
  | None => 1
  | Some c => if decimal c =? 0 then 1 else decimal c
  end.

Definition body_item_ok (item : body_item) : Prop :=
  item_kind item <> Control /\ plain_line (item_text item).

(** The section is well written for an original of which [offset] lines
    stand before its gap: its header gives the number of the first line it
    takes the place of, and the old length the parser records for it is the
    number of these lines. *)
Definition section_ok (offset : Z) (s : patch_section) : Prop :=
  header_parts_ok (sec_oldStart s) (sec_oldCount s) (sec_new s) /\
  plain_line (sec_header s) /\
  Forall plain_line (sec_gap s) /\
  Forall body_item_ok (sec_body s) /\
  decimal (sec_oldStart s) = offset + Z.of_nat (List.length (sec_gap s)) + 1 /\
  recorded_length (sec_oldCount s) = Z.of_nat (List.length (sec_replaced s)) /\
  Forall plain_line (sec_replaced s).

(** What the section takes from the original, and what it leaves. *)
Definition sec_old (s : patch_section) : list string :=
  (sec_gap s ++ sec_replaced s)%list.

Definition sec_result (s : patch_section) : list string :=
  (sec_gap s ++ new_texts (sec_body s))%list.

Fixpoint sections_ok (offset : Z) (sections : list patch_section) : Prop :=
  match sections with
  | [] => True
  | s :: rest =>
      section_ok offset s /\
      sections_ok (offset + Z.of_nat (List.length (sec_old s))) rest
  end.

(** Whether the last line of the body that is no [Delete] ends with a line
    break (the header does when there is none). *)
Definition body_break (body : list body_item) : bool :=
  match filter (fun item => negb (DiffChangeType_eqb (item_kind item) Delete))
               (rev body) with
  | item :: _ => item_break item
  | [] => true
  end.

(** Whether the new file ends with a line break, as the last section
    tells. *)
Fixpoint patch_break (sections : list patch_section) : bool :=
  match sections with
  | [] => true
  | s :: rest =>
      match rest with
      | [] => body_break (sec_body s)
      | _ :: _ => patch_break rest
      end
  end.

(** What the reconstruction reads of a stored line. *)
Definition line_view (l : DiffLine.t) : body_item :=
  (DiffLine.type l, DiffLine.text l, DiffLine.endwithLineBreak l).

(** The hunk the parser returns for a section, as far as the
    reconstruction reads it. *)
Definition hunk_of_section (s : patch_section) (h : DiffHunk.t) : Prop :=
  DiffHunk.oldLineNumber h = JInt (decimal (sec_oldStart s)) /\
  DiffHunk.oldLength h = JInt (recorded_length (sec_oldCount s)) /\
  map line_view (DiffHunk.diffLines h) =
  (Control, substr1 (sec_header s), true) :: sec_body s.

(** ** Applying the hunks of a patch *)

(** What a hunk pushes, read off the views of its lines. *)
Fixpoint pushed_texts (views : list body_item) : list (option string) :=
  match views with
  | [] => []
  | item :: rest =>
      match item_kind item with
      | Delete | Control => pushed_texts rest
      | Add | Context => Some (item_text item) :: pushed_texts rest
      end
  end.

(** What ends the reconstructed lines: when the new file ends with a line
    break, the lines of the original that stand after the last hunk, or one
    empty line when there is none; nothing otherwise. *)
Definition closing_lines (sections : list patch_section) (after : list string)
    : list string :=
  if patch_break sections then
    match after with
    | [] => [EmptyString]
    | _ :: _ => after
    end
  else [].

Definition example_sections : list patch_section :=
  [ mkSection ["a"] ["b"; "c"] "2" (Some "2") (NewStartCount "2" "2") " fn"
      [(Context, "b", true); (Delete, "c", true); (Add, "C", true)];
    mkSection ["d"] ["e"] "5" (Some "0") (NewStart "6") ""
      [(Add, "X", true)];
    mkSection [] ["f"; "g"] "6" (Some "2") (NewStartCount "7" "2") ""
      [(Delete, "f", true); (Add, "F", true); (Context, "g", false)] ].

(** ** The hunks the parser returns *)

(** A stored line without its line-break flag. *)
Definition line_core (l : DiffLine.t)
    : DiffChangeType * jsnum * jsnum * Z * string :=
  (DiffLine.type l, DiffLine.oldLineNumber l, DiffLine.newLineNumber l,
   DiffLine.positionInHunk l, DiffLine.raw l).

Definition core_type (c : DiffChangeType * jsnum * jsnum * Z * string) :=
  fst (fst (fst (fst c))).
Definition core_raw (c : DiffChangeType * jsnum * jsnum * Z * string) := snd c.

(** A body line is a scanned line that is no header and no marker, stored
    with the kind its first character gives. *)
Definition body_core_ok (c : DiffChangeType * jsnum * jsnum * Z * string) : Prop :=
  core_type c = getDiffChangeType (core_raw c) /\
  core_type c <> Control /\
  test DIFF_HUNK_HEADER (core_raw c) = false.

(** [Number.MAX_SAFE_INTEGER].  The numbers of the code are doubles; the
    model reads and adds integers exactly, which is what a double does as
    long as the numbers stay at or below this bound.  What is stated of a
    decoded or of an advanced number is stated within it. *)
Definition MAX_SAFE_INTEGER : Z := 2 ^ 53 - 1.

(** The written number, if any, is at most [MAX_SAFE_INTEGER]. *)
Definition written_safe (written : option string) : Prop :=
  match written with
  | Some d => decimal d <= MAX_SAFE_INTEGER
  | None => True
  end.

(** The number a written start stands for: [NaN] when it is absent. *)
Definition written_start (written : option string) : jsnum :=
  match written with
  | Some d => JInt (decimal d)
  | None => JNaN
  end.

(** The four numbers of the hunk are those of its header: each start is
    the written start, each length the written count ([1] when that is
    absent or zero), as far as the written number is at most
    [MAX_SAFE_INTEGER]. *)
Definition header_decoded (h : DiffHunk.t) (oldStart : string)
    (oldCount : option string) (nr : new_range) : Prop :=
  (written_safe (Some oldStart) ->
   DiffHunk.oldLineNumber h = written_start (Some oldStart)) /\
  (written_safe oldCount ->
   DiffHunk.oldLength h = JInt (recorded_length oldCount)) /\
  (written_safe (new_start nr) ->
   DiffHunk.newLineNumber h = written_start (new_start nr)) /\
  (written_safe (new_count nr) ->
   DiffHunk.newLength h = JInt (recorded_length (new_count nr))).

(** The hunk is a header line followed by body lines, and its four numbers
    are decoded from the text of the header line. *)
Definition hunk_shape (h : DiffHunk.t) : Prop :=
  exists header body oldStart oldCount nr tail,
    DiffHunk.diffLines h = header :: body /\
    DiffLine.type header = Control /\
    DiffLine.positionInHunk header = DiffHunk.positionInHunk h /\
    DiffLine.raw header = header_text oldStart oldCount nr tail /\
    header_parts_ok oldStart oldCount nr /\
    header_decoded h oldStart oldCount nr /\
    Forall body_core_ok (map line_core body).

(** ** Line numbers within a hunk *)

(** The number of lines of the file a stored line counts for: one, and one
    more for each carriage return in it. *)
Definition line_span (raw : string) : Z := 1 + count_char CR raw.

Definition next_old (l : DiffLine.t) (old : jsnum) : jsnum :=
  match DiffLine.type l with
  | Context | Delete => jadd old (line_span (DiffLine.raw l))
  | _ => old
  end.

Definition next_new (l : DiffLine.t) (new : jsnum) : jsnum :=
  match DiffLine.type l with
  | Context | Add => jadd new (line_span (DiffLine.raw l))
  | _ => new
  end.

(** The body lines are numbered from [old] and [new]: a line that is no
    [Add] has the old number reached so far, a line that is no [Delete] the
    new number reached so far, the other number being [-1]; each line moves
    the numbers of the sides it is on by its span. *)
Fixpoint numbered (old new : jsnum) (body : list DiffLine.t) : Prop :=
  match body with
  | [] => True
  | l :: rest =>
      DiffLine.oldLineNumber l =
        (match DiffLine.type l with Add => JInt (-1) | _ => old end) /\
      DiffLine.newLineNumber l =
        (match DiffLine.type l with Delete => JInt (-1) | _ => new end) /\
      numbered (next_old l old) (next_new l new) rest
  end.

(** By how much the lines of [body] move the old and the new number. *)
Fixpoint old_span (body : list DiffLine.t) : Z :=
  match body with
  | [] => 0
  | l :: rest =>
      match DiffLine.type l with
      | Context | Delete => line_span (DiffLine.raw l) + old_span rest
      | _ => old_span rest
      end
  end.

Fixpoint new_span (body : list DiffLine.t) : Z :=
  match body with
  | [] => 0
  | l :: rest =>
      match DiffLine.type l with
      | Context | Add => line_span (DiffLine.raw l) + new_span rest
      | _ => new_span rest
      end
  end.

(** Moving [start] by [span] stays at or below [MAX_SAFE_INTEGER] (there
    is nothing to exceed when [start] is [NaN]). *)
Definition stays_safe (start : jsnum) (span : Z) : Prop :=
  match start with
  | JInt z => z + span <= MAX_SAFE_INTEGER
  | JNaN => True
  end.

(** The same, with the numbers reached after the last line. *)
Fixpoint numbered_to (old new : jsnum) (body : list DiffLine.t)
    (old' new' : jsnum) : Prop :=
  match body with
  | [] => old' = old /\ new' = new
  | l :: rest =>
      DiffLine.oldLineNumber l =
        (match DiffLine.type l with Add => JInt (-1) | _ => old end) /\
      DiffLine.newLineNumber l =
        (match DiffLine.type l with Delete => JInt (-1) | _ => new end) /\
      numbered_to (next_old l old) (next_new l new) rest old' new'
  end.

(** The open hunk is a header line and a body numbered from the hunk's
    starts up to the cursors. *)
Definition cursors_ok (st : cursor) : Prop :=
  forall h,
    diffHunk st = Some h ->
    exists header body,
      DiffHunk.diffLines h = header :: body /\
      numbered_to (DiffHunk.oldLineNumber h) (DiffHunk.newLineNumber h) body
        (oldLine st) (newLine st).

(** ** Which scanned lines are stored, where, and with which flag *)

(** A scanned line that is no header and does not start with a space, a
    [+] or a [-]: the parser stores no line for it. *)
Definition is_marker (line : string) : bool :=
  negb (test DIFF_HUNK_HEADER line)
  && DiffChangeType_eqb (getDiffChangeType line) Control.

Definition marker_ahead (lines : list string) : bool :=
  match lines with
  | l :: _ => is_marker l
  | [] => false
  end.

(** The lines stored for [lines], the first of which has index [k]: every
    line but the markers, with its index, and with the flag that tells
    that no marker comes right after it. *)
Fixpoint stored_in (k : Z) (lines : list string) : list (Z * string * bool) :=
  match lines with
  | [] => []
  | l :: rest =>
      if is_marker l then stored_in (k + 1) rest
      else (k, l, negb (marker_ahead rest)) :: stored_in (k + 1) rest
  end.

(** The same for a whole patch: nothing is stored before the first header
    line, which has index [0]. *)
Fixpoint stored_from_first_header (lines : list string)
    : list (Z * string * bool) :=
  match lines with
  | [] => []
  | l :: rest =>
      if test DIFF_HUNK_HEADER l then stored_in 0 lines
      else stored_from_first_header rest
  end.

Definition stored_view (l : DiffLine.t) : Z * string * bool :=
  (DiffLine.positionInHunk l, DiffLine.raw l, DiffLine.endwithLineBreak l).

(** ** The hunks the segmenter returns *)

Definition on_old_side (l : DiffLine.t) : bool :=
  match DiffLine.type l with
  | Context | Delete => true
  | _ => false
  end.

Definition on_new_side (l : DiffLine.t) : bool :=
  match DiffLine.type l with
  | Context | Add => true
  | _ => false
  end.

(** A hunk of the segmenter, cut from the lines [input]: it starts with a
    [Context] line, whose numbers are its own; its position is [0]; its
    lines are lines of the input, none of kind [Control]; its lengths
    count its lines on the old side and on the new side. *)
Definition small_hunk_ok (input : list DiffLine.t) (h : DiffHunk.t) : Prop :=
  match DiffHunk.diffLines h with
  | [] => False
  | first :: _ =>
      DiffLine.type first = Context /\
      DiffHunk.oldLineNumber h = DiffLine.oldLineNumber first /\
      DiffHunk.newLineNumber h = DiffLine.newLineNumber first
  end /\
  DiffHunk.positionInHunk h = 0 /\
  Forall (fun l => DiffLine.type l <> Control /\ In l input)
         (DiffHunk.diffLines h) /\
  DiffHunk.oldLength h =
    JInt (Z.of_nat (List.length (filter on_old_side (DiffHunk.diffLines h)))) /\
  DiffHunk.newLength h =
    JInt (Z.of_nat (List.length (filter on_new_side (DiffHunk.diffLines h)))).

Definition segmenter_small (input : list DiffLine.t) (st : segmenter) : Prop :=
  Forall (fun h => small_hunk_ok input h /\ sandwiched h = true) (splitHunks st) /\
  (forall c, currentHunk st = Some c -> small_hunk_ok input c) /\
  (forall n, nextHunk st = Some n -> small_hunk_ok input n).

(** ** What a file change carries *)

Definition change_parentCommit (change : FileChange) : string :=
  match change with
  | SlimFileChange parentCommit _ _ _ _ => parentCommit
  | InMemFileChange parentCommit _ _ _ _ _ _ => parentCommit
  end.

Definition change_status (change : FileChange) : GitChangeType :=
  match change with
  | SlimFileChange _ _ status _ _ => status
  | InMemFileChange _ status _ _ _ _ _ => status
  end.

Definition change_fileName (change : FileChange) : string :=
  match change with
  | SlimFileChange _ _ _ fileName _ => fileName
  | InMemFileChange _ _ fileName _ _ _ _ => fileName
  end.

Definition change_previousFileName (change : FileChange) : option string :=
  match change with
  | SlimFileChange _ _ _ _ previousFileName => previousFileName
  | InMemFileChange _ _ _ previousFileName _ _ _ => previousFileName
  end.

Definition change_blobUrl (change : FileChange) : option string :=
  match change with
  | SlimFileChange _ blobUrl _ _ _ => blobUrl
  | InMemFileChange _ _ _ _ _ _ blobUrl => blobUrl
  end.

(** The change pushed for [review] carries the parent commit and the
    record's names, URL and mapped status; an in-memory change holds the
    record's patch text (the empty string for none), and its hunks, when
    present, are the ones [parsePatch] returns on that text. *)
Definition carries (parentCommit : string) (review : IRawFileChange)
    (change : FileChange) : Prop :=
  change_parentCommit change = parentCommit /\
  change_status change = getGitChangeType (status review) /\
  change_fileName change = filename review /\
  change_previousFileName change = previous_filename review /\
  change_blobUrl change = blob_url review /\
  match change with
  | SlimFileChange _ _ _ _ _ => True
  | InMemFileChange _ _ _ _ text diffHunks _ =>
      text = match patch review with Some t => t | None => EmptyString end /\
      match diffHunks with
      | Some hunks => parsePatch text = Return hunks
      | None => True
      end
  end.

(** ** Context lines repeated across the hunks of the segmenter *)

Fixpoint leading_context (lines : list DiffLine.t) : list DiffLine.t :=
  match lines with
  | [] => []
  | l :: rest => if is_context l then l :: leading_context rest else []
  end.

(** The [Context] lines that end a list of lines. *)
Definition trailing_context (lines : list DiffLine.t) : list DiffLine.t :=
  rev (leading_context (rev lines)).

(** [next] begins with the [Context] lines that end [hunk], and there are
    some. *)
Definition continues (hunk next : DiffHunk.t) : Prop :=
  trailing_context (DiffHunk.diffLines hunk) <> [] /\
  exists more,
    DiffHunk.diffLines next =
    (trailing_context (DiffHunk.diffLines hunk) ++ more)%list.

Fixpoint chained (hunks : list DiffHunk.t) : Prop :=
  match hunks with
  | hunk :: (next :: _) as rest => continues hunk next /\ chained rest
  | _ => True
  end.

Definition segmenter_chained (st : segmenter) : Prop :=
  chained (splitHunks st) /\
  (forall c l,
     currentHunk st = Some c ->
     last (map Some (splitHunks st)) None = Some l -> continues l c) /\
  (forall c,
     currentHunk st = Some c -> sandwiched c = true ->
     exists n,
       nextHunk st = Some n /\
       DiffHunk.diffLines n = trailing_context (DiffHunk.diffLines c)) /\
  (forall n,
     nextHunk st = Some n ->
     exists c, currentHunk st = Some c /\ sandwiched c = true) /\
  (currentHunk st = None -> splitHunks st = []).

(** * Properties *)

(** ** The loops of the model end within their fuel *)

Lemma indexOf_at_range (c : ascii) (text : string) :
  forall (skip : nat) (pos : Z),
    indexOf_at text c skip pos = -1 \/
    pos + Z.of_nat skip <= indexOf_at text c skip pos < pos + strlen text.
Proof.
  unfold strlen.
  induction text as [|a rest IH]; intros skip pos; simpl String.length; simpl indexOf_at.
  - now left.
  - destruct skip as [|skip'].
    + destruct (Ascii.eqb a c).
      * right. lia.
      * destruct (IH O (pos + 1)) as [E | E]; [now left | right; lia].
    + destruct (IH skip' (pos + 1)) as [E | E]; [now left | right; lia].
Qed.

Lemma indexOf_range (c : ascii) (text : string) (from : Z) :
  0 <= from ->
  indexOf text c from = -1 \/ from <= indexOf text c from < strlen text.
Proof.
  intros Hfrom. unfold indexOf.
  destruct (indexOf_at_range c text (Z.to_nat from) 0) as [E | E]; [now left | right; lia].
Qed.

Lemma countCarriageReturns_loop_total (text : string) :
  forall (fuel : nat) (index count : Z),
    0 <= index -> strlen text - index <= Z.of_nat fuel ->
    exists n, countCarriageReturns_loop fuel text index count = Return n /\ count <= n.
Proof.
  induction fuel as [|fuel IH]; intros index count Hindex Hfuel;
    destruct (indexOf_range CR text index Hindex) as [E | E]; simpl;
    try (rewrite E; simpl; exists count; split; [reflexivity | lia]).
  - destruct (Z.eqb_spec (indexOf text CR index) (-1)) as [E' | E']; simpl.
    + exists count. split; [reflexivity | lia].
    + lia.
  - destruct (Z.eqb_spec (indexOf text CR index) (-1)) as [E' | E']; simpl.
    + exists count. split; [reflexivity | lia].
    + destruct (IH (indexOf text CR index + 1) (count + 1)) as [n [Hn Hle]]; try lia.
      exists n. split; [exact Hn | lia].
Qed.

Lemma countCarriageReturns_total (text : string) :
  exists n, countCarriageReturns text = Return n /\ 0 <= n.
Proof.
  apply countCarriageReturns_loop_total; unfold strlen; lia.
Qed.

Lemma LineReader_loop_total (text : string) :
  forall (fuel : nat) (index : Z),
    index = -1 \/ (0 <= index /\ strlen text - index <= Z.of_nat fuel) ->
    exists lines, LineReader_loop fuel text index = Return lines.
Proof.
  induction fuel as [|fuel IH]; intros index Hindex.
  - simpl. destruct Hindex as [-> | [H0 Hfuel]]; simpl.
    + now exists [].
    + destruct (Z.eqb_spec index (-1)); simpl; [now exists [] |].
      destruct (Z.ltb_spec index (strlen text)); [lia | now exists []].
  - cbn [LineReader_loop]. destruct Hindex as [-> | [H0 Hfuel]]; simpl.
    + now exists [].
    + destruct (Z.eqb_spec index (-1)); simpl; [now exists [] |].
      destruct (Z.ltb_spec index (strlen text)); [| now exists []].
      destruct (indexOf_range LF text index H0) as [E | E].
      * rewrite E. simpl.
        destruct (IH (-1)) as [lines Hl]; [now left |].
        rewrite Hl. simpl. eauto.
      * destruct (Z.eqb_spec (indexOf text LF index) (-1)) as [E' | E']; [lia |].
        simpl.
        destruct (IH (indexOf text LF index + 1)) as [lines Hl]; [right; lia |].
        rewrite Hl. simpl. eauto.
Qed.

Lemma LineReader_total (text : string) :
  exists lines, LineReader text = Return lines.
Proof.
  apply LineReader_loop_total. right. unfold strlen. lia.
Qed.

(** ** One turn of the parser, as a step relation *)

Lemma parseDiffHunk_turn_step (line : string) (st : cursor) :
  exists yielded st',
    parseDiffHunk_turn line st = Return (yielded, st') /\
    turn_step line st yielded st'.
Proof.
  unfold parseDiffHunk_turn, parseDiffHunk_branch, test.
  destruct (exec DIFF_HUNK_HEADER line) as [matches|] eqn:Hexec.
  - simpl. eexists _, _. split; [reflexivity |].
    eapply step_header; [exact Hexec | reflexivity].
  - destruct (diffHunk st) as [hunk|] eqn:Hopen.
    + destruct (countCarriageReturns_total line) as [n [Hn Hpos]].
      pose proof (step_content line st hunk n Hexec Hopen) as Hstep.
      destruct (getDiffChangeType line) eqn:Htype; simpl;
        try (rewrite Hn; simpl; eexists _, _; split; [reflexivity |];
             apply Hstep; [discriminate | exact Hn | exact Hpos]).
      eexists _, _. split; [reflexivity |]. now apply step_marker.
    + simpl. eexists _, _. split; [reflexivity |].
      rewrite Hopen. now apply step_stray.
Qed.

Lemma parseDiffHunk_loop_cons (line : string) (rest : list string) (st : cursor)
    (hunks : list DiffHunk.t) :
  parseDiffHunk_loop (line :: rest) st = Return hunks ->
  exists yielded st' more,
    turn_step line st yielded st' /\
    parseDiffHunk_loop rest st' = Return more /\
    hunks = (yielded ++ more)%list.
Proof.
  simpl. destruct (parseDiffHunk_turn_step line st) as [ys [st' [Hturn Hstep]]].
  rewrite Hturn. simpl.
  destruct (parseDiffHunk_loop rest st') as [more| |] eqn:Hmore; simpl;
    try discriminate.
  intros [= <-]. now exists ys, st', more.
Qed.

Lemma parseDiffHunk_loop_total (lines : list string) :
  forall st, exists hunks, parseDiffHunk_loop lines st = Return hunks.
Proof.
  induction lines as [|line rest IH]; intros st; simpl.
  - eauto.
  - destruct (parseDiffHunk_turn_step line st) as [ys [st' [Hturn _]]].
    rewrite Hturn. simpl. destruct (IH st') as [more Hmore].
    rewrite Hmore. simpl. eauto.
Qed.

Lemma parsePatch_total (patch : string) :
  exists lines hunks,
    LineReader patch = Return lines /\
    parseDiffHunk_loop lines parseDiffHunk_init = Return hunks /\
    parsePatch patch = Return hunks.
Proof.
  destruct (LineReader_total patch) as [lines Hlines].
  destruct (parseDiffHunk_loop_total lines parseDiffHunk_init) as [hunks Hhunks].
  exists lines, hunks. unfold parsePatch, parseDiffHunk.
  rewrite Hlines. simpl. auto.
Qed.

(** ** Positions *)

Lemma ascending_from_weaken (l : list Z) :
  forall p q, p <= q -> ascending_from q l -> ascending_from p l.
Proof.
  destruct l as [|x rest]; simpl; intros p q Hpq H; [exact I |].
  destruct H as [Hx Hrest]. split; [lia | exact Hrest].
Qed.

Lemma all_lines_app (a b : list DiffHunk.t) :
  all_lines (a ++ b) = (all_lines a ++ all_lines b)%list.
Proof.
  unfold all_lines. now rewrite map_app, concat_app.
Qed.

Lemma positions_clear_last_line_break (ls : list DiffLine.t) :
  positions (clear_last_line_break ls) = positions ls.
Proof.
  unfold clear_last_line_break.
  destruct (rev ls) as [|l before] eqn:Hrev; [reflexivity |].
  assert (ls = (rev before ++ [l])%list) as ->.
  { rewrite <- (rev_involutive ls), Hrev. reflexivity. }
  unfold positions. rewrite !map_app. reflexivity.
Qed.

Lemma turn_step_counter_ok (line : string) (st : cursor)
    (yielded : list DiffHunk.t) (st' : cursor) :
  turn_step line st yielded st' -> counter_ok st -> counter_ok st'.
Proof.
  unfold counter_ok.
  intros Hstep Hok; destruct Hstep; simpl; subst; unfold bump;
    try match goal with H : diffHunk st = _ |- _ => rewrite H in Hok end;
    repeat match goal with
           | |- context [?a =? ?b] => destruct (Z.eqb_spec a b); simpl
           end; try lia.
  destruct (diffHunk st); lia.
Qed.

(** The positions the loop produces: those of the open hunk, then new ones
    that ascend from the counter. *)
Lemma parseDiffHunk_loop_positions (lines : list string) :
  forall st hunks,
    parseDiffHunk_loop lines st = Return hunks ->
    counter_ok st ->
    exists new,
      positions (all_lines hunks) = (positions (open_lines st) ++ new)%list /\
      ascending_from (Z.max 0 (positionInHunk st)) new /\
      (diffHunk st = None -> new = [] \/ exists rest, new = 0 :: rest).
Proof.
  induction lines as [|line rest IH]; intros st hunks Hloop Hok.
  - simpl in Hloop. injection Hloop as <-. exists [].
    unfold open_lines. rewrite app_nil_r. simpl. auto.
  - apply parseDiffHunk_loop_cons in Hloop.
    destruct Hloop as [ys [st' [more [Hstep [Hmore ->]]]]].
    pose proof (turn_step_counter_ok _ _ _ _ Hstep Hok) as Hok'.
    destruct (IH st' more Hmore Hok') as [new [Hpos [Hasc Hzero]]].
    rewrite all_lines_app. unfold positions in *. rewrite map_app, Hpos.
    clear IH Hmore Hpos.
    unfold counter_ok in Hok.
    destruct Hstep as [matches p Hexec Hp | hunk Hexec Hopen Htype
                      | hunk returns Hexec Hopen Htype Hcount Hret
                      | Hexec Hopen];
      unfold open_lines, all_lines in *; simpl in *.
    + exists (p :: new). split; [reflexivity |].
      assert (0 <= p /\ p = Z.max 0 (positionInHunk st)) as [Hp0 Hpmax].
      { subst p. destruct (diffHunk st);
          destruct (Z.eqb_spec (positionInHunk st) (-1)); lia. }
      split.
      * simpl. split; [lia |].
        apply ascending_from_weaken with (q := Z.max 0 (bump p)); [unfold bump | exact Hasc].
        destruct (Z.eqb_spec p (-1)); simpl; lia.
      * intros Hnone. right. exists new. f_equal.
        rewrite Hnone in Hok. rewrite Hok in Hp. exact Hp.
    + rewrite Hopen in *. simpl in *. exists new.
      rewrite !app_nil_r.
      fold (positions (clear_last_line_break (DiffHunk.diffLines hunk))).
      rewrite positions_clear_last_line_break. split; [reflexivity |].
      split; [| discriminate].
      apply ascending_from_weaken with (q := Z.max 0 (bump (positionInHunk st)));
        [unfold bump | exact Hasc].
      destruct (Z.eqb_spec (positionInHunk st) (-1)); simpl; lia.
    + rewrite Hopen in *. simpl in *. exists (positionInHunk st :: new).
      rewrite !app_nil_r. rewrite map_app, <- app_assoc. simpl.
      split; [reflexivity |]. split; [| discriminate].
      split; [lia |].
      apply ascending_from_weaken with (q := Z.max 0 (bump (positionInHunk st)));
        [unfold bump | exact Hasc].
      destruct (Z.eqb_spec (positionInHunk st) (-1)); simpl; lia.
    + rewrite Hopen in *. simpl in *. exists new. split; [reflexivity |].
      rewrite Hok in *. simpl in Hasc. split; [exact Hasc | auto].
Qed.

(** ** Line numbers *)

Lemma is_digit_value (c : ascii) : is_digit c = true -> 0 <= digit_value c <= 9.
Proof.
  unfold is_digit, digit_value. intros H.
  apply andb_true_iff in H. destruct H as [H1 H2].
  apply Nat.leb_le in H1. apply Nat.leb_le in H2. lia.
Qed.

Lemma decimal_from_nonneg (s : string) :
  forall acc, all_digits s = true -> 0 <= acc -> 0 <= decimal_from acc s.
Proof.
  induction s as [|c s IH]; cbn [decimal_from all_digits]; intros acc Hd Hacc;
    [exact Hacc |].
  apply andb_true_iff in Hd. destruct Hd as [Hc Hs].
  apply IH; [exact Hs |]. pose proof (is_digit_value c Hc). lia.
Qed.

Lemma Number_nonneg (x : option string) : nonneg (Number x).
Proof.
  destruct x as [s|]; simpl; [| exact I].
  destruct (all_digits s) eqn:Hd; simpl; [| exact I].
  destruct (negb (s =? "")%string); simpl; [| exact I].
  apply decimal_from_nonneg; [exact Hd | lia].
Qed.

Lemma nonneg_jadd (n : jsnum) (k : Z) : nonneg n -> 0 <= k -> nonneg (jadd n k).
Proof.
  destruct n; simpl; lia.
Qed.

Lemma nonneg_not_minus_one (n : jsnum) : nonneg n -> jeqb n (JInt (-1)) = false.
Proof.
  destruct n as [|z]; simpl; [reflexivity |].
  intros H. destruct (Z.eqb_spec z (-1)); [lia | reflexivity].
Qed.

Lemma line_numbers_ok_clear_last_line_break (ls : list DiffLine.t) :
  Forall line_numbers_ok ls -> Forall line_numbers_ok (clear_last_line_break ls).
Proof.
  unfold clear_last_line_break. intros H.
  destruct (rev ls) as [|l before] eqn:Hrev; [exact H |].
  assert (ls = (rev before ++ [l])%list) as E.
  { rewrite <- (rev_involutive ls), Hrev. reflexivity. }
  rewrite E in H. apply Forall_app in H. destruct H as [Hb Hl].
  apply Forall_app. split; [exact Hb |].
  inversion Hl as [|? ? Hl0 _]; subst. constructor; [| constructor].
  exact Hl0.
Qed.

Lemma content_line_numbers_ok (line : string) (st : cursor) :
  getDiffChangeType line <> Control ->
  nonneg (oldLine st) -> nonneg (newLine st) ->
  line_numbers_ok (content_line (getDiffChangeType line) st line).
Proof.
  intros Htype Hold Hnew.
  apply nonneg_not_minus_one in Hold. apply nonneg_not_minus_one in Hnew.
  unfold line_numbers_ok, line_number_invariant, content_line.
  destruct (getDiffChangeType line); simpl; try congruence;
    rewrite ?Hold, ?Hnew; repeat split; intros; try discriminate; reflexivity.
Qed.

Lemma turn_step_numbers_ok (line : string) (st : cursor)
    (yielded : list DiffHunk.t) (st' : cursor) :
  turn_step line st yielded st' -> numbers_ok st ->
  Forall line_numbers_ok (all_lines yielded) /\ numbers_ok st'.
Proof.
  unfold numbers_ok.
  intros Hstep Hok.
  destruct Hstep as [matches p Hexec Hp | hunk Hexec Hopen Htype
                    | hunk returns Hexec Hopen Htype Hcount Hret
                    | Hexec Hopen]; cbn [diffHunk oldLine newLine].
  - split.
    + destruct (diffHunk st) as [hunk|]; unfold all_lines; simpl.
      * rewrite app_nil_r. apply Hok.
      * constructor.
    + repeat split; try apply Number_nonneg.
      constructor; [| constructor]. unfold line_numbers_ok. simpl. auto.
  - rewrite Hopen in Hok. destruct Hok as [Hlines [Hold Hnew]].
    split; [constructor |].
    repeat split; try assumption.
    now apply line_numbers_ok_clear_last_line_break.
  - rewrite Hopen in Hok. destruct Hok as [Hlines [Hold Hnew]].
    split; [constructor |].
    repeat split.
    + apply Forall_app. split; [exact Hlines |].
      constructor; [| constructor].
      now apply content_line_numbers_ok.
    + unfold advance_old. destruct (getDiffChangeType line);
        try assumption; apply nonneg_jadd; try assumption; lia.
    + unfold advance_new. destruct (getDiffChangeType line);
        try assumption; apply nonneg_jadd; try assumption; lia.
  - split; [constructor | exact I].
Qed.

Lemma parseDiffHunk_loop_numbers_ok (lines : list string) :
  forall st hunks,
    parseDiffHunk_loop lines st = Return hunks ->
    numbers_ok st ->
    Forall line_numbers_ok (all_lines hunks).
Proof.
  induction lines as [|line rest IH]; intros st hunks Hloop Hok.
  - simpl in Hloop. injection Hloop as <-.
    unfold numbers_ok in Hok. destruct (diffHunk st) as [hunk|]; unfold all_lines; simpl.
    + rewrite app_nil_r. apply Hok.
    + constructor.
  - apply parseDiffHunk_loop_cons in Hloop.
    destruct Hloop as [ys [st' [more [Hstep [Hmore ->]]]]].
    destruct (turn_step_numbers_ok _ _ _ _ Hstep Hok) as [Hys Hok'].
    rewrite all_lines_app. apply Forall_app. split; [exact Hys |].
    exact (IH st' more Hmore Hok').
Qed.

(** ** How many hunks, and what is ignored *)

Lemma test_exec (line : string) :
  test DIFF_HUNK_HEADER line = true <->
  exists matches, exec DIFF_HUNK_HEADER line = Some matches.
Proof.
  unfold test. destruct (exec DIFF_HUNK_HEADER line) as [m|].
  - split; eauto.
  - split; [discriminate | intros [m Hm]; discriminate].
Qed.

Lemma parseDiffHunk_loop_count (lines : list string) :
  forall st hunks,
    parseDiffHunk_loop lines st = Return hunks ->
    List.length hunks =
    (List.length (yield_open (diffHunk st))
     + List.length (filter (test DIFF_HUNK_HEADER) lines))%nat.
Proof.
  induction lines as [|line rest IH]; intros st hunks Hloop.
  - simpl in Hloop. injection Hloop as <-. simpl. lia.
  - apply parseDiffHunk_loop_cons in Hloop.
    destruct Hloop as [ys [st' [more [Hstep [Hmore ->]]]]].
    rewrite length_app, (IH st' more Hmore). simpl filter. unfold test.
    destruct Hstep as [matches p Hexec Hp | hunk Hexec Hopen Htype
                      | hunk returns Hexec Hopen Htype Hcount Hret
                      | Hexec Hopen]; rewrite Hexec; simpl; rewrite ?Hopen; simpl; lia.
Qed.

Lemma parseDiffHunk_turn_stray (line : string) :
  test DIFF_HUNK_HEADER line = false ->
  parseDiffHunk_turn line parseDiffHunk_init = Return ([], parseDiffHunk_init).
Proof.
  intros Htest. unfold parseDiffHunk_turn, parseDiffHunk_branch.
  rewrite Htest. reflexivity.
Qed.

Lemma parseDiffHunk_loop_stray (before rest : list string) :
  Forall (fun line => test DIFF_HUNK_HEADER line = false) before ->
  parseDiffHunk_loop (before ++ rest) parseDiffHunk_init =
  parseDiffHunk_loop rest parseDiffHunk_init.
Proof.
  induction 1 as [|line before Hline _ IH]; [reflexivity |].
  simpl. rewrite (parseDiffHunk_turn_stray line Hline). simpl.
  rewrite IH. destruct (parseDiffHunk_loop rest parseDiffHunk_init); reflexivity.
Qed.

(** ** What the header expression accepts *)

Local Close Scope Z_scope.

Lemma append_nil_r (s : string) : s ++ "" = s.
Proof.
  induction s as [|c s IH]; simpl; [reflexivity | now rewrite IH].
Qed.

Lemma append_assoc (a b c : string) : (a ++ b) ++ c = a ++ b ++ c.
Proof.
  induction a as [|x a IH]; simpl; [reflexivity | now rewrite IH].
Qed.

Lemma length_append (a b : string) :
  String.length (a ++ b) = String.length a + String.length b.
Proof.
  induction a as [|x a IH]; simpl; [reflexivity | now rewrite IH].
Qed.

Lemma substring_prefix (a b : string) :
  String.substring 0 (String.length a) (a ++ b) = a.
Proof.
  induction a as [|x a IH]; simpl.
  - destruct b; reflexivity.
  - now rewrite IH.
Qed.

Lemma consumed_app (a b : string) : consumed (a ++ b) b = a.
Proof.
  unfold consumed. rewrite length_append.
  replace (String.length a + String.length b - String.length b)
    with (String.length a) by lia.
  apply substring_prefix.
Qed.

Lemma strip_prefix_app (p s : string) : strip_prefix p (p ++ s) = Some s.
Proof.
  induction p as [|a p IH]; simpl.
  - destruct s; reflexivity.
  - now rewrite Ascii.eqb_refl.
Qed.

Lemma strip_prefix_inv (p : string) :
  forall s s', strip_prefix p s = Some s' -> s = p ++ s'.
Proof.
  induction p as [|a p IH]; intros s s' H.
  - destruct s; simpl in H; injection H as <-; reflexivity.
  - destruct s as [|b s]; simpl in H; [discriminate |].
    destruct (Ascii.eqb_spec a b) as [<- |]; [| discriminate].
    simpl. f_equal. now apply IH.
Qed.

Section MatcherFacts.
Context {R : Type}.
Implicit Types (k : string -> option R).

Lemma digits_star_app (d : string) :
  forall rest k r,
    all_digits d = true -> no_digit_ahead rest -> k rest = Some r ->
    digits_star (d ++ rest) k = Some r.
Proof.
  induction d as [|c d IH]; intros rest k r Hd Hrest Hk; simpl.
  - destruct rest as [|c rest]; simpl in *; [exact Hk |].
    now rewrite Hrest.
  - simpl in Hd. apply andb_true_iff in Hd. destruct Hd as [Hc Hd].
    rewrite Hc. now rewrite (IH rest k r Hd Hrest Hk).
Qed.

Lemma digits_plus_app (d rest : string) k (r : R) :
  digit_string d -> no_digit_ahead rest -> k rest = Some r ->
  digits_plus (d ++ rest) k = Some r.
Proof.
  intros [Hd Hne] Hrest Hk. destruct d as [|c d]; [congruence |].
  simpl in *. apply andb_true_iff in Hd. destruct Hd as [Hc Hd].
  rewrite Hc. now apply digits_star_app.
Qed.

Lemma digits_star_inv (s : string) :
  forall k (r : R),
    digits_star s k = Some r ->
    exists d rest, s = d ++ rest /\ all_digits d = true /\ k rest = Some r.
Proof.
  induction s as [|c s IH]; intros k r H; simpl in H.
  - exists "", "". auto.
  - destruct (is_digit c) eqn:Hc.
    + destruct (digits_star s k) as [r'|] eqn:Hstar.
      * injection H as <-. destruct (IH k r' Hstar) as [d [rest [-> [Hd Hk]]]].
        exists (String c d), rest. simpl. rewrite Hc, Hd. auto.
      * exists "", (String c s). auto.
    + exists "", (String c s). auto.
Qed.

Lemma digits_plus_inv (s : string) k (r : R) :
  digits_plus s k = Some r ->
  exists d rest, s = d ++ rest /\ digit_string d /\ k rest = Some r.
Proof.
  destruct s as [|c s]; simpl; [discriminate |].
  destruct (is_digit c) eqn:Hc; [| discriminate].
  intros H. destruct (digits_star_inv s k r H) as [d [rest [-> [Hd Hk]]]].
  exists (String c d), rest. unfold digit_string. simpl. rewrite Hc, Hd.
  repeat split; [discriminate | exact Hk].
Qed.
End MatcherFacts.

Section RmatchFacts.
Implicit Types (k : string -> captures -> option captures).

Lemma rmatch_lit_app (l s : string) (caps : captures) k :
  rmatch (Lit l) (l ++ s) caps k = k s caps.
Proof.
  simpl. now rewrite strip_prefix_app.
Qed.

Lemma rmatch_lit_inv (l s : string) (caps c : captures) k :
  rmatch (Lit l) s caps k = Some c ->
  exists s', s = l ++ s' /\ k s' caps = Some c.
Proof.
  simpl. destruct (strip_prefix l s) as [s'|] eqn:Hs; [| discriminate].
  intros H. exists s'. split; [now apply strip_prefix_inv | exact H].
Qed.

Lemma rmatch_digits_app (n : nat) (d rest : string) (caps c : captures) k :
  digit_string d -> no_digit_ahead rest ->
  k rest ((n, d) :: caps) = Some c ->
  rmatch (Group n Digits) (d ++ rest) caps k = Some c.
Proof.
  intros Hd Hrest Hk. simpl. apply digits_plus_app; try assumption.
  now rewrite consumed_app.
Qed.

Lemma rmatch_digits_inv (n : nat) (s : string) (caps c : captures) k :
  rmatch (Group n Digits) s caps k = Some c ->
  exists d rest,
    s = d ++ rest /\ digit_string d /\ k rest ((n, d) :: caps) = Some c.
Proof.
  simpl. intros H. apply digits_plus_inv in H.
  destruct H as [d [rest [-> [Hd Hk]]]]. rewrite consumed_app in Hk.
  now exists d, rest.
Qed.

Lemma rmatch_opt_taken (r : regex) (s : string) (caps c : captures) k :
  rmatch r s caps k = Some c -> rmatch (Opt r) s caps k = Some c.
Proof.
  simpl. now intros ->.
Qed.

Lemma rmatch_opt_skipped (r : regex) (s : string) (caps : captures) k :
  rmatch r s caps k = None -> rmatch (Opt r) s caps k = k s caps.
Proof.
  simpl. now intros ->.
Qed.

Lemma rmatch_opt_inv (r : regex) (s : string) (caps c : captures) k :
  rmatch (Opt r) s caps k = Some c ->
  rmatch r s caps k = Some c \/ k s caps = Some c.
Proof.
  simpl. destruct (rmatch r s caps k); [intros [= <-]; now left | now right].
Qed.
End RmatchFacts.

Lemma rmatch_seq (r1 r2 : regex) (s : string) (caps : captures)
    (k : string -> captures -> option captures) :
  rmatch (Seq r1 r2) s caps k =
  rmatch r1 s caps (fun s' caps' => rmatch r2 s' caps' k).
Proof. reflexivity. Qed.

Lemma rmatch_group (n : nat) (r : regex) (s : string) (caps : captures)
    (k : string -> captures -> option captures) :
  rmatch (Group n r) s caps k =
  rmatch r s caps (fun s' caps' => k s' ((n, consumed s s') :: caps')).
Proof. reflexivity. Qed.

(** Runs the matcher one node forward on a rendered header. *)
Ltac match_step :=
  first
    [ rewrite rmatch_seq
    | rewrite rmatch_lit_app
    | apply rmatch_digits_app; [assumption | reflexivity | cbv beta]
    | rewrite rmatch_group
    | rewrite rmatch_opt_skipped by reflexivity
    | apply rmatch_opt_taken ].

Lemma exec_header_text (oldStart : string) (oldCount : option string)
    (nr : new_range) (tail : string) :
  header_parts_ok oldStart oldCount nr ->
  exists matches,
    exec DIFF_HUNK_HEADER (header_text oldStart oldCount nr tail) = Some matches /\
    capture 1 matches = Some oldStart /\
    capture 3 matches = oldCount /\
    capture 5 matches = new_start nr /\
    capture 7 matches = new_count nr.
Proof.
  intros [Hos [Hoc [Hns Hnc]]].
  unfold exec, DIFF_HUNK_HEADER, header_text.
  destruct oldCount as [oc|]; destruct nr as [|ns|ns|ns nc];
    cbn [digit_option new_start new_count render_count render_new] in *;
    (eexists; split; [repeat match_step; reflexivity |]);
    repeat split; reflexivity.
Qed.

Ltac inv_lit H :=
  rewrite ?rmatch_seq in H; apply rmatch_lit_inv in H;
  destruct H as [? [-> H]]; cbv beta in H.

Ltac inv_digits H d Hd :=
  rewrite ?rmatch_seq in H; apply rmatch_digits_inv in H;
  destruct H as [d [? [-> [Hd H]]]]; cbv beta in H.

Ltac inv_opt H :=
  rewrite ?rmatch_seq in H; apply rmatch_opt_inv in H;
  destruct H as [H | H].

(** The end of the expression, from the optional new range on. *)
Lemma new_range_inv (s : string) (caps matches : captures) :
  rmatch
    (Seq (Opt (Group 4 (Seq (Lit " +")
                       (Seq (Group 5 Digits)
                            (Opt (Group 6 (Seq (Lit ",") (Opt (Group 7 Digits)))))))))
         (Lit " @@"))
    s caps (fun _ caps' => Some caps') = Some matches ->
  exists nr tail,
    digit_option (new_start nr) /\ digit_option (new_count nr) /\
    s = render_new nr (" @@" ++ tail).
Proof.
  intros H. inv_opt H.
  - rewrite rmatch_group in H. inv_lit H. inv_digits H ns Hns. inv_opt H.
    + rewrite rmatch_group in H. inv_lit H. inv_opt H.
      * inv_digits H nc Hnc. inv_lit H.
        eexists (NewStartCount ns nc), _. simpl. eauto.
      * inv_lit H. eexists (NewStartComma ns), _. simpl. eauto.
    + inv_lit H. eexists (NewStart ns), _. simpl. eauto.
  - inv_lit H. eexists NoNewRange, _. simpl. eauto.
Qed.

Lemma exec_header_shape (line : string) (matches : captures) :
  exec DIFF_HUNK_HEADER line = Some matches -> header_shape line.
Proof.
  unfold exec, DIFF_HUNK_HEADER, header_shape, header_parts_ok. intros H.
  inv_lit H. inv_digits H os Hos. inv_opt H.
  - rewrite rmatch_group in H. inv_lit H. inv_digits H oc Hoc.
    apply new_range_inv in H. destruct H as [nr [tail [Hns [Hnc ->]]]].
    exists os, (Some oc), nr, tail. simpl. auto.
  - apply new_range_inv in H. destruct H as [nr [tail [Hns [Hnc ->]]]].
    exists os, None, nr, tail. simpl. auto.
Qed.

(** [DIFF_HUNK_HEADER.test(line)] holds exactly for the lines of that shape. *)
Lemma test_header_shape (line : string) :
  test DIFF_HUNK_HEADER line = true <-> header_shape line.
Proof.
  rewrite test_exec. split.
  - intros [matches H]. exact (exec_header_shape line matches H).
  - intros [os [oc [nr [tail [Hok ->]]]]].
    destruct (exec_header_text os oc nr tail Hok) as [matches [H _]]. eauto.
Qed.

Local Open Scope Z_scope.

(** Every line of the specification's pattern is a header for the code. *)
Lemma spec_header_is_header (line : string) :
  test SPEC_HUNK_HEADER line = true -> test DIFF_HUNK_HEADER line = true.
Proof.
  intros Hspec. apply test_header_shape.
  unfold test in Hspec.
  destruct (exec SPEC_HUNK_HEADER line) as [matches|] eqn:H; [| discriminate].
  clear Hspec. unfold exec, SPEC_HUNK_HEADER in H.
  assert (forall s caps,
    rmatch
      (Seq (Group 4 (Seq (Lit " +")
                    (Seq (Group 5 Digits)
                         (Opt (Group 6 (Seq (Lit ",") (Group 7 Digits)))))))
           (Lit " @@"))
      s caps (fun _ caps' => Some caps') = Some matches ->
    exists nr tail,
      digit_option (new_start nr) /\ digit_option (new_count nr) /\
      s = render_new nr (" @@" ++ tail)%string) as Hnew.
  { clear. intros s caps H. rewrite rmatch_seq, rmatch_group in H.
    inv_lit H. inv_digits H ns Hns. inv_opt H.
    - rewrite rmatch_group in H. inv_lit H. inv_digits H nc Hnc. inv_lit H.
      eexists (NewStartCount ns nc), _. simpl. eauto.
    - inv_lit H. eexists (NewStart ns), _. simpl. eauto. }
  unfold header_shape, header_parts_ok.
  inv_lit H. inv_digits H os Hos. inv_opt H.
  - rewrite rmatch_group in H. inv_lit H. inv_digits H oc Hoc.
    apply Hnew in H. destruct H as [nr [tail [Hns [Hnc ->]]]].
    exists os, (Some oc), nr, tail. simpl. auto.
  - apply Hnew in H. destruct H as [nr [tail [Hns [Hnc ->]]]].
    exists os, None, nr, tail. simpl. auto.
Qed.

(** ** What a header line decodes to *)

Lemma Number_digit_string (d : string) :
  digit_string d -> Number (Some d) = JInt (decimal d).
Proof.
  intros [Hd Hne]. unfold Number. rewrite Hd.
  destruct (String.eqb_spec d ""); [contradiction | reflexivity].
Qed.

Lemma opened_hunk_header (oldStart : string) (oldCount : option string)
    (nr : new_range) (tail : string) (st : cursor) :
  header_parts_ok oldStart oldCount nr ->
  let line := header_text oldStart oldCount nr tail in
  let p := if positionInHunk st =? -1 then 0 else positionInHunk st in
  opened_hunk line st =
  Some (DiffHunk.mk (JInt (decimal oldStart))
                    (jor (Number oldCount) (JInt 1))
                    (Number (new_start nr))
                    (jor (Number (new_count nr)) (JInt 1))
                    p [header_line p line]).
Proof.
  intros Hok line p.
  destruct (exec_header_text oldStart oldCount nr tail Hok)
    as [matches [Hexec [H1 [H3 [H5 H7]]]]].
  unfold opened_hunk, parseDiffHunk_branch, test. fold line in Hexec.
  rewrite Hexec. cbn [diffHunk]. rewrite H1, H3, H5, H7.
  rewrite Number_digit_string by apply Hok. reflexivity.
Qed.

(** ** Splitting and joining lines *)

Lemma normalize_line_ends_id (s : string) :
  has_crlf s = false -> normalize_line_ends s = s.
Proof.
  induction s as [|c rest IH]; [reflexivity |].
  cbn [has_crlf normalize_line_ends]. intros H.
  apply orb_false_iff in H. destruct H as [Hhere Hrest].
  destruct rest as [|c' rest']; [reflexivity |].
  rewrite Hhere. now rewrite (IH Hrest).
Qed.

Lemma split_lines_from_cons (s : string) :
  forall acc, exists first others, split_lines_from acc s = first :: others.
Proof.
  induction s as [|c rest IH]; intros acc; simpl; [eauto |].
  destruct (Ascii.eqb c LF); [eauto |].
  destruct rest as [|c' rest']; [simpl; eauto |].
  destruct (Ascii.eqb c CR && Ascii.eqb c' LF); [eauto | apply IH].
Qed.

Lemma string_of_list_ascii_snoc (l : list ascii) (c : ascii) (rest : string) :
  (string_of_list_ascii (l ++ [c]) ++ rest)%string =
  (string_of_list_ascii l ++ String c rest)%string.
Proof.
  induction l as [|a l IH]; simpl; [reflexivity | now rewrite IH].
Qed.

Lemma concat_cons_cons (sep first second : string) (others : list string) :
  String.concat sep (first :: second :: others) =
  (first ++ sep ++ String.concat sep (second :: others))%string.
Proof. reflexivity. Qed.

Lemma join_split_lines_from (n : nat) :
  forall s acc,
    (String.length s <= n)%nat ->
    String.concat nl (split_lines_from acc s) =
    (string_of_list_ascii (rev acc) ++ normalize_line_ends s)%string.
Proof.
  induction n as [|n IH]; intros s acc Hlen.
  - destruct s; [| simpl in Hlen; lia]. simpl. now rewrite append_nil_r.
  - destruct s as [|c rest]; [simpl; now rewrite append_nil_r |].
    simpl in Hlen. cbn [split_lines_from normalize_line_ends].
    destruct (Ascii.eqb_spec c LF) as [-> | Hc].
    + destruct (split_lines_from_cons rest []) as [first [others E]].
      pose proof (IH rest [] ltac:(lia)) as Hrest.
      rewrite E in *. rewrite concat_cons_cons, Hrest. simpl.
      destruct rest as [|c' rest']; reflexivity.
    + destruct rest as [|c' rest'].
      * rewrite (IH EmptyString (c :: acc) ltac:(simpl; lia)).
        simpl rev. now rewrite string_of_list_ascii_snoc.
      * destruct (Ascii.eqb c CR && Ascii.eqb c' LF) eqn:Hcrlf.
        -- destruct (split_lines_from_cons rest' []) as [first [others E]].
           pose proof (IH rest' [] ltac:(simpl in Hlen; lia)) as Hrest.
           rewrite E in *. rewrite concat_cons_cons, Hrest. reflexivity.
        -- rewrite (IH (String c' rest') (c :: acc) ltac:(lia)).
           simpl rev. now rewrite string_of_list_ascii_snoc.
Qed.

Lemma join_split_lines (content : string) :
  String.concat nl (split_lines content) = normalize_line_ends content.
Proof.
  unfold split_lines. now rewrite (join_split_lines_from (String.length content)).
Qed.

Lemma elements_from (A : Type) (array : list A) :
  forall before : list A,
    map (fun i => element (before ++ array) (Z.of_nat i))
        (seq (List.length before) (List.length array)) = map Some array.
Proof.
  induction array as [|x array IH]; intros before; [reflexivity |].
  simpl. f_equal.
  - unfold element. destruct (Z.ltb_spec (Z.of_nat (List.length before)) 0); [lia |].
    rewrite Nat2Z.id, nth_error_app2 by lia. now rewrite Nat.sub_diag.
  - specialize (IH (before ++ [x])%list).
    rewrite <- app_assoc, length_app in IH. simpl in IH.
    now rewrite Nat.add_1_r in IH.
Qed.

Lemma copy_left_all (left : list string) :
  copy_left left (JInt 1) (JInt (Z.of_nat (List.length left) + 1)) = map Some left.
Proof.
  unfold copy_left.
  replace (Z.to_nat (Z.of_nat (List.length left) + 1 - 1)) with (List.length left) by lia.
  rewrite <- (elements_from _ left []). cbn [app List.length].
  apply map_ext. intros i. f_equal. lia.
Qed.

Lemma join_lines_Some (lines : list string) :
  join_lines (map Some lines) = String.concat nl lines.
Proof.
  unfold join_lines. rewrite map_map. now rewrite map_id.
Qed.

(** Reconstruction when the patch yields no hunk. *)
Lemma getModifiedContent_no_hunk (originalContent patch : string) :
  parseDiffHunk patch = Return [] ->
  getModifiedContentFromDiffHunk originalContent patch =
  Return (normalize_line_ends originalContent).
Proof.
  intros Hparse. unfold getModifiedContentFromDiffHunk. rewrite Hparse.
  cbn [bind getModifiedContent_loop lastDiffLineEndsWithNewline lastCommonLine right].
  destruct (split_lines_from_cons originalContent []) as [first [others E]].
  fold (split_lines originalContent) in E.
  assert (jltb (JInt 0) (JInt (Z.of_nat (List.length (split_lines originalContent)))) = true) as ->.
  { rewrite E. simpl. reflexivity. }
  cbn [jadd app]. rewrite copy_left_all, join_lines_Some, join_split_lines.
  reflexivity.
Qed.

(** ** The segmenter *)

Lemma rev_case (A : Type) (ls : list A) :
  ls = [] \/ exists before l, ls = (before ++ [l])%list.
Proof.
  destruct ls as [|x ls] using rev_ind; [now left | right; eauto].
Qed.

Lemma last_map_Some_snoc (A : Type) (ls : list A) (x : A) :
  last (map Some (ls ++ [x])) None = Some x.
Proof.
  rewrite map_app. simpl. apply last_last.
Qed.

Lemma hunkHasSandwichedChanges_sandwiched (hunk : DiffHunk.t) :
  hunkHasSandwichedChanges hunk = Return (sandwiched hunk).
Proof.
  unfold hunkHasSandwichedChanges, sandwiched, hunkHasChanges.
  destruct (rev_case _ (DiffHunk.diffLines hunk)) as [-> | [ls [l ->]]].
  - reflexivity.
  - rewrite last_map_Some_snoc.
    destruct (existsb _ (ls ++ [l])); reflexivity.
Qed.

Lemma diffLines_addLineToHunk (hunk : DiffHunk.t) (line : DiffLine.t) :
  DiffHunk.diffLines (addLineToHunk hunk line) =
  (DiffHunk.diffLines hunk ++ [line])%list.
Proof.
  unfold addLineToHunk. destruct (DiffLine.type line); reflexivity.
Qed.

Lemma sandwiched_add_change (hunk : DiffHunk.t) (line : DiffLine.t) :
  is_context line = false -> sandwiched (addLineToHunk hunk line) = false.
Proof.
  intros H. unfold sandwiched.
  rewrite diffLines_addLineToHunk, last_map_Some_snoc, H.
  apply andb_false_r.
Qed.

Lemma sandwiched_all_context (hunk : DiffHunk.t) :
  Forall (fun l => is_context l = true) (DiffHunk.diffLines hunk) ->
  sandwiched hunk = false.
Proof.
  intros H. unfold sandwiched, hunkHasChanges.
  replace (existsb _ (DiffHunk.diffLines hunk)) with false; [reflexivity |].
  symmetry. induction H as [|l ls Hl _ IH]; [reflexivity |].
  simpl. fold (is_context l). now rewrite Hl, IH.
Qed.

Lemma occ_app (l : DiffLine.t) (a b : list DiffLine.t) :
  occ l (a ++ b) = (occ l a + occ l b)%nat.
Proof.
  apply count_occ_app.
Qed.

Lemma occ_all_lines_snoc (l : DiffLine.t) (hunks : list DiffHunk.t)
    (hunk : DiffHunk.t) :
  occ l (all_lines (hunks ++ [hunk])) =
  (occ l (all_lines hunks) + occ l (DiffHunk.diffLines hunk))%nat.
Proof.
  rewrite all_lines_app, occ_app. unfold all_lines. simpl.
  now rewrite app_nil_r.
Qed.

Lemma occ_other_kind (l line : DiffLine.t) :
  DiffLine.type l <> DiffLine.type line -> occ l [line] = 0%nat.
Proof.
  intros H. unfold occ. simpl.
  destruct (DiffLine_eq_dec line l) as [-> |]; [contradiction | reflexivity].
Qed.

Lemma occ_all_context (l : DiffLine.t) (lines : list DiffLine.t) :
  Forall (fun x => is_context x = true) lines ->
  is_context l = false -> occ l lines = 0%nat.
Proof.
  intros Hall Hl. unfold occ. apply count_occ_not_In.
  intros Hin. rewrite Forall_forall in Hall. specialize (Hall l Hin). congruence.
Qed.

Lemma diffLines_or_newHunk (h : option DiffHunk.t) (line : DiffLine.t) :
  DiffHunk.diffLines (or_newHunk h line) = lines_of h.
Proof.
  destruct h; reflexivity.
Qed.

Lemma is_context_type (l : DiffLine.t) :
  is_context l = true <-> DiffLine.type l = Context.
Proof.
  unfold is_context. destruct (DiffLine.type l); simpl; split; congruence.
Qed.

Local Open Scope nat_scope.

Lemma occ_nil (l : DiffLine.t) : occ l [] = 0%nat.
Proof. reflexivity. Qed.

Ltac count_cases :=
  repeat split; try discriminate; intros;
  cbn [currentHunk nextHunk splitHunks lines_of];
  rewrite ?occ_all_lines_snoc, ?occ_app, ?occ_nil;
  try lia; try congruence.

(** One turn of the segmenter: it throws nothing, keeps [segmenter_ok], and
    moves the occurrences of every line [l] as its kind says. *)
Lemma splitIntoSmallerHunks_turn_counts (line : DiffLine.t) (st : segmenter) :
  segmenter_ok st ->
  exists st',
    splitIntoSmallerHunks_turn line st = Return st' /\
    segmenter_ok st' /\
    (currentHunk st <> None -> currentHunk st' <> None) /\
    (is_context line = true -> currentHunk st' <> None) /\
    (is_context line = false -> currentHunk st = None -> st' = st) /\
    forall l,
      (is_context line = true ->
       settled st' l = settled st l + occ l [line] /\
       pending st l <= pending st' l <= pending st l + occ l [line]) /\
      (is_change line = true -> currentHunk st <> None ->
       settled st' l + pending st' l = settled st l + pending st l + occ l [line] /\
       settled st l <= settled st' l) /\
      (DiffLine.type line = Control ->
       settled st' l + pending st' l = settled st l + pending st l /\
       settled st l <= settled st' l).
Proof.
  intros [HA [HB HC]].
  destruct st as [out cur nxt]. cbn [currentHunk nextHunk splitHunks] in *.
  unfold splitIntoSmallerHunks_turn, settled, pending, is_change, is_context,
    segmenter_ok.
  cbn [currentHunk nextHunk splitHunks].
  destruct (DiffLine.type line) eqn:Htype.
  - (* a Context line *)
    rewrite hunkHasSandwichedChanges_sandwiched. cbn [bind].
    destruct (sandwiched (addLineToHunk (or_newHunk cur line) line)) eqn:Hs;
      eexists; (split; [reflexivity |]);
      cbn [currentHunk nextHunk splitHunks lines_of];
      rewrite ?diffLines_addLineToHunk, ?diffLines_or_newHunk;
      (split; [| count_cases]).
    + split; [discriminate |]. split; [discriminate |].
      apply Forall_app. split; [exact HC |].
      constructor; [| constructor]. now apply is_context_type.
    + split; [discriminate |]. split; [| exact HC].
      intros current [= <-]. congruence.
  - (* an Add line *)
    destruct cur as [current|]; [| eexists; split; [reflexivity |];
                                   split; [auto |]; count_cases; congruence].
    rewrite hunkHasSandwichedChanges_sandwiched. cbn [bind].
    destruct (sandwiched current) eqn:Hs; cbn [currentHunk nextHunk splitHunks].
    + destruct nxt as [next|]; [| now destruct (HB current eq_refl Hs)].
      eexists. split; [reflexivity |].
      cbn [currentHunk nextHunk splitHunks lines_of] in *.
      rewrite ?diffLines_addLineToHunk.
      split; [| count_cases].
      split; [discriminate |]. split; [| constructor].
      intros c [= <-]. rewrite sandwiched_add_change; [discriminate |].
      unfold is_context. now rewrite Htype.
    + eexists. split; [reflexivity |].
      cbn [currentHunk nextHunk splitHunks lines_of] in *.
      rewrite ?diffLines_addLineToHunk.
      split; [| count_cases].
      split; [discriminate |]. split; [| exact HC].
      intros c [= <-]. rewrite sandwiched_add_change; [discriminate |].
      unfold is_context. now rewrite Htype.
  - (* a Delete line *)
    destruct cur as [current|]; [| eexists; split; [reflexivity |];
                                   split; [auto |]; count_cases; congruence].
    rewrite hunkHasSandwichedChanges_sandwiched. cbn [bind].
    destruct (sandwiched current) eqn:Hs; cbn [currentHunk nextHunk splitHunks].
    + destruct nxt as [next|]; [| now destruct (HB current eq_refl Hs)].
      eexists. split; [reflexivity |].
      cbn [currentHunk nextHunk splitHunks lines_of] in *.
      rewrite ?diffLines_addLineToHunk.
      split; [| count_cases].
      split; [discriminate |]. split; [| constructor].
      intros c [= <-]. rewrite sandwiched_add_change; [discriminate |].
      unfold is_context. now rewrite Htype.
    + eexists. split; [reflexivity |].
      cbn [currentHunk nextHunk splitHunks lines_of] in *.
      rewrite ?diffLines_addLineToHunk.
      split; [| count_cases].
      split; [discriminate |]. split; [| exact HC].
      intros c [= <-]. rewrite sandwiched_add_change; [discriminate |].
      unfold is_context. now rewrite Htype.
  - (* a Control line *)
    destruct cur as [current|]; [| eexists; split; [reflexivity |];
                                   split; [auto |]; count_cases; congruence].
    rewrite hunkHasSandwichedChanges_sandwiched. cbn [bind].
    destruct (sandwiched current) eqn:Hs; cbn [currentHunk nextHunk splitHunks].
    + destruct nxt as [next|]; [| now destruct (HB current eq_refl Hs)].
      eexists. split; [reflexivity |].
      cbn [currentHunk nextHunk splitHunks lines_of] in *.
      split; [| count_cases].
      split; [discriminate |]. split; [| constructor].
      intros c [= <-]. now rewrite sandwiched_all_context.
    + eexists. split; [reflexivity |].
      cbn [currentHunk nextHunk splitHunks lines_of] in *.
      split; [| count_cases].
      split; [discriminate |]. split; [| exact HC].
      intros c [= <-]. congruence.
Qed.

Lemma occ_cons (l line : DiffLine.t) (rest : list DiffLine.t) :
  occ l (line :: rest) = occ l [line] + occ l rest.
Proof.
  exact (occ_app l [line] rest).
Qed.

Lemma kinds (line : DiffLine.t) :
  (is_context line = true /\ is_change line = false /\ DiffLine.type line <> Control) \/
  (is_context line = false /\ is_change line = true /\ DiffLine.type line <> Control) \/
  (is_context line = false /\ is_change line = false /\ DiffLine.type line = Control).
Proof.
  unfold is_context, is_change. destruct (DiffLine.type line); simpl;
    intuition congruence.
Qed.

Lemma occ_kinds (l line : DiffLine.t) :
  (is_context l <> is_context line \/ is_change l <> is_change line) ->
  occ l [line] = 0.
Proof.
  intros H. apply occ_other_kind. intros E.
  unfold is_context, is_change in H. rewrite E in H. intuition congruence.
Qed.

(** The whole loop of the segmenter, from any state between two turns. *)
Lemma splitIntoSmallerHunks_loop_counts (lines : list DiffLine.t) :
  forall st,
    segmenter_ok st ->
    exists st',
      splitIntoSmallerHunks_loop lines st = Return st' /\
      segmenter_ok st' /\
      forall l,
        (is_context l = true ->
         settled st l + occ l lines <= settled st' l /\
         settled st' l + pending st' l
         <= settled st l + pending st l + 2 * occ l lines) /\
        (is_change l = true ->
         settled st' l + pending st' l =
         settled st l + pending st l
         + occ l (match currentHunk st with
                  | Some _ => lines
                  | None => from_first_context lines
                  end)) /\
        (DiffLine.type l = Control ->
         settled st' l + pending st' l = settled st l + pending st l).
Proof.
  induction lines as [|line rest IH]; intros st Hok.
  - exists st. split; [reflexivity |]. split; [exact Hok |].
    intros l. destruct (currentHunk st); simpl; rewrite ?occ_nil; lia.
  - destruct (splitIntoSmallerHunks_turn_counts line st Hok)
      as [st1 [Hturn [Hok1 [Hkeep [Hopen [Hsame Hcount]]]]]].
    destruct (IH st1 Hok1) as [st' [Hloop [Hok' Hrest]]].
    exists st'. cbn [splitIntoSmallerHunks_loop]. rewrite Hturn. cbn [bind].
    split; [exact Hloop |]. split; [exact Hok' |].
    intros l. specialize (Hcount l). specialize (Hrest l).
    destruct Hcount as [Hctx [Hchg Hctl]]. destruct Hrest as [Rctx [Rchg Rctl]].
    rewrite (occ_cons l line rest). cbn [from_first_context].
    destruct (kinds line) as [[K1 [K2 K3]] | [[K1 [K2 K3]] | [K1 [K2 K3]]]];
      rewrite K1.
    + (* the line is a Context line *)
      specialize (Hctx K1). specialize (Hopen K1).
      destruct (currentHunk st1) as [c1|] eqn:E1; [| congruence].
      split; [| split]; intros Hl.
      * specialize (Rctx Hl). lia.
      * specialize (Rchg Hl).
        assert (occ l [line] = 0) as Hz by (apply occ_kinds; right; congruence).
        destruct (currentHunk st); rewrite (occ_cons l line rest); lia.
      * specialize (Rctl Hl).
        assert (occ l [line] = 0) as Hz.
        { apply occ_other_kind. apply is_context_type in K1. congruence. }
        lia.
    + (* the line is an Add or a Delete line *)
      destruct (currentHunk st) as [c|] eqn:E; rewrite ?(occ_cons l line rest).
      * destruct (Hchg K2 ltac:(discriminate)) as [Htotal Hmono].
        specialize (Hkeep ltac:(discriminate)).
        destruct (currentHunk st1) as [c1|] eqn:E1; [| congruence].
        split; [| split]; intros Hl.
        -- specialize (Rctx Hl).
           assert (occ l [line] = 0) as Hz by (apply occ_kinds; left; congruence).
           lia.
        -- specialize (Rchg Hl). lia.
        -- specialize (Rctl Hl).
           assert (occ l [line] = 0) as Hz by (apply occ_other_kind; congruence).
           lia.
      * pose proof (Hsame K1 eq_refl) as Est. subst st1. rewrite E in Rchg.
        split; [| split]; intros Hl.
        -- specialize (Rctx Hl).
           assert (occ l [line] = 0) as Hz by (apply occ_kinds; left; congruence).
           lia.
        -- exact (Rchg Hl).
        -- exact (Rctl Hl).
    + (* the line is a Control line *)
      destruct (currentHunk st) as [c|] eqn:E; rewrite ?(occ_cons l line rest).
      * destruct (Hctl K3) as [Htotal Hmono].
        specialize (Hkeep ltac:(discriminate)).
        destruct (currentHunk st1) as [c1|] eqn:E1; [| congruence].
        split; [| split]; intros Hl.
        -- specialize (Rctx Hl).
           assert (occ l [line] = 0) as Hz by (apply occ_kinds; left; congruence).
           lia.
        -- specialize (Rchg Hl).
           assert (occ l [line] = 0) as Hz by (apply occ_kinds; right; congruence).
           lia.
        -- specialize (Rctl Hl). lia.
      * pose proof (Hsame K1 eq_refl) as Est. subst st1. rewrite E in Rchg.
        split; [| split]; intros Hl.
        -- specialize (Rctx Hl).
           assert (occ l [line] = 0) as Hz by (apply occ_kinds; left; congruence).
           lia.
        -- exact (Rchg Hl).
        -- exact (Rctl Hl).
Qed.

Lemma first_context_split (lines : list DiffLine.t) :
  lines = (before_first_context lines ++ from_first_context lines)%list.
Proof.
  induction lines as [|l rest IH]; [reflexivity |].
  simpl. destruct (is_context l); [reflexivity |].
  simpl. now rewrite <- IH.
Qed.

Lemma occ_output (st : segmenter) (l : DiffLine.t) :
  occ l (all_lines (splitHunks st ++ yield_open (currentHunk st))) = settled st l.
Proof.
  unfold settled. rewrite all_lines_app, occ_app. f_equal.
  destruct (currentHunk st); unfold all_lines; simpl; [| reflexivity].
  now rewrite app_nil_r.
Qed.

Lemma pending_not_context (st : segmenter) (l : DiffLine.t) :
  segmenter_ok st -> is_context l = false -> pending st l = 0.
Proof.
  intros [_ [_ Hnext]] Hl. unfold pending. now apply occ_all_context.
Qed.

(** X1.  What [splitIntoSmallerHunks] keeps, for every hunk.  It returns (no
    [TypeError]).  Over all the hunks it returns, a [Context] line occurs at
    least as often as in the input and at most twice as often; an [Add] or
    [Delete] line that does not occur before the first [Context] line of the
    input occurs exactly as often as in the input; a [Control] line does not
    occur. *)
Theorem splitIntoSmallerHunks_keeps_lines (hunk : DiffHunk.t) :
  exists out,
    splitIntoSmallerHunks hunk = Return out /\
    forall l,
      (DiffLine.type l = Context ->
       occ l (DiffHunk.diffLines hunk) <= occ l (all_lines out)
       <= 2 * occ l (DiffHunk.diffLines hunk)) /\
      (is_change l = true ->
       ~ In l (before_first_context (DiffHunk.diffLines hunk)) ->
       occ l (all_lines out) = occ l (DiffHunk.diffLines hunk)) /\
      (DiffLine.type l = Control -> occ l (all_lines out) = 0).
Proof.
  assert (segmenter_ok (mkSegmenter [] None None)) as Hinit.
  { repeat split; try discriminate. constructor. }
  destruct (splitIntoSmallerHunks_loop_counts (DiffHunk.diffLines hunk) _ Hinit)
    as [st' [Hloop [Hok Hcount]]].
  unfold splitIntoSmallerHunks. rewrite Hloop. cbn [bind].
  eexists. split; [reflexivity |].
  intros l. rewrite occ_output. destruct (Hcount l) as [Hctx [Hchg Hctl]].
  unfold settled, pending in Hctx, Hchg, Hctl.
  cbn [splitHunks currentHunk nextHunk lines_of all_lines map List.concat] in *.
  rewrite !occ_nil in *.
  fold (settled st' l) in *. fold (pending st' l) in *.
  split; [| split].
  - intros Hl. apply is_context_type in Hl. specialize (Hctx Hl). lia.
  - intros Hl Hbefore. specialize (Hchg Hl).
    assert (is_context l = false) as Hnot.
    { unfold is_change, is_context in *. destruct (DiffLine.type l); auto; discriminate. }
    rewrite (pending_not_context st' l Hok Hnot) in Hchg.
    rewrite (first_context_split (DiffHunk.diffLines hunk)) at 1.
    rewrite occ_app.
    assert (occ l (before_first_context (DiffHunk.diffLines hunk)) = 0) as ->.
    { unfold occ. now apply count_occ_not_In. }
    lia.
  - intros Hl. specialize (Hctl Hl).
    assert (is_context l = false) as Hnot.
    { unfold is_context. now rewrite Hl. }
    rewrite (pending_not_context st' l Hok Hnot) in Hctl. lia.
Qed.

Local Close Scope nat_scope.

(** * The claims *)

(** ** C1: the segmenter and the lines before the first context line *)

(** C1, evaluated where it fails.  The hunk parsed from a patch that adds a
    new file has two [Add] lines and no [Context] line, and
    [splitIntoSmallerHunks] returns no hunk at all for it; the hunk parsed
    from a patch whose change comes before its first context line is split
    into one hunk that holds the two context lines and neither change
    line.  The change lines met while [currentHunk] is still undefined are
    dropped. *)
Theorem C1_leading_changes_are_dropped :
  (exists hunk,
     parsePatch new_file_patch = Return [hunk] /\
     List.length (filter is_change (DiffHunk.diffLines hunk)) = 2%nat /\
     splitIntoSmallerHunks hunk = Return []) /\
  (exists hunk small,
     parsePatch leading_change_patch = Return [hunk] /\
     List.length (filter is_change (DiffHunk.diffLines hunk)) = 2%nat /\
     splitIntoSmallerHunks hunk = Return [small] /\
     map DiffLine.raw (DiffHunk.diffLines small) = [" b"; " c"]).
Proof.
  split.
  - eexists. split; [vm_compute; reflexivity |].
    split; vm_compute; reflexivity.
  - eexists _, _. split; [vm_compute; reflexivity |].
    split; [vm_compute; reflexivity |].
    split; vm_compute; reflexivity.
Qed.

(** ** C2 and C3: slim or rich *)

(** C2 fails as stated: for an added file with no patch, zero additions give
    the rich change and three additions give the slim one, the reverse of
    the claim. *)
Lemma C2_counterexample :
  (exists change,
     parseDiff [empty_add] "base" = Return [change] /\ is_slim change = false) /\
  (exists change,
     parseDiff [three_line_add] "base" = Return [change] /\ is_slim change = true).
Proof.
  split; eexists; (split; [vm_compute; reflexivity | reflexivity]).
Qed.

(** C2, amended.  For a record with status ["added"] and no patch text:
    when [additions] is [0], [parseDiff] produces an [InMemFileChange] with
    the empty string as patch and no parsed hunks; when [additions] is not
    [0] (for instance [3]), it produces a [SlimFileChange]. *)
Theorem C2_added_without_patch (review : IRawFileChange) (parentCommit : string) :
  status review = "added" ->
  truthy (patch review) = false ->
  (additions review = 0 ->
   parseDiff [review] parentCommit =
   Return [InMemFileChange parentCommit ADD (filename review)
             (previous_filename review) "" None (blob_url review)]) /\
  (additions review <> 0 ->
   parseDiff [review] parentCommit =
   Return [SlimFileChange parentCommit (blob_url review) ADD (filename review)
             (previous_filename review)]).
Proof.
  intros Hstatus Hpatch.
  assert (match patch review with Some text => text | None => "" end = "") as Htext.
  { destruct (patch review) as [text|]; [| reflexivity].
    simpl in Hpatch. destruct (String.eqb_spec text ""); [assumption | discriminate]. }
  unfold parseDiff, parseDiff_turn. rewrite Hstatus, Hpatch, Htext.
  change (getGitChangeType "added") with ADD. cbn [GitChangeType_eqb negb andb].
  split; intros Hadd.
  - rewrite Hadd. reflexivity.
  - destruct (Z.eqb_spec (additions review) 0); [contradiction | reflexivity].
Qed.

Lemma C2_added_without_patch_witness :
  parseDiff [empty_add] "base" =
    Return [InMemFileChange "base" ADD "new.txt" None "" None None] /\
  parseDiff [three_line_add] "base" =
    Return [SlimFileChange "base" None ADD "new.txt" None].
Proof.
  split.
  - apply (C2_added_without_patch empty_add "base"); reflexivity.
  - apply (C2_added_without_patch three_line_add "base");
      [reflexivity | reflexivity | discriminate].
Defined.

Lemma GitChangeType_eqb_eq (a b : GitChangeType) :
  GitChangeType_eqb a b = true <-> a = b.
Proof.
  destruct a, b; simpl; split; intros H; try reflexivity; discriminate.
Qed.

Lemma parseDiff_turn_matches (review : IRawFileChange) (parentCommit : string) :
  exists change,
    parseDiff_turn review parentCommit = Return change /\
    change_matches review change.
Proof.
  unfold parseDiff_turn, change_matches.
  destruct (truthy (patch review)) eqn:Hpatch; cbn [negb andb].
  - destruct (patch review) as [text|] eqn:Htext; [| discriminate].
    destruct (parsePatch_total text) as [lines [hunks [_ [_ Hparse]]]].
    rewrite Hparse. simpl. eexists. split; [reflexivity |]. simpl.
    split; [split; [discriminate | intros [H _]; discriminate] |].
    intros _. split; [reflexivity | discriminate].
  - destruct (getGitChangeType (status review)) eqn:Hkind; simpl;
      try (eexists; split; [reflexivity |]; simpl; split;
           [ split; [discriminate | intros [_ [H1 [H2 H3]]]; congruence]
           | intros _; split; [congruence | discriminate] ]);
      try (eexists; split; [reflexivity |]; simpl; split;
           [ split; [intros _; repeat split; try discriminate;
                     intros [H _]; discriminate | reflexivity]
           | discriminate ]).
    destruct (Z.eqb_spec (additions review) 0) as [Hadd | Hadd]; simpl;
      eexists; (split; [reflexivity |]); simpl; split.
    + split; [discriminate | intros [_ [_ [_ H]]]; exfalso; apply H; auto].
    + intros _. split; [congruence | discriminate].
    + split; [intros _; repeat split; try discriminate; intros [_ H]; contradiction
             | reflexivity].
    + discriminate.
Qed.

(** C3.  [parseDiff] returns one change per record, in order.  The change is
    a [SlimFileChange] exactly when the record has no patch text, its kind is
    neither [RENAME] nor [MODIFY], and it is not an [ADD] with no additions;
    otherwise it is an [InMemFileChange], whose parsed hunks are present
    exactly when the patch text is. *)
Theorem C3_slim_exactly_when (reviews : list IRawFileChange) (parentCommit : string) :
  exists changes,
    parseDiff reviews parentCommit = Return changes /\
    Forall2 change_matches reviews changes.
Proof.
  induction reviews as [|review rest [changes [Hrest Hall]]]; simpl.
  - exists []. split; [reflexivity | constructor].
  - destruct (parseDiff_turn_matches review parentCommit) as [change [Hturn Hm]].
    rewrite Hturn, Hrest. simpl. exists (change :: changes).
    split; [reflexivity | now constructor].
Qed.

(** ** C4: reconstruction without hunks *)

(** C4 fails as stated: with an empty patch (no hunk), content that holds a
    carriage return before a line feed does not come back unchanged. *)
Lemma C4_counterexample :
  parseDiffHunk "" = Return [] /\
  getModifiedContentFromDiffHunk crlf_content "" = Return ("a" ++ nl ++ "b") /\
  getModifiedContentFromDiffHunk crlf_content "" <> Return crlf_content.
Proof.
  repeat split; try (vm_compute; reflexivity).
  vm_compute. discriminate.
Qed.

(** C4, amended.  With a patch that parses to zero hunks, reconstruction
    returns the original content with every carriage return that precedes a
    line feed removed; so it returns the original content unchanged for
    every content that holds no such pair. *)
Theorem C4_no_hunk_reconstruction (originalContent patch : string) :
  parseDiffHunk patch = Return [] ->
  getModifiedContentFromDiffHunk originalContent patch =
    Return (normalize_line_ends originalContent) /\
  (has_crlf originalContent = false ->
   getModifiedContentFromDiffHunk originalContent patch = Return originalContent).
Proof.
  intros Hparse.
  pose proof (getModifiedContent_no_hunk originalContent patch Hparse) as H.
  split; [exact H |].
  intros Hcrlf. rewrite H. now rewrite normalize_line_ends_id.
Qed.

Lemma C4_no_hunk_reconstruction_witness :
  getModifiedContentFromDiffHunk ("a" ++ nl ++ "b" ++ nl) "not a diff" =
    Return (normalize_line_ends ("a" ++ nl ++ "b" ++ nl)) /\
  (has_crlf ("a" ++ nl ++ "b" ++ nl) = false ->
   getModifiedContentFromDiffHunk ("a" ++ nl ++ "b" ++ nl) "not a diff" =
     Return ("a" ++ nl ++ "b" ++ nl)).
Proof.
  apply (C4_no_hunk_reconstruction ("a" ++ nl ++ "b" ++ nl) "not a diff").
  vm_compute. reflexivity.
Defined.

(** ** C5 and C10: header lines *)

(** C5 fails as stated: [@@ -5 @@], a line with no new range, is recognized
    as a header although it is not of the pattern the claim gives. *)
Lemma C5_counterexample :
  ~ (forall line,
       test DIFF_HUNK_HEADER line = true <-> test SPEC_HUNK_HEADER line = true).
Proof.
  intros H. specialize (H "@@ -5 @@"). destruct H as [H _].
  specialize (H eq_refl). vm_compute in H. discriminate.
Qed.

(** C5, amended.  A line is recognized as a hunk header exactly when it
    starts with [@@ -<oldStart>[,<oldCount>]], then optionally
    [ +<newStart>] with an optional comma and an optional [<newCount>] after
    it, then [ @@]; what follows is ignored.  Every line of the claim's
    pattern is among them.  The decoded [oldLength] and [newLength] are [1]
    when the count is absent, and the decoded new start is [NaN] when the
    new range is absent.  [@@ -5 @@] is a header, with new start [NaN];
    [@@ -1 +1, @@] is a header; parsing [@@ -5 +5 @@] yields the lengths
    [1] and [1]. *)
Theorem C5_header_recognition :
  (forall line, test DIFF_HUNK_HEADER line = true <-> header_shape line) /\
  (forall line,
     test SPEC_HUNK_HEADER line = true -> test DIFF_HUNK_HEADER line = true) /\
  (forall oldStart oldCount nr tail st,
     header_parts_ok oldStart oldCount nr ->
     exists hunk,
       opened_hunk (header_text oldStart oldCount nr tail) st = Some hunk /\
       (oldCount = None -> DiffHunk.oldLength hunk = JInt 1) /\
       (new_count nr = None -> DiffHunk.newLength hunk = JInt 1) /\
       (new_start nr = None -> DiffHunk.newLineNumber hunk = JNaN)) /\
  (exists hunk,
     parsePatch "@@ -5 @@" = Return [hunk] /\
     DiffHunk.newLineNumber hunk = JNaN /\
     DiffHunk.oldLength hunk = JInt 1 /\ DiffHunk.newLength hunk = JInt 1) /\
  test DIFF_HUNK_HEADER "@@ -1 +1, @@" = true /\
  (exists hunk,
     parsePatch "@@ -5 +5 @@" = Return [hunk] /\
     DiffHunk.oldLength hunk = JInt 1 /\ DiffHunk.newLength hunk = JInt 1).
Proof.
  split; [exact test_header_shape |].
  split; [exact spec_header_is_header |].
  split; [| split; [| split]].
  - intros oldStart oldCount nr tail st Hok.
    eexists. split; [apply (opened_hunk_header _ _ _ _ _ Hok) |].
    cbn [DiffHunk.oldLength DiffHunk.newLength DiffHunk.newLineNumber].
    repeat split; intros ->; reflexivity.
  - eexists. split; [vm_compute; reflexivity |]. repeat split; reflexivity.
  - reflexivity.
  - eexists. split; [vm_compute; reflexivity |]. split; reflexivity.
Qed.

Lemma jor_zero_count (d : string) :
  zero_count d -> jor (Number (Some d)) (JInt 1) = JInt 1.
Proof.
  intros [Hd Hz]. rewrite (Number_digit_string d Hd), Hz. reflexivity.
Qed.

(** C10.  A header whose old count (new count) is written as zero opens a
    hunk whose [oldLength] ([newLength]) is [1], the same numbers as the
    header with that count left out; [@@ -1,0 +1,2 @@] and
    [@@ -3,2 +3,0 @@] are two such headers. *)
Theorem C10_zero_count_is_one :
  (forall oldStart zeros nr tail st,
     zero_count zeros -> header_parts_ok oldStart None nr ->
     exists hunk hunk',
       opened_hunk (header_text oldStart (Some zeros) nr tail) st = Some hunk /\
       opened_hunk (header_text oldStart None nr tail) st = Some hunk' /\
       DiffHunk.oldLength hunk = JInt 1 /\
       DiffHunk.oldLength hunk' = JInt 1 /\
       DiffHunk.oldLineNumber hunk = DiffHunk.oldLineNumber hunk' /\
       DiffHunk.newLineNumber hunk = DiffHunk.newLineNumber hunk' /\
       DiffHunk.newLength hunk = DiffHunk.newLength hunk') /\
  (forall oldStart oldCount newStart zeros tail st,
     zero_count zeros ->
     header_parts_ok oldStart oldCount (NewStart newStart) ->
     exists hunk hunk',
       opened_hunk
         (header_text oldStart oldCount (NewStartCount newStart zeros) tail) st
         = Some hunk /\
       opened_hunk (header_text oldStart oldCount (NewStart newStart) tail) st
         = Some hunk' /\
       DiffHunk.newLength hunk = JInt 1 /\
       DiffHunk.newLength hunk' = JInt 1 /\
       DiffHunk.oldLineNumber hunk = DiffHunk.oldLineNumber hunk' /\
       DiffHunk.oldLength hunk = DiffHunk.oldLength hunk' /\
       DiffHunk.newLineNumber hunk = DiffHunk.newLineNumber hunk') /\
  (exists hunk,
     parsePatch "@@ -1,0 +1,2 @@" = Return [hunk] /\
     DiffHunk.oldLength hunk = JInt 1 /\ DiffHunk.newLength hunk = JInt 2) /\
  (exists hunk,
     parsePatch "@@ -3,2 +3,0 @@" = Return [hunk] /\
     DiffHunk.oldLength hunk = JInt 2 /\ DiffHunk.newLength hunk = JInt 1).
Proof.
  split; [| split; [| split]].
  - intros oldStart zeros nr tail st Hzero [Hos [_ [Hns Hnc]]].
    eexists _, _.
    split; [apply opened_hunk_header;
            exact (conj Hos (conj (proj1 Hzero) (conj Hns Hnc))) |].
    split; [apply opened_hunk_header; exact (conj Hos (conj I (conj Hns Hnc))) |].
    cbn [DiffHunk.oldLineNumber DiffHunk.oldLength DiffHunk.newLineNumber
         DiffHunk.newLength].
    rewrite (jor_zero_count zeros Hzero). repeat split; reflexivity.
  - intros oldStart oldCount newStart zeros tail st Hzero [Hos [Hoc [Hns _]]].
    eexists _, _.
    split; [apply opened_hunk_header;
            exact (conj Hos (conj Hoc (conj Hns (proj1 Hzero)))) |].
    split; [apply opened_hunk_header; exact (conj Hos (conj Hoc (conj Hns I))) |].
    cbn [DiffHunk.oldLineNumber DiffHunk.oldLength DiffHunk.newLineNumber
         DiffHunk.newLength new_count new_start].
    rewrite (jor_zero_count zeros Hzero). repeat split; reflexivity.
  - eexists. split; [vm_compute; reflexivity |]. split; reflexivity.
  - eexists. split; [vm_compute; reflexivity |]. split; reflexivity.
Qed.

(** ** C6: line numbers of the stored lines *)

(** C6 fails as stated: the first stored line of a hunk is its header, of
    kind [Control], and its [oldLineNumber] is [-1] although it is no
    [Add]. *)
Lemma C6_counterexample :
  ~ (forall l, In l (parsed_lines "@@ -1 +1 @@") -> line_number_invariant l).
Proof.
  intros H.
  specialize (H (header_line 0 "@@ -1 +1 @@") (or_introl eq_refl)).
  destruct H as [[_ H] _]. specialize (H eq_refl). discriminate.
Qed.

(** C6, amended.  For every patch, [parsePatch] returns, and for every line
    stored in its hunks: when the line is not of kind [Control], it is an
    [Add] exactly when its [oldLineNumber] is [-1] and a [Delete] exactly
    when its [newLineNumber] is [-1]; when it is of kind [Control] (a
    header), both numbers are [-1]. *)
Theorem C6_line_numbers (patch : string) :
  exists hunks,
    parsePatch patch = Return hunks /\
    forall l,
      In l (all_lines hunks) ->
      (DiffLine.type l <> Control -> line_number_invariant l) /\
      (DiffLine.type l = Control ->
       DiffLine.oldLineNumber l = JInt (-1) /\
       DiffLine.newLineNumber l = JInt (-1)).
Proof.
  destruct (parsePatch_total patch) as [lines [hunks [_ [Hloop Hparse]]]].
  exists hunks. split; [exact Hparse |].
  pose proof (parseDiffHunk_loop_numbers_ok lines parseDiffHunk_init hunks Hloop I)
    as Hall.
  rewrite Forall_forall in Hall. intros l Hl. specialize (Hall l Hl).
  unfold line_numbers_ok in Hall.
  destruct (DiffLine.type l) eqn:Htype; split; intros H;
    try exact Hall; try discriminate; contradiction.
Qed.

(** ** C7: the round trip of the specification *)

(** C7.  Reconstruction of ["a\nb\nc\nd\n"] with the patch whose header is
    [@@ -1,4 +1,4 @@] and whose body is [ a], [-b], [+B], [ c], [ d] (with
    or without a line feed after the last line) returns ["a\nB\nc\nd\n"]. *)
Theorem C7_round_trip :
  getModifiedContentFromDiffHunk round_trip_original round_trip_patch =
    Return ("a" ++ nl ++ "B" ++ nl ++ "c" ++ nl ++ "d" ++ nl) /\
  getModifiedContentFromDiffHunk round_trip_original (round_trip_patch ++ nl) =
    Return ("a" ++ nl ++ "B" ++ nl ++ "c" ++ nl ++ "d" ++ nl).
Proof.
  split; vm_compute; reflexivity.
Qed.

(** ** C8: positions *)

Lemma ascending_from_sorted (l : list Z) :
  forall p, ascending_from p l ->
    StronglySorted Z.lt l /\ Forall (fun x => p <= x) l.
Proof.
  induction l as [|x rest IH]; intros p H; simpl in H.
  - split; constructor.
  - destruct H as [Hx Hrest]. destruct (IH (x + 1) Hrest) as [Hsorted Hall].
    split.
    + constructor; [exact Hsorted |].
      eapply Forall_impl; [| exact Hall]. simpl. intros; lia.
    + constructor; [exact Hx |].
      eapply Forall_impl; [| exact Hall]. simpl. intros; lia.
Qed.

(** C8.  For every patch, [parsePatch] returns, and the [positionInHunk] of
    the stored lines of its hunks, taken hunk after hunk in emission
    order, are strictly increasing; the first of them, when there is one,
    is [0]. *)
Theorem C8_positions_increase (patch : string) :
  exists hunks,
    parsePatch patch = Return hunks /\
    StronglySorted Z.lt (positions (all_lines hunks)) /\
    match all_lines hunks with
    | [] => True
    | first :: _ => DiffLine.positionInHunk first = 0
    end.
Proof.
  destruct (parsePatch_total patch) as [lines [hunks [_ [Hloop Hparse]]]].
  exists hunks. split; [exact Hparse |].
  destruct (parseDiffHunk_loop_positions lines parseDiffHunk_init hunks Hloop eq_refl)
    as [new [Hpos [Hasc Hzero]]].
  cbn in Hpos. rewrite Hpos. split.
  - apply (ascending_from_sorted new _ Hasc).
  - destruct (Hzero eq_refl) as [-> | [rest ->]].
    + destruct (all_lines hunks); [exact I | discriminate].
    + destruct (all_lines hunks) as [|first others]; [exact I |].
      simpl in Hpos. now injection Hpos.
Qed.

(** ** C9: the parser always returns *)

(** C9.  For every string, the line reader and the parser return within the
    fuel of the model and throw nothing: [parsePatch] yields a list of
    hunks.  It holds one hunk for each line that is recognized as a header
    (so none when no line is one), and the lines before the first header do
    not change the outcome. *)
Theorem C9_parsePatch_returns (patch : string) :
  exists lines hunks,
    LineReader patch = Return lines /\
    parsePatch patch = Return hunks /\
    List.length hunks = List.length (filter (test DIFF_HUNK_HEADER) lines) /\
    forall before rest,
      lines = (before ++ rest)%list ->
      Forall (fun line => test DIFF_HUNK_HEADER line = false) before ->
      parseDiffHunk_loop rest parseDiffHunk_init = Return hunks.
Proof.
  destruct (parsePatch_total patch) as [lines [hunks [Hlines [Hloop Hparse]]]].
  exists lines, hunks. repeat split; try assumption.
  - now rewrite (parseDiffHunk_loop_count lines parseDiffHunk_init hunks Hloop).
  - intros before rest -> Hstray.
    now rewrite <- (parseDiffHunk_loop_stray before rest Hstray).
Qed.

(** * Further properties of the module *)

(** ** Searching and cutting strings by index *)

Lemma strlen_append (a b : string) : strlen (a ++ b) = strlen a + strlen b.
Proof.
  unfold strlen. rewrite length_append. lia.
Qed.

Lemma strlen_nonneg (a : string) : 0 <= strlen a.
Proof.
  unfold strlen. lia.
Qed.

Lemma indexOf_at_skip (c : ascii) (before : string) :
  forall s pos,
    indexOf_at (before ++ s) c (String.length before) pos =
    indexOf_at s c O (pos + strlen before).
Proof.
  unfold strlen.
  induction before as [|a before IH]; intros s pos.
  - cbn [append String.length Z.of_nat]. now rewrite Z.add_0_r.
  - cbn [append String.length indexOf_at]. rewrite IH. f_equal. lia.
Qed.

Lemma indexOf_at_absent (c : ascii) (s : string) :
  forall pos, contains_char c s = false -> indexOf_at s c O pos = -1.
Proof.
  induction s as [|a s IH]; intros pos H; [reflexivity |].
  simpl in *. apply orb_false_iff in H. destruct H as [Ha Hs].
  rewrite Ha. now apply IH.
Qed.

Lemma indexOf_at_first (c : ascii) (mid : string) :
  forall rest pos,
    contains_char c mid = false ->
    indexOf_at (mid ++ String c rest) c O pos = pos + strlen mid.
Proof.
  unfold strlen.
  induction mid as [|a mid IH]; intros rest pos H.
  - simpl. rewrite Ascii.eqb_refl. lia.
  - simpl in H. apply orb_false_iff in H. destruct H as [Ha Hmid].
    cbn [append indexOf_at String.length]. rewrite Ha, IH by exact Hmid. lia.
Qed.

(** [indexOf] from the end of [before], when [c] is not in what follows. *)
Lemma indexOf_absent (c : ascii) (before s : string) :
  contains_char c s = false ->
  indexOf (before ++ s) c (strlen before) = -1.
Proof.
  intros H. unfold indexOf, strlen. rewrite Nat2Z.id, indexOf_at_skip.
  now apply indexOf_at_absent.
Qed.

(** [indexOf] from the end of [before], when [c] first occurs after [mid]. *)
Lemma indexOf_first (c : ascii) (before mid rest : string) :
  contains_char c mid = false ->
  indexOf (before ++ mid ++ String c rest) c (strlen before) =
  strlen before + strlen mid.
Proof.
  intros H. unfold indexOf. unfold strlen at 1. rewrite Nat2Z.id, indexOf_at_skip.
  rewrite indexOf_at_first by exact H. lia.
Qed.

Lemma substring_skip (before : string) :
  forall s n,
    String.substring (String.length before) n (before ++ s) =
    String.substring 0 n s.
Proof.
  induction before as [|a before IH]; intros s n; [reflexivity |].
  simpl. apply IH.
Qed.

Lemma substr_middle (before mid rest : string) :
  substr (before ++ mid ++ rest) (strlen before) (strlen mid) = mid.
Proof.
  unfold substr, strlen. rewrite !Nat2Z.id, substring_skip.
  apply substring_prefix.
Qed.

Lemma get_skip (before : string) :
  forall s n, String.get (String.length before + n) (before ++ s) = String.get n s.
Proof.
  induction before as [|a before IH]; intros s n; [reflexivity |].
  simpl. apply IH.
Qed.

Lemma charAt_after (before : string) (a : ascii) (rest : string) :
  charAt (before ++ String a rest) (strlen before) = Some a.
Proof.
  unfold charAt, strlen.
  destruct (Z.ltb_spec (Z.of_nat (String.length before)) 0); [lia |].
  rewrite Nat2Z.id. rewrite <- (Nat.add_0_r (String.length before)).
  now rewrite get_skip.
Qed.

(** ** [countCarriageReturns] counts *)

Lemma countCarriageReturns_loop_count (s : string) :
  forall (before mid : string) (fuel : nat) (count : Z),
    contains_char CR mid = false ->
    (String.length s <= fuel)%nat ->
    countCarriageReturns_loop fuel (before ++ mid ++ s) (strlen before) count =
    Return (count + count_char CR s).
Proof.
  induction s as [|c s IH]; intros before mid fuel count Hmid Hfuel.
  - rewrite append_nil_r.
    destruct fuel; cbn [countCarriageReturns_loop];
      rewrite indexOf_absent by exact Hmid; simpl; f_equal; lia.
  - simpl in Hfuel. destruct fuel as [|fuel]; [lia |].
    cbn [count_char].
    destruct (Ascii.eqb_spec c CR) as [-> | Hc].
    + cbn [countCarriageReturns_loop].
      rewrite indexOf_first by exact Hmid.
      pose proof (strlen_nonneg before). pose proof (strlen_nonneg mid).
      destruct (Z.eqb_spec (strlen before + strlen mid) (-1)); [lia |].
      cbn [negb].
      replace (before ++ mid ++ String CR s)%string
        with ((before ++ mid ++ String CR "") ++ "" ++ s)%string
        by (rewrite !append_assoc; reflexivity).
      replace (strlen before + strlen mid + 1)
        with (strlen (before ++ mid ++ String CR ""))
        by (rewrite !strlen_append; unfold strlen at 3; simpl; lia).
      rewrite IH; [f_equal; lia | reflexivity | lia].
    + replace (before ++ mid ++ String c s)%string
        with (before ++ (mid ++ String c "") ++ s)%string
        by (rewrite !append_assoc; reflexivity).
      rewrite IH; [f_equal; lia | | lia].
      clear - Hmid Hc. induction mid as [|a mid IHm]; simpl in *.
      * destruct (Ascii.eqb_spec c CR); [contradiction | reflexivity].
      * apply orb_false_iff in Hmid. destruct Hmid as [Ha Hm].
        now rewrite Ha, IHm.
Qed.

(** X2.  [countCarriageReturns] returns the number of carriage returns in its
    argument. *)
Theorem countCarriageReturns_counts (text : string) :
  countCarriageReturns text = Return (count_char CR text).
Proof.
  unfold countCarriageReturns.
  exact (countCarriageReturns_loop_count text "" "" (String.length text) 0
           eq_refl (le_n _)).
Qed.

(** ** [LineReader] as a scan *)

Lemma string_of_list_ascii_rev_cons (c : ascii) (acc : list ascii) :
  string_of_list_ascii (rev (c :: acc)) =
  (string_of_list_ascii (rev acc) ++ String c "")%string.
Proof.
  simpl. rewrite <- (append_nil_r (string_of_list_ascii (rev acc ++ [c]))).
  apply string_of_list_ascii_snoc.
Qed.

Lemma contains_char_snoc (c a : ascii) (s : string) :
  contains_char c (s ++ String a "") = contains_char c s || Ascii.eqb a c.
Proof.
  induction s as [|b s IH]; simpl.
  - now rewrite orb_false_r.
  - now rewrite IH, orb_assoc.
Qed.

Lemma LineReader_loop_done (fuel : nat) (text : string) :
  LineReader_loop fuel text (-1) = Return [].
Proof.
  destruct fuel; reflexivity.
Qed.

Lemma LineReader_loop_at_end (fuel : nat) (text : string) :
  LineReader_loop fuel text (strlen text) = Return [].
Proof.
  destruct fuel; simpl; rewrite Z.ltb_irrefl, andb_false_r; reflexivity.
Qed.

Lemma LineReader_loop_scan (s : string) :
  forall (acc : list ascii) (before : string) (fuel : nat),
    at_line_start before ->
    contains_char LF (string_of_list_ascii (rev acc)) = false ->
    (List.length acc + String.length s <= fuel)%nat ->
    LineReader_loop fuel (before ++ string_of_list_ascii (rev acc) ++ s)
      (strlen before)
    = Return (scan_lines_from acc s).
Proof.
  induction s as [|c s IH]; intros acc before fuel Hstart Hacc Hfuel.
  - (* the text ends here *)
    rewrite append_nil_r. destruct acc as [|a acc].
    + simpl. rewrite append_nil_r. apply LineReader_loop_at_end.
    + simpl in Hfuel. destruct fuel as [|fuel]; [lia |].
      set (line := string_of_list_ascii (rev (a :: acc))) in *.
      assert (0 < strlen line) as Hline.
      { unfold line. rewrite string_of_list_ascii_rev_cons, strlen_append.
        pose proof (strlen_nonneg (string_of_list_ascii (rev acc))).
        unfold strlen at 2. simpl. lia. }
      cbn [LineReader_loop scan_lines_from].
      pose proof (strlen_nonneg before).
      rewrite indexOf_absent by exact Hacc. rewrite strlen_append.
      destruct (Z.eqb_spec (strlen before) (-1)); [lia |].
      destruct (Z.ltb_spec (strlen before) (strlen before + strlen line)); [| lia].
      rewrite !Z.eqb_refl. cbn [negb andb].
      rewrite LineReader_loop_done. cbn [bind].
      replace (strlen before + strlen line - strlen before) with (strlen line) by lia.
      rewrite <- (append_nil_r line) at 1.
      now rewrite substr_middle.
  - simpl in Hfuel. cbn [scan_lines_from].
    destruct (Ascii.eqb_spec c LF) as [-> | Hc].
    + (* a line feed: the line is yielded *)
      destruct fuel as [|fuel]; [lia |].
      set (line := string_of_list_ascii (rev acc)) in *.
      pose proof (strlen_nonneg before). pose proof (strlen_nonneg line).
      pose proof (strlen_nonneg s).
      cbn [LineReader_loop].
      rewrite indexOf_first by exact Hacc. rewrite !strlen_append.
      replace (strlen (String LF s)) with (1 + strlen s)
        by (unfold strlen; simpl String.length; lia).
      destruct (Z.eqb_spec (strlen before) (-1)); [lia |].
      destruct (Z.ltb_spec (strlen before)
                  (strlen before + (strlen line + (1 + strlen s)))); [| lia].
      destruct (Z.eqb_spec (strlen before + strlen line) (-1)); [lia |].
      cbn [negb andb].
      replace (strlen before + strlen line - strlen before) with (strlen line) by lia.
      (* the rest of the text, read from after the line feed *)
      assert (LineReader_loop fuel (before ++ line ++ String LF s)
                (strlen before + strlen line + 1)
              = Return (scan_lines_from [] s)) as ->.
      { replace (before ++ line ++ String LF s)%string
          with ((before ++ line ++ String LF "") ++ "" ++ s)%string
          by (rewrite !append_assoc; reflexivity).
        replace (strlen before + strlen line + 1)
          with (strlen (before ++ line ++ String LF ""))
          by (rewrite !strlen_append; unfold strlen at 3; simpl; lia).
        apply (IH [] _ fuel); [| reflexivity | simpl; lia].
        right. exists (before ++ line)%string. now rewrite !append_assoc. }
      cbn [bind]. f_equal. f_equal.
      (* the line itself, without its carriage return *)
      destruct acc as [|a acc].
      * (* an empty line: the character before it is no carriage return *)
        unfold line. cbn [rev string_of_list_ascii strip_cr append].
        assert ((0 <? strlen before + strlen "") &&
                match charAt (before ++ String LF s) (strlen before + strlen "" - 1) with
                | Some ch => Ascii.eqb ch CR
                | None => false
                end = false) as ->.
        { replace (strlen before + strlen "" - 1) with (strlen before - 1)
            by (unfold strlen; simpl; lia).
          replace (strlen before + strlen "") with (strlen before)
            by (unfold strlen; simpl; lia).
          destruct Hstart as [-> | [p ->]]; [reflexivity |].
          rewrite strlen_append.
          replace (strlen p + strlen (String LF "") - 1) with (strlen p)
            by (unfold strlen; simpl; lia).
          rewrite append_assoc. cbn [append].
          rewrite charAt_after. cbn. apply andb_false_r. }
        replace (before ++ String LF s)%string
          with (before ++ "" ++ String LF s)%string by reflexivity.
        apply substr_middle.
      * (* a line that is not empty: its last character decides *)
        unfold line in *. clear line.
        rewrite string_of_list_ascii_rev_cons in *.
        set (body := string_of_list_ascii (rev acc)) in *.
        rewrite strlen_append in *.
        replace (strlen (String a "")) with 1 in * by reflexivity.
        pose proof (strlen_nonneg body).
        destruct (Z.ltb_spec 0 (strlen before + (strlen body + 1))); [| lia].
        replace (strlen before + (strlen body + 1) - 1)
          with (strlen (before ++ body)) by (rewrite strlen_append; lia).
        replace (before ++ (body ++ String a "") ++ String LF s)%string
          with ((before ++ body) ++ String a (String LF s))%string
          by (rewrite !append_assoc; reflexivity).
        rewrite charAt_after. cbn [andb strip_cr].
        destruct (Ascii.eqb a CR).
        -- replace (strlen body + 1 - 1) with (strlen body) by lia.
           rewrite append_assoc. apply substr_middle.
        -- rewrite string_of_list_ascii_rev_cons. fold body.
           replace ((before ++ body) ++ String a (String LF s))%string
             with (before ++ (body ++ String a "") ++ String LF s)%string
             by (rewrite !append_assoc; reflexivity).
           replace (strlen body + 1) with (strlen (body ++ String a ""))
             by (rewrite strlen_append; reflexivity).
           apply substr_middle.
    + (* any other character joins the line *)
      replace (before ++ string_of_list_ascii (rev acc) ++ String c s)%string
        with (before ++ string_of_list_ascii (rev (c :: acc)) ++ s)%string
        by (rewrite string_of_list_ascii_rev_cons, !append_assoc; reflexivity).
      apply IH; [exact Hstart | | simpl; lia].
      rewrite string_of_list_ascii_rev_cons, contains_char_snoc, Hacc.
      destruct (Ascii.eqb_spec c LF); [contradiction | reflexivity].
Qed.

(** [LineReader] yields the lines of the scan. *)
Lemma LineReader_scan_lines (text : string) :
  LineReader text = Return (scan_lines text).
Proof.
  unfold LineReader, scan_lines.
  exact (LineReader_loop_scan text [] "" (String.length text)
           (or_introl eq_refl) eq_refl (le_n _)).
Qed.

Lemma contains_char_string_of_list_ascii (c : ascii) (l : list ascii) :
  contains_char c (string_of_list_ascii l) = existsb (fun a => Ascii.eqb a c) l.
Proof.
  induction l as [|a l IH]; simpl; [reflexivity | now rewrite IH].
Qed.

Lemma existsb_rev (A : Type) (f : A -> bool) (l : list A) :
  existsb f (rev l) = existsb f l.
Proof.
  induction l as [|a l IH]; simpl; [reflexivity |].
  rewrite existsb_app, IH. simpl. rewrite orb_false_r. apply orb_comm.
Qed.

Lemma contains_char_rev (c : ascii) (acc : list ascii) :
  contains_char c (string_of_list_ascii (rev acc)) =
  existsb (fun a => Ascii.eqb a c) acc.
Proof.
  now rewrite contains_char_string_of_list_ascii, existsb_rev.
Qed.

Lemma contains_char_strip_cr (c : ascii) (acc : list ascii) :
  existsb (fun a => Ascii.eqb a c) acc = false ->
  contains_char c (strip_cr acc) = false.
Proof.
  destruct acc as [|a acc]; [reflexivity |].
  intros H. unfold strip_cr. destruct (Ascii.eqb a CR).
  - rewrite contains_char_rev. simpl in H. apply orb_false_iff in H. apply H.
  - now rewrite contains_char_rev.
Qed.

Lemma scan_lines_from_no_LF (s : string) :
  forall acc,
    existsb (fun a => Ascii.eqb a LF) acc = false ->
    Forall (fun l => contains_char LF l = false) (scan_lines_from acc s).
Proof.
  induction s as [|c s IH]; intros acc Hacc; simpl.
  - destruct acc; constructor; [| constructor].
    now rewrite contains_char_rev.
  - destruct (Ascii.eqb c LF) eqn:Hc.
    + constructor; [now apply contains_char_strip_cr | now apply IH].
    + apply IH. simpl. now rewrite Hc, Hacc.
Qed.

(** X3.  No line [LineReader] yields holds a line feed. *)
Theorem LineReader_lines_hold_no_line_feed (text : string) :
  exists lines,
    LineReader text = Return lines /\
    Forall (fun l => contains_char LF l = false) lines.
Proof.
  exists (scan_lines text). split; [apply LineReader_scan_lines |].
  now apply scan_lines_from_no_LF.
Qed.

Lemma scan_lines_from_line (l : string) :
  forall acc rest,
    contains_char LF l = false ->
    scan_lines_from acc (l ++ rest) =
    scan_lines_from (rev (list_ascii_of_string l) ++ acc)%list rest.
Proof.
  induction l as [|c l IH]; intros acc rest H; [reflexivity |].
  simpl in H. apply orb_false_iff in H. destruct H as [Hc Hl].
  cbn [append scan_lines_from list_ascii_of_string rev]. rewrite Hc.
  rewrite IH by exact Hl. now rewrite <- app_assoc.
Qed.

Lemma strip_cr_plain (l : string) :
  ends_with_cr l = false -> strip_cr (rev (list_ascii_of_string l)) = l.
Proof.
  unfold ends_with_cr, strip_cr. intros H.
  destruct (rev (list_ascii_of_string l)) as [|a acc] eqn:E.
  - apply (f_equal (@rev ascii)) in E. rewrite rev_involutive in E. simpl in E.
    rewrite <- (string_of_list_ascii_of_string l), E. reflexivity.
  - rewrite H, <- E, rev_involutive. apply string_of_list_ascii_of_string.
Qed.

Lemma scan_lines_concat (lines : list string) :
  Forall plain_line lines ->
  last lines "x"%string <> EmptyString ->
  scan_lines (String.concat nl lines) = lines.
Proof.
  unfold scan_lines.
  induction lines as [|l rest IH]; intros Hall Hlast; [reflexivity |].
  inversion Hall as [|? ? [Hlf Hcr] Hrest]; subst.
  destruct rest as [|l2 rest].
  - simpl in *. rewrite <- (append_nil_r l) at 1.
    rewrite scan_lines_from_line by exact Hlf. rewrite app_nil_r. simpl.
    destruct (rev (list_ascii_of_string l)) as [|a acc] eqn:E.
    + exfalso. apply Hlast.
      apply (f_equal (@rev ascii)) in E. rewrite rev_involutive in E. simpl in E.
      rewrite <- (string_of_list_ascii_of_string l), E. reflexivity.
    + rewrite <- E, rev_involutive. now rewrite string_of_list_ascii_of_string.
  - rewrite concat_cons_cons. unfold nl at 1. cbn [append].
    rewrite scan_lines_from_line by exact Hlf. rewrite app_nil_r.
    cbn [scan_lines_from]. rewrite Ascii.eqb_refl.
    rewrite strip_cr_plain by exact Hcr. f_equal.
    apply IH; [exact Hrest | exact Hlast].
Qed.

(** X4.  Reading back what was joined: for lines that hold no line feed and
    do not end with a carriage return, the last of them not empty,
    [LineReader] of the lines joined by line feeds yields these lines. *)
Theorem LineReader_of_joined_lines (lines : list string) :
  Forall plain_line lines ->
  last lines "x"%string <> EmptyString ->
  LineReader (String.concat nl lines) = Return lines.
Proof.
  intros Hall Hlast. rewrite LineReader_scan_lines.
  now rewrite scan_lines_concat.
Qed.

Lemma LineReader_of_joined_lines_witness :
  LineReader (String.concat nl ["@@ -1 +1 @@"; "-a"; ""; "+b"]) =
  Return ["@@ -1 +1 @@"; "-a"; ""; "+b"].
Proof.
  apply LineReader_of_joined_lines.
  - repeat constructor.
  - discriminate.
Defined.

Lemma string_of_list_ascii_rev_not_empty (a : ascii) (acc : list ascii) :
  String.eqb (string_of_list_ascii (rev (a :: acc))) EmptyString = false.
Proof.
  rewrite string_of_list_ascii_rev_cons.
  destruct (string_of_list_ascii (rev acc)); reflexivity.
Qed.

Lemma without_final_empty_cons (first second : string) (others : list string) :
  without_final_empty (first :: second :: others) =
  first :: without_final_empty (second :: others).
Proof. reflexivity. Qed.

Lemma scan_lines_from_split (n : nat) :
  forall s acc,
    (String.length s <= n)%nat ->
    cr_then_lf acc s = false ->
    scan_lines_from acc s = without_final_empty (split_lines_from acc s).
Proof.
  induction n as [|n IH]; intros s acc Hlen Hcr.
  - destruct s; [| simpl in Hlen; lia].
    destruct acc as [|a acc]; [reflexivity |].
    cbn [scan_lines_from split_lines_from without_final_empty].
    now rewrite string_of_list_ascii_rev_not_empty.
  - destruct s as [|c rest].
    + destruct acc as [|a acc]; [reflexivity |].
      cbn [scan_lines_from split_lines_from without_final_empty].
      now rewrite string_of_list_ascii_rev_not_empty.
    + simpl in Hlen. cbn [scan_lines_from split_lines_from].
      destruct (Ascii.eqb_spec c LF) as [-> | Hc].
      * destruct (split_lines_from_cons rest []) as [first [others E]].
        rewrite E, without_final_empty_cons, <- E.
        rewrite <- (IH rest [] ltac:(lia) eq_refl). f_equal.
        destruct acc as [|a acc]; [reflexivity |].
        simpl in Hcr. rewrite andb_true_r in Hcr.
        unfold strip_cr. now rewrite Hcr.
      * destruct rest as [|c' rest'].
        -- apply IH; [simpl; lia | destruct (Ascii.eqb c CR); reflexivity].
        -- destruct (Ascii.eqb c CR && Ascii.eqb c' LF) eqn:Hcrlf.
           ++ apply andb_true_iff in Hcrlf. destruct Hcrlf as [H1 H2].
              cbn [scan_lines_from]. rewrite H2.
              destruct (split_lines_from_cons rest' []) as [first [others E]].
              rewrite E, without_final_empty_cons, <- E.
              rewrite <- (IH rest' [] ltac:(simpl in Hlen; lia) eq_refl).
              unfold strip_cr. now rewrite H1.
           ++ apply IH; [lia | exact Hcrlf].
Qed.

(** X5.  The two ways the module cuts a text in lines agree: [LineReader]
    yields the pieces of [text.split(/\r?\n/)], in order, without the last
    piece when that piece is empty. *)
Theorem LineReader_is_split_without_final_empty (text : string) :
  LineReader text = Return (without_final_empty (split_lines text)).
Proof.
  rewrite LineReader_scan_lines. unfold scan_lines, split_lines. f_equal.
  now apply (scan_lines_from_split (String.length text)).
Qed.

(** ** Splitting what was joined *)

Lemma split_lines_from_line (l : string) :
  forall acc rest,
    plain_line l ->
    split_lines_from acc (l ++ rest) =
    split_lines_from (rev (list_ascii_of_string l) ++ acc)%list rest.
Proof.
  induction l as [|c l IH]; intros acc rest [Hlf Hcr]; [reflexivity |].
  simpl in Hlf. apply orb_false_iff in Hlf. destruct Hlf as [Hc Hl].
  cbn [append split_lines_from list_ascii_of_string rev]. rewrite Hc.
  assert (split_lines_from (c :: acc) (l ++ rest) =
          split_lines_from ((rev (list_ascii_of_string l) ++ [c]) ++ acc)%list rest)
    as Hnext.
  { rewrite <- app_assoc. apply IH. split; [exact Hl |].
    destruct l as [|c' l']; [reflexivity |].
    unfold ends_with_cr in *. cbn [list_ascii_of_string rev] in *.
    destruct (rev (list_ascii_of_string l') ++ [c'])%list eqn:E; [reflexivity |].
    exact Hcr. }
  destruct l as [|c' l'].
  - (* [c] is the last character of the line: it is no carriage return *)
    unfold ends_with_cr in Hcr. simpl in Hcr.
    cbn [append] in *. destruct rest as [|r rest']; [exact Hnext |].
    rewrite Hcr. exact Hnext.
  - cbn [append] in *. simpl in Hl. apply orb_false_iff in Hl.
    destruct Hl as [Hc' _]. rewrite Hc', andb_false_r. exact Hnext.
Qed.

Lemma split_lines_concat (lines : list string) :
  Forall plain_line lines ->
  lines <> [] ->
  split_lines (String.concat nl lines) = lines.
Proof.
  unfold split_lines.
  induction lines as [|l rest IH]; intros Hall Hne; [contradiction |].
  inversion Hall as [|? ? Hl Hrest]; subst.
  destruct rest as [|l2 rest].
  - simpl. rewrite <- (append_nil_r l) at 1.
    rewrite split_lines_from_line by exact Hl. rewrite app_nil_r. simpl.
    now rewrite rev_involutive, string_of_list_ascii_of_string.
  - rewrite concat_cons_cons. unfold nl at 1. cbn [append].
    rewrite split_lines_from_line by exact Hl. rewrite app_nil_r.
    cbn [split_lines_from]. rewrite Ascii.eqb_refl.
    rewrite rev_involutive, string_of_list_ascii_of_string. f_equal.
    apply IH; [exact Hrest | discriminate].
Qed.

(** ** Patches written hunk by hunk *)

Lemma exec_render_line (item : body_item) :
  exec DIFF_HUNK_HEADER (render_line item) = None.
Proof.
  destruct item as [[[| | |] text] flag]; reflexivity.
Qed.

Lemma getDiffChangeType_render_line (item : body_item) :
  getDiffChangeType (render_line item) = item_kind item.
Proof.
  destruct item as [[[| | |] text] flag]; reflexivity.
Qed.

Lemma jor_Number_recorded (count : option string) :
  digit_option count ->
  jor (Number count) (JInt 1) = JInt (recorded_length count).
Proof.
  destruct count as [c|]; [| reflexivity].
  intros Hc. simpl in Hc. rewrite (Number_digit_string c Hc).
  unfold recorded_length, jor.
  destruct (Z.eqb_spec (decimal c) 0) as [-> | Hne]; [reflexivity |].
  destruct (decimal c); try reflexivity. contradiction.
Qed.

Lemma clear_last_line_break_snoc (lines : list DiffLine.t) (l : DiffLine.t) :
  clear_last_line_break (lines ++ [l]) =
  (lines ++ [DiffLine.set_endwithLineBreak l false])%list.
Proof.
  unfold clear_last_line_break. rewrite rev_app_distr. simpl.
  now rewrite rev_involutive.
Qed.

(** One line of a body, read while a hunk is open, is appended to it. *)
Lemma parseDiffHunk_turn_render_line (item : body_item) (st : cursor)
    (hunk : DiffHunk.t) :
  item_kind item <> Control ->
  diffHunk st = Some hunk ->
  exists st',
    parseDiffHunk_turn (render_line item) st = Return ([], st') /\
    diffHunk st' =
    Some (DiffHunk.set_diffLines hunk
            (DiffHunk.diffLines hunk
               ++ [content_line (item_kind item) st (render_line item)])%list).
Proof.
  intros Hkind Hopen.
  destruct (parseDiffHunk_turn_step (render_line item) st)
    as [ys [st1 [Hturn Hstep]]].
  inversion Hstep as [matches p Hexec Hp | h Hexec Ho Htype
                     | h returns Hexec Ho Htype Hcount Hret
                     | Hexec Ho]; subst.
  - rewrite exec_render_line in Hexec. discriminate.
  - rewrite getDiffChangeType_render_line in Htype. contradiction.
  - rewrite Hopen in Ho. injection Ho as <-.
    eexists. split; [exact Hturn |].
    cbn [diffHunk]. now rewrite getDiffChangeType_render_line.
  - congruence.
Qed.

(** The marker line, read while a hunk is open, clears the flag of the
    last line of the hunk. *)
Lemma parseDiffHunk_turn_marker_line (st : cursor) (hunk : DiffHunk.t) :
  diffHunk st = Some hunk ->
  exists st',
    parseDiffHunk_turn marker_line st = Return ([], st') /\
    diffHunk st' =
    Some (DiffHunk.set_diffLines hunk
            (clear_last_line_break (DiffHunk.diffLines hunk))).
Proof.
  intros Hopen.
  destruct (parseDiffHunk_turn_step marker_line st) as [ys [st1 [Hturn Hstep]]].
  inversion Hstep as [matches p Hexec Hp | h Hexec Ho Htype
                     | h returns Hexec Ho Htype Hcount Hret
                     | Hexec Ho]; subst.
  - discriminate.
  - rewrite Hopen in Ho. injection Ho as <-.
    eexists. split; [exact Hturn | reflexivity].
  - exfalso. apply Htype. reflexivity.
  - congruence.
Qed.

Lemma bind_Return_nil (lines : list string) (st : cursor) :
  (more <- parseDiffHunk_loop lines st ;; Return more) =
  parseDiffHunk_loop lines st.
Proof.
  destruct (parseDiffHunk_loop lines st); reflexivity.
Qed.

(** The lines of a body, read while a hunk is open, are appended to it. *)
Lemma parseDiffHunk_loop_body (body : list body_item) :
  forall (rest : list string) (st : cursor) (hunk : DiffHunk.t),
    Forall body_item_ok body ->
    diffHunk st = Some hunk ->
    exists st' hunk',
      parseDiffHunk_loop (flat_map render_item body ++ rest) st =
      parseDiffHunk_loop rest st' /\
      diffHunk st' = Some hunk' /\
      DiffHunk.oldLineNumber hunk' = DiffHunk.oldLineNumber hunk /\
      DiffHunk.oldLength hunk' = DiffHunk.oldLength hunk /\
      map line_view (DiffHunk.diffLines hunk') =
      (map line_view (DiffHunk.diffLines hunk) ++ body)%list.
Proof.
  induction body as [|item body IH]; intros rest st hunk Hall Hopen.
  - exists st, hunk. simpl. rewrite app_nil_r. auto.
  - inversion Hall as [|? ? [Hkind Hplain] Hrest]; subst.
    destruct (parseDiffHunk_turn_render_line item st hunk Hkind Hopen)
      as [st1 [Hturn1 Hopen1]].
    cbn [flat_map]. unfold render_item.
    destruct item as [[kind text] flag]. cbn [item_break snd].
    destruct flag.
    + (* the line ends with a line break *)
      destruct (IH rest st1 _ Hrest Hopen1)
        as [st' [hunk' [Hloop [Ho' [H1 [H2 H3]]]]]].
      exists st', hunk'. cbn [app parseDiffHunk_loop]. rewrite Hturn1.
      cbn [bind app]. rewrite bind_Return_nil.
      split; [exact Hloop |]. split; [exact Ho' |].
      split; [exact H1 |]. split; [exact H2 |].
      rewrite H3. cbn [DiffHunk.set_diffLines DiffHunk.diffLines].
      rewrite map_app, <- app_assoc. reflexivity.
    + (* the marker follows the line *)
      destruct (parseDiffHunk_turn_marker_line st1 _ Hopen1)
        as [st2 [Hturn2 Hopen2]].
      destruct (IH rest st2 _ Hrest Hopen2)
        as [st' [hunk' [Hloop [Ho' [H1 [H2 H3]]]]]].
      exists st', hunk'. cbn [app parseDiffHunk_loop]. rewrite Hturn1.
      cbn [bind app]. rewrite Hturn2. cbn [bind app].
      rewrite !bind_Return_nil.
      split; [exact Hloop |]. split; [exact Ho' |].
      split; [exact H1 |]. split; [exact H2 |].
      rewrite H3. cbn [DiffHunk.set_diffLines DiffHunk.diffLines].
      rewrite clear_last_line_break_snoc, map_app, <- app_assoc. reflexivity.
Qed.

(** The lines of well-written sections parse to one hunk per section. *)
Lemma parseDiffHunk_loop_sections (sections : list patch_section) :
  forall (offset : Z) (st : cursor),
    sections_ok offset sections ->
    exists hunks,
      parseDiffHunk_loop (flat_map sec_lines sections) st =
      Return (yield_open (diffHunk st) ++ hunks)%list /\
      Forall2 hunk_of_section sections hunks.
Proof.
  induction sections as [|s rest IH]; intros offset st Hok.
  - exists []. simpl. rewrite app_nil_r. split; [reflexivity | constructor].
  - destruct Hok as [[Hparts [_ [_ [Hbody _]]]] Hrest].
    destruct (exec_header_text _ _ _ (sec_tail s) Hparts)
      as [matches [Hexec [H1 [H3 _]]]].
    fold (sec_header s) in Hexec.
    destruct (parseDiffHunk_turn_step (sec_header s) st)
      as [ys [st1 [Hturn Hstep]]].
    inversion Hstep as [matches' p Hexec' Hp | h Hexec' Ho Htype
                       | h returns Hexec' Ho Htype Hcount Hret
                       | Hexec' Ho]; subst; try congruence.
    rewrite Hexec in Hexec'. injection Hexec' as <-.
    lazymatch type of Hturn with
    | _ = Return (_, ?s1) =>
        destruct (parseDiffHunk_loop_body (sec_body s)
                    (flat_map sec_lines rest) s1 _ Hbody eq_refl)
          as [st2 [hunk [Hloop [Ho [Hstart [Hlen Hview]]]]]]
    end.
    destruct (IH _ st2 Hrest) as [hunks [Hmore Hall]].
    exists (hunk :: hunks).
    cbn [flat_map sec_lines app parseDiffHunk_loop]. rewrite Hturn. cbn [bind].
    rewrite Hloop, Hmore, Ho. cbn [bind yield_open app].
    split; [reflexivity |].
    constructor; [| exact Hall].
    unfold hunk_of_section. rewrite Hstart, Hlen, Hview.
    cbn [header_hunk DiffHunk.oldLineNumber DiffHunk.oldLength
         DiffHunk.diffLines map app].
    rewrite H1, H3, (Number_digit_string _ (proj1 Hparts)).
    rewrite (jor_Number_recorded _ (proj1 (proj2 Hparts))).
    repeat split.
Qed.

(** ** Applying the hunks of a patch *)

Lemma elements_middle (A : Type) (middle : list A) :
  forall before after : list A,
    map (fun i => element (before ++ middle ++ after)
                    (Z.of_nat (List.length before + i)))
        (seq 0 (List.length middle)) = map Some middle.
Proof.
  induction middle as [|x middle IH]; intros before after; [reflexivity |].
  cbn [List.length seq map]. f_equal.
  - unfold element. rewrite Nat.add_0_r.
    destruct (Z.ltb_spec (Z.of_nat (List.length before)) 0); [lia |].
    rewrite Nat2Z.id, nth_error_app2 by lia. now rewrite Nat.sub_diag.
  - rewrite <- seq_shift, map_map.
    specialize (IH (before ++ [x])%list after).
    rewrite <- app_assoc in IH. cbn [app] in IH. rewrite <- IH.
    apply map_ext. intros i. rewrite length_app. cbn [List.length].
    do 2 f_equal. lia.
Qed.

Lemma copy_left_middle (before middle after : list string) :
  copy_left (before ++ middle ++ after)
    (JInt (Z.of_nat (List.length before) + 1))
    (JInt (Z.of_nat (List.length before) + Z.of_nat (List.length middle) + 1))
  = map Some middle.
Proof.
  unfold copy_left.
  match goal with
  | |- context [Z.to_nat ?d] =>
      replace (Z.to_nat d) with (List.length middle) by lia
  end.
  rewrite <- (elements_middle _ middle before after).
  apply map_ext. intros i. f_equal. lia.
Qed.

Lemma hunk_lines_views (lines : list DiffLine.t) :
  hunk_lines lines = pushed_texts (map line_view lines).
Proof.
  induction lines as [|l lines IH]; [reflexivity |].
  simpl. rewrite IH. unfold item_kind, item_text, line_view. simpl.
  destruct (DiffLine.type l); reflexivity.
Qed.

Lemma pushed_texts_body (body : list body_item) :
  pushed_texts body = map Some (new_texts body).
Proof.
  induction body as [|item body IH]; [reflexivity |].
  simpl. rewrite IH. destruct (item_kind item); reflexivity.
Qed.

Lemma filter_map_view (lines : list DiffLine.t) :
  map line_view
    (filter (fun l => negb (DiffChangeType_eqb (DiffLine.type l) Delete)) lines)
  = filter (fun item => negb (DiffChangeType_eqb (item_kind item) Delete))
      (map line_view lines).
Proof.
  induction lines as [|l lines IH]; [reflexivity |].
  simpl. unfold item_kind at 1. cbn [line_view fst].
  destruct (negb (DiffChangeType_eqb (DiffLine.type l) Delete)); simpl;
    now rewrite IH.
Qed.

(** The flag of the last line of a hunk that is no [Delete], read off the
    views of its lines. *)
Lemma last_line_break_header_body (start : bool) (lines : list DiffLine.t)
    (text : string) (body : list body_item) :
  map line_view lines = (Control, text, true) :: body ->
  last_line_break start lines = body_break body.
Proof.
  intros Hview. unfold last_line_break, body_break.
  pose proof (filter_map_view (rev lines)) as Hf.
  rewrite map_rev, Hview in Hf. cbn [rev] in Hf.
  rewrite filter_app in Hf. cbn [filter item_kind fst DiffChangeType_eqb negb] in Hf.
  destruct (filter _ (rev lines)) as [|l others];
    destruct (filter _ (rev body)) as [|item items];
    cbn [map app] in Hf; try discriminate.
  - injection Hf as _ _ Hl _. exact Hl.
  - injection Hf as Hl _. rewrite <- Hl. reflexivity.
Qed.

(** The loop of the reconstruction over the hunks of well-written sections:
    [consumed] is what stands in the original before them, [written] what
    was pushed on [right] so far. *)
Lemma getModifiedContent_loop_sections (sections : list patch_section) :
  forall (hunks : list DiffHunk.t) (consumed written after : list string),
    Forall2 hunk_of_section sections hunks ->
    sections_ok (Z.of_nat (List.length consumed)) sections ->
    getModifiedContent_loop
      (consumed ++ flat_map sec_old sections ++ after) hunks
      (mkRebuilder (map Some written) (JInt (Z.of_nat (List.length consumed))) true)
    = mkRebuilder
        (map Some (written ++ flat_map sec_result sections))
        (JInt (Z.of_nat (List.length (consumed ++ flat_map sec_old sections))))
        (patch_break sections).
Proof.
  induction sections as [|s rest IH];
    intros hunks consumed written after Hall Hok;
    inversion Hall as [|? h ? hs [Hstart [Hlen Hview]] Hhs]; subst.
  - simpl. now rewrite !app_nil_r.
  - destruct Hok as [[Hparts [_ [_ [Hbody [Hnum [Hcount _]]]]]] Hrest].
    cbn [getModifiedContent_loop flat_map right lastCommonLine
         lastDiffLineEndsWithNewline patch_break].
    rewrite Hstart, Hlen, Hnum, Hcount. cbn [jadd jplus].
    rewrite (last_line_break_header_body _ _ _ _ Hview).
    rewrite hunk_lines_views, Hview.
    cbn [pushed_texts item_kind fst]. rewrite pushed_texts_body.
    unfold sec_result at 1.
    change (sec_old s) with (sec_gap s ++ sec_replaced s)%list in *.
    rewrite <- !app_assoc. rewrite copy_left_middle.
    rewrite <- !map_app.
    replace (Z.of_nat (List.length consumed) + Z.of_nat (List.length (sec_gap s)) + 1
             + Z.of_nat (List.length (sec_replaced s)) + -1)
      with (Z.of_nat (List.length (consumed ++ sec_gap s ++ sec_replaced s)))
      by (rewrite !length_app; lia).
    inversion Hhs as [|s2 h2 rest2 hs2 Hh2 Hhs2]; subst.
    + (* the last section *)
      simpl. now rewrite !app_nil_r.
    + specialize (IH (h2 :: hs2)
                    (consumed ++ sec_gap s ++ sec_replaced s)%list
                    (written ++ sec_gap s ++ new_texts (sec_body s))%list
                    after Hhs).
      rewrite <- !app_assoc in IH. apply IH.
      replace (Z.of_nat (List.length (consumed ++ sec_gap s ++ sec_replaced s)))
        with (Z.of_nat (List.length consumed)
              + Z.of_nat (List.length (sec_gap s ++ sec_replaced s)))
        by (rewrite !length_app; lia).
      exact Hrest.
Qed.

Lemma ends_with_cr_String (c : ascii) (s : string) :
  ends_with_cr (String c s) =
  match s with
  | EmptyString => Ascii.eqb c CR
  | String _ _ => ends_with_cr s
  end.
Proof.
  unfold ends_with_cr. cbn [list_ascii_of_string rev].
  destruct s as [|a s]; [reflexivity |].
  cbn [list_ascii_of_string rev].
  destruct (rev (list_ascii_of_string s) ++ [a])%list eqn:E; [| reflexivity].
  destruct (rev (list_ascii_of_string s)); discriminate.
Qed.

Lemma plain_line_render (item : body_item) :
  plain_line (item_text item) -> plain_line (render_line item).
Proof.
  intros [Hlf Hcr]. unfold plain_line, render_line.
  rewrite ends_with_cr_String. cbn [contains_char]. rewrite Hlf.
  split; [destruct (item_kind item); reflexivity |].
  destruct (item_text item); [destruct (item_kind item); reflexivity | exact Hcr].
Qed.

Lemma sections_ok_patch_lines (sections : list patch_section) :
  forall offset,
    sections_ok offset sections ->
    Forall (fun l => plain_line l /\ l <> EmptyString)
           (flat_map sec_lines sections).
Proof.
  induction sections as [|s rest IH]; intros offset Hok; [constructor |].
  destruct Hok as [[_ [Hheader [_ [Hbody _]]]] Hrest].
  cbn [flat_map sec_lines]. constructor.
  - split; [exact Hheader | discriminate].
  - apply Forall_app. split; [| exact (IH _ Hrest)].
    apply Forall_flat_map. eapply Forall_impl; [| exact Hbody].
    intros item [_ Hplain]. unfold render_item.
    assert (plain_line (render_line item) /\ render_line item <> EmptyString)
      by (split; [now apply plain_line_render | discriminate]).
    destruct (item_break item); repeat constructor; try apply H; discriminate.
Qed.

Lemma sections_ok_original_lines (sections : list patch_section) :
  forall offset,
    sections_ok offset sections ->
    Forall plain_line (flat_map sec_old sections).
Proof.
  induction sections as [|s rest IH]; intros offset Hok; [constructor |].
  destruct Hok as [[_ [_ [Hgap [_ [_ [_ Hreplaced]]]]]] Hrest].
  cbn [flat_map]. unfold sec_old at 1. rewrite <- app_assoc.
  apply Forall_app. split; [exact Hgap |].
  apply Forall_app. split; [exact Hreplaced | exact (IH _ Hrest)].
Qed.

Lemma recorded_length_positive (count : option string) :
  digit_option count -> 1 <= recorded_length count.
Proof.
  destruct count as [c|]; simpl; [| lia].
  intros [Hd _]. unfold decimal.
  pose proof (decimal_from_nonneg c 0 Hd ltac:(lia)).
  destruct (Z.eqb_spec (decimal_from 0 c) 0); lia.
Qed.

Lemma last_not_empty (lines : list string) :
  Forall (fun l => plain_line l /\ l <> EmptyString) lines ->
  last lines "x"%string <> EmptyString.
Proof.
  induction 1 as [|l lines [_ Hl] _ IH]; [discriminate |].
  destruct lines; [exact Hl | exact IH].
Qed.

(** X6.  Applying a patch.  Let the original be, joined by line feeds,
    the lines [sec_old] of well-written sections (each gap, then the lines
    the hunk takes the place of: as many as the old length recorded for
    its header, from the line its header names) followed by the lines
    [after]; let the patch be the header and body lines of the sections,
    joined by line feeds.  Then the reconstruction returns, joined by line
    feeds, the lines [sec_result] of the sections (each gap, then the
    context and added texts of the body) followed by [closing_lines].  The
    lines a hunk takes the place of are not compared with its context and
    deleted texts. *)
Theorem getModifiedContent_applies_patch
    (sections : list patch_section) (after : list string) :
  sections_ok 0 sections ->
  Forall plain_line after ->
  (sections = [] -> after <> []) ->
  getModifiedContentFromDiffHunk
    (String.concat nl (flat_map sec_old sections ++ after))
    (String.concat nl (flat_map sec_lines sections))
  = Return
      (String.concat nl
         (flat_map sec_result sections ++ closing_lines sections after)).
Proof.
  intros Hok Hafter Hne.
  unfold getModifiedContentFromDiffHunk, parseDiffHunk.
  (* the patch is read line by line and parsed section by section *)
  pose proof (sections_ok_patch_lines sections 0 Hok) as Hlines.
  rewrite LineReader_scan_lines, scan_lines_concat;
    [| eapply Forall_impl; [| exact Hlines]; now intros l [H _]
     | now apply last_not_empty].
  cbn [bind].
  destruct (parseDiffHunk_loop_sections sections 0 parseDiffHunk_init Hok)
    as [hunks [Hparse Hall]].
  rewrite Hparse. cbn [bind parseDiffHunk_init diffHunk yield_open app].
  (* the original is split in the lines it was joined from *)
  assert (flat_map sec_old sections ++ after <> [])%list as Hnonempty.
  { destruct sections as [|s rest]; [now apply Hne |].
    destruct Hok as [[Hparts [_ [_ [_ [_ [Hcount _]]]]]] _].
    pose proof (recorded_length_positive _ (proj1 (proj2 Hparts))).
    cbn [flat_map]. unfold sec_old at 1.
    destruct (sec_replaced s) eqn:E; [simpl in Hcount; lia |].
    destruct (sec_gap s); discriminate. }
  rewrite split_lines_concat;
    [| apply Forall_app; split;
       [exact (sections_ok_original_lines sections 0 Hok) | exact Hafter]
     | exact Hnonempty].
  (* the hunks are applied one after the other *)
  pose proof (getModifiedContent_loop_sections sections hunks [] [] after Hall Hok)
    as Hloop.
  cbn [app List.length Z.of_nat map] in Hloop. rewrite Hloop.
  cbn [lastDiffLineEndsWithNewline lastCommonLine right].
  unfold closing_lines.
  destruct (patch_break sections).
  - rewrite length_app.
    destruct after as [|a after'].
    + rewrite app_nil_r. cbn [List.length].
      replace (jltb _ _) with false
        by (symmetry; unfold jltb; apply Z.ltb_ge; lia).
      change [Some EmptyString] with (map Some [EmptyString]).
      rewrite <- map_app. now rewrite join_lines_Some.
    + replace (jltb _ _) with true
        by (symmetry; unfold jltb; apply Z.ltb_lt; cbn [List.length]; lia).
      pose proof (copy_left_middle (flat_map sec_old sections) (a :: after') [])
        as Hcopy.
      rewrite app_nil_r in Hcopy. cbn [jadd].
      replace (Z.of_nat (List.length (flat_map sec_old sections)
                         + List.length (a :: after')) + 1)
        with (Z.of_nat (List.length (flat_map sec_old sections))
              + Z.of_nat (List.length (a :: after')) + 1) by lia.
      rewrite Hcopy, <- map_app. now rewrite join_lines_Some.
  - rewrite app_nil_r. now rewrite join_lines_Some.
Qed.

Lemma example_sections_ok : sections_ok 0 example_sections.
Proof.
  unfold example_sections, sections_ok, section_ok, header_parts_ok,
    digit_string, plain_line.
  cbn [sec_gap sec_replaced sec_oldStart sec_oldCount sec_new sec_tail
       sec_body digit_option new_start new_count].
  repeat split; try reflexivity; try discriminate;
    repeat constructor; try discriminate.
Qed.

Lemma getModifiedContent_applies_patch_witness :
  getModifiedContentFromDiffHunk
    (String.concat nl ["a"; "b"; "c"; "d"; "e"; "f"; "g"])
    (String.concat nl
       ["@@ -2,2 +2,2 @@ fn"; " b"; "-c"; "+C";
        "@@ -5,0 +6 @@"; "+X";
        "@@ -6,2 +7,2 @@"; "-f"; "+F"; " g"; "\ No newline at end of file"])
  = Return (String.concat nl ["a"; "b"; "C"; "d"; "X"; "F"; "g"]).
Proof.
  exact (getModifiedContent_applies_patch example_sections []
           example_sections_ok (Forall_nil _) ltac:(discriminate)).
Defined.

(** ** The hunks the parser returns *)

Lemma turn_step_yields (line : string) (st : cursor)
    (yielded : list DiffHunk.t) (st' : cursor) :
  turn_step line st yielded st' ->
  yielded = [] \/ yielded = yield_open (diffHunk st).
Proof.
  destruct 1; auto.
Qed.

Section HunkInvariant.
Variable P : DiffHunk.t -> Prop.
Variable I : cursor -> Prop.
Hypothesis I_open :
  forall st h, I st -> diffHunk st = Some h -> P h.
Hypothesis I_step :
  forall line st yielded st', turn_step line st yielded st' -> I st -> I st'.

Lemma parseDiffHunk_loop_invariant (lines : list string) :
  forall st hunks,
    parseDiffHunk_loop lines st = Return hunks -> I st -> Forall P hunks.
Proof.
  induction lines as [|line rest IH]; intros st hunks Hloop Hst.
  - simpl in Hloop. injection Hloop as <-.
    destruct (diffHunk st) as [h|] eqn:E; [| constructor].
    constructor; [now apply (I_open st) | constructor].
  - apply parseDiffHunk_loop_cons in Hloop.
    destruct Hloop as [ys [st' [more [Hstep [Hmore ->]]]]].
    apply Forall_app. split.
    + destruct (turn_step_yields _ _ _ _ Hstep) as [-> | ->]; [constructor |].
      destruct (diffHunk st) as [h|] eqn:E; [| constructor].
      constructor; [now apply (I_open st) | constructor].
    + exact (IH st' more Hmore (I_step _ _ _ _ Hstep Hst)).
Qed.
End HunkInvariant.

Lemma clear_last_line_break_cores (lines : list DiffLine.t) :
  map line_core (clear_last_line_break lines) = map line_core lines.
Proof.
  unfold clear_last_line_break.
  destruct (rev lines) as [|l before] eqn:Hrev; [reflexivity |].
  assert (lines = (rev before ++ [l])%list) as ->.
  { rewrite <- (rev_involutive lines), Hrev. reflexivity. }
  rewrite !map_app. reflexivity.
Qed.

Lemma Number_written_start (written : option string) :
  digit_option written -> Number written = written_start written.
Proof.
  destruct written as [d|]; [| reflexivity].
  intros Hd. exact (Number_digit_string d Hd).
Qed.

(** What [exec] captures on a line it accepts. *)
Lemma exec_decode (line : string) (matches : captures) :
  exec DIFF_HUNK_HEADER line = Some matches ->
  exists oldStart oldCount nr tail,
    header_parts_ok oldStart oldCount nr /\
    line = header_text oldStart oldCount nr tail /\
    capture 1 matches = Some oldStart /\
    capture 3 matches = oldCount /\
    capture 5 matches = new_start nr /\
    capture 7 matches = new_count nr.
Proof.
  intros Hexec.
  destruct (exec_header_shape line matches Hexec)
    as [os [oc [nr [tail [Hok ->]]]]].
  destruct (exec_header_text os oc nr tail Hok) as [m [Hm Hcaps]].
  rewrite Hexec in Hm. injection Hm as <-.
  exists os, oc, nr, tail. tauto.
Qed.

Lemma cons_cores (l l' : DiffLine.t) (ls ls' : list DiffLine.t) :
  map line_core (l' :: ls') = map line_core (l :: ls) ->
  line_core l' = line_core l /\ map line_core ls' = map line_core ls.
Proof.
  intros H. split.
  - exact (f_equal (hd (line_core l)) H).
  - exact (f_equal (@tl _) H).
Qed.

Lemma turn_step_hunk_shape (line : string) (st : cursor)
    (yielded : list DiffHunk.t) (st' : cursor) :
  turn_step line st yielded st' ->
  (forall h, diffHunk st = Some h -> hunk_shape h) ->
  forall h, diffHunk st' = Some h -> hunk_shape h.
Proof.
  intros Hstep Hst.
  destruct Hstep as [matches p Hexec Hp | hunk Hexec Hopen Htype
                    | hunk returns Hexec Hopen Htype Hcount Hret
                    | Hexec Hopen]; cbn [diffHunk]; intros h [= <-].
  - destruct (exec_decode line matches Hexec)
      as [os [oc [nr [tail [Hok [-> [H1 [H3 [H5 H7]]]]]]]]].
    exists (header_line p (header_text os oc nr tail)), [], os, oc, nr, tail.
    unfold header_decoded.
    cbn [header_hunk DiffHunk.diffLines DiffHunk.positionInHunk
         DiffHunk.oldLineNumber DiffHunk.oldLength DiffHunk.newLineNumber
         DiffHunk.newLength header_line DiffLine.type DiffLine.positionInHunk
         DiffLine.raw map].
    rewrite H1, H3, H5, H7.
    rewrite (Number_digit_string _ (proj1 Hok)).
    rewrite (jor_Number_recorded _ (proj1 (proj2 Hok))).
    rewrite (jor_Number_recorded _ (proj2 (proj2 (proj2 Hok)))).
    rewrite (Number_written_start _ (proj1 (proj2 (proj2 Hok)))).
    split; [reflexivity |]. split; [reflexivity |]. split; [reflexivity |].
    split; [reflexivity |]. split; [exact Hok |].
    split; [| constructor].
    cbn [written_start]. repeat split; intros _; reflexivity.
  - destruct (Hst hunk Hopen)
      as [header [body [os [oc [nr [tail
           [Hlines [Hty [Hpos [Hraw [Hok [Hdec Hbody]]]]]]]]]]]].
    pose proof (clear_last_line_break_cores (DiffHunk.diffLines hunk)) as Hcores.
    rewrite Hlines in Hcores.
    destruct (clear_last_line_break (header :: body)) as [|header' body'] eqn:E;
      [discriminate |].
    apply cons_cores in Hcores. destruct Hcores as [Hh Hb].
    exists header', body', os, oc, nr, tail.
    unfold header_decoded in *.
    cbn [DiffHunk.set_diffLines DiffHunk.diffLines DiffHunk.positionInHunk
         DiffHunk.oldLineNumber DiffHunk.oldLength DiffHunk.newLineNumber
         DiffHunk.newLength].
    rewrite Hlines, E, Hb. unfold line_core in Hh. injection Hh as -> _ _ -> ->.
    exact (conj eq_refl (conj Hty (conj Hpos (conj Hraw
             (conj Hok (conj Hdec Hbody)))))).
  - destruct (Hst hunk Hopen)
      as [header [body [os [oc [nr [tail
           [Hlines [Hty [Hpos [Hraw [Hok [Hdec Hbody]]]]]]]]]]]].
    exists header, (body ++ [content_line (getDiffChangeType line) st line])%list,
      os, oc, nr, tail.
    unfold header_decoded in *.
    cbn [DiffHunk.set_diffLines DiffHunk.diffLines DiffHunk.positionInHunk
         DiffHunk.oldLineNumber DiffHunk.oldLength DiffHunk.newLineNumber
         DiffHunk.newLength].
    rewrite Hlines.
    refine (conj eq_refl (conj Hty (conj Hpos (conj Hraw
              (conj Hok (conj Hdec _)))))).
    rewrite map_app. apply Forall_app. split; [exact Hbody |].
    constructor; [| constructor].
    unfold body_core_ok, core_type, core_raw, line_core, content_line, test.
    simpl. rewrite Hexec. auto.
Qed.

(** X7.  Every hunk [parsePatch] returns is a header line followed by body
    lines: the first stored line is of kind [Control], carries the hunk's
    position and a text of the header shape; each of the hunk's
    [oldLineNumber], [oldLength], [newLineNumber] and [newLength] is the
    number written for it in that text when that number is at most
    [MAX_SAFE_INTEGER] (a count that is absent or zero giving [1], an
    absent new start giving [NaN]); every other stored line is a scanned
    line that is no header, stored with the kind its first character
    gives, which is never [Control]. *)
Theorem parsePatch_hunk_shape (patch : string) :
  exists hunks,
    parsePatch patch = Return hunks /\ Forall hunk_shape hunks.
Proof.
  destruct (parsePatch_total patch) as [lines [hunks [_ [Hloop Hparse]]]].
  exists hunks. split; [exact Hparse |].
  apply (parseDiffHunk_loop_invariant hunk_shape
           (fun st => forall h, diffHunk st = Some h -> hunk_shape h))
    with (lines := lines) (st := parseDiffHunk_init).
  - intros st h Hst Hopen. now apply Hst.
  - intros line st ys st' Hstep Hst. now apply (turn_step_hunk_shape line st ys).
  - exact Hloop.
  - discriminate.
Qed.

(** ** Line numbers within a hunk *)

Lemma numbered_to_numbered (body : list DiffLine.t) :
  forall old new old' new',
    numbered_to old new body old' new' -> numbered old new body.
Proof.
  induction body as [|l rest IH]; intros old new old' new' H; [exact I |].
  destruct H as [H1 [H2 H3]]. repeat split; try assumption.
  exact (IH _ _ _ _ H3).
Qed.

Lemma numbered_to_snoc (body : list DiffLine.t) (l : DiffLine.t) :
  forall old new old' new',
    numbered_to old new body old' new' ->
    DiffLine.oldLineNumber l =
      (match DiffLine.type l with Add => JInt (-1) | _ => old' end) ->
    DiffLine.newLineNumber l =
      (match DiffLine.type l with Delete => JInt (-1) | _ => new' end) ->
    numbered_to old new (body ++ [l]) (next_old l old') (next_new l new').
Proof.
  induction body as [|b rest IH]; intros old new old' new' H Ho Hn.
  - destruct H as [-> ->]. simpl. auto.
  - destruct H as [H1 [H2 H3]]. simpl. repeat split; try assumption.
    now apply IH.
Qed.

Lemma numbered_to_cores (body : list DiffLine.t) :
  forall body' old new old' new',
    map line_core body' = map line_core body ->
    numbered_to old new body old' new' ->
    numbered_to old new body' old' new'.
Proof.
  induction body as [|l rest IH]; intros body' old new old' new' Hcores H.
  - destruct body'; [exact H | discriminate].
  - destruct body' as [|l' rest']; [discriminate |].
    apply cons_cores in Hcores. destruct Hcores as [Hl Hrest].
    unfold line_core in Hl. injection Hl as Ht Ho Hn _ Hr.
    destruct H as [H1 [H2 H3]]. cbn [numbered_to].
    unfold next_old, next_new in *. rewrite Ht, Ho, Hn, Hr.
    repeat split; try assumption. now apply IH.
Qed.

Lemma countCarriageReturns_count_char (text : string) :
  countCarriageReturns text = Return (count_char CR text).
Proof.
  unfold countCarriageReturns.
  exact (countCarriageReturns_loop_count text "" "" (String.length text) 0
           eq_refl (le_n _)).
Qed.

Lemma turn_step_cursors_ok (line : string) (st : cursor)
    (yielded : list DiffHunk.t) (st' : cursor) :
  turn_step line st yielded st' -> cursors_ok st -> cursors_ok st'.
Proof.
  intros Hstep Hst.
  destruct Hstep as [matches p Hexec Hp | hunk Hexec Hopen Htype
                    | hunk returns Hexec Hopen Htype Hcount Hret
                    | Hexec Hopen]; intros h; cbn [diffHunk oldLine newLine];
    intros [= <-].
  - eexists _, []. split; [reflexivity |]. simpl. auto.
  - destruct (Hst hunk Hopen) as [header [body [Hlines Hnum]]].
    pose proof (clear_last_line_break_cores (DiffHunk.diffLines hunk)) as Hcores.
    rewrite Hlines in Hcores.
    destruct (clear_last_line_break (header :: body)) as [|header' body'] eqn:E;
      [discriminate |].
    apply cons_cores in Hcores. destruct Hcores as [_ Hb].
    exists header', body'.
    cbn [DiffHunk.set_diffLines DiffHunk.diffLines DiffHunk.oldLineNumber
         DiffHunk.newLineNumber].
    rewrite Hlines, E. split; [reflexivity |].
    exact (numbered_to_cores body body' _ _ _ _ Hb Hnum).
  - destruct (Hst hunk Hopen) as [header [body [Hlines Hnum]]].
    exists header, (body ++ [content_line (getDiffChangeType line) st line])%list.
    cbn [DiffHunk.set_diffLines DiffHunk.diffLines DiffHunk.oldLineNumber
         DiffHunk.newLineNumber].
    rewrite Hlines. split; [reflexivity |].
    rewrite countCarriageReturns_count_char in Hcount. injection Hcount as <-.
    pose proof (numbered_to_snoc body
                  (content_line (getDiffChangeType line) st line)
                  _ _ _ _ Hnum eq_refl eq_refl) as Hsnoc.
    unfold next_old, next_new, advance_old, advance_new, line_span in *.
    cbn [content_line DiffLine.type DiffLine.raw] in Hsnoc.
    destruct (getDiffChangeType line); exact Hsnoc.
Qed.

(** X8.  In every hunk [parsePatch] returns, the body lines are numbered
    from the hunk's [oldLineNumber] and [newLineNumber] (see [numbered]),
    provided that these numbers, moved by the spans of all the body lines,
    stay at or below [MAX_SAFE_INTEGER]. *)
Theorem parsePatch_numbers_lines (patch : string) :
  exists hunks,
    parsePatch patch = Return hunks /\
    Forall (fun h =>
              exists header body,
                DiffHunk.diffLines h = header :: body /\
                (stays_safe (DiffHunk.oldLineNumber h) (old_span body) ->
                 stays_safe (DiffHunk.newLineNumber h) (new_span body) ->
                 numbered (DiffHunk.oldLineNumber h) (DiffHunk.newLineNumber h)
                   body))
           hunks.
Proof.
  destruct (parsePatch_total patch) as [lines [hunks [_ [Hloop Hparse]]]].
  exists hunks. split; [exact Hparse |].
  apply (parseDiffHunk_loop_invariant _ cursors_ok)
    with (lines := lines) (st := parseDiffHunk_init).
  - intros st h Hst Hopen.
    destruct (Hst h Hopen) as [header [body [Hlines Hnum]]].
    exists header, body. split; [exact Hlines |].
    intros _ _. exact (numbered_to_numbered _ _ _ _ _ Hnum).
  - exact turn_step_cursors_ok.
  - exact Hloop.
  - intros h. discriminate.
Qed.

(** ** Which scanned lines are stored, where, and with which flag *)

Lemma all_lines_cons (h : DiffHunk.t) (hunks : list DiffHunk.t) :
  all_lines (h :: hunks) = (DiffHunk.diffLines h ++ all_lines hunks)%list.
Proof. reflexivity. Qed.

Lemma parseDiffHunk_loop_stored_open (rest : list string) :
  forall (st : cursor) (hunk : DiffHunk.t) (init : list DiffLine.t)
         (last : DiffLine.t) (hunks : list DiffHunk.t),
    diffHunk st = Some hunk ->
    DiffHunk.diffLines hunk = (init ++ [last])%list ->
    0 <= positionInHunk st ->
    parseDiffHunk_loop rest st = Return hunks ->
    map stored_view (all_lines hunks) =
    (map stored_view init
     ++ (DiffLine.positionInHunk last, DiffLine.raw last,
         DiffLine.endwithLineBreak last && negb (marker_ahead rest))
        :: stored_in (positionInHunk st) rest)%list.
Proof.
  induction rest as [|line rest IH];
    intros st hunk init last hunks Hopen Hlines Hpos Hloop.
  - simpl in Hloop. rewrite Hopen in Hloop. injection Hloop as <-.
    rewrite all_lines_cons, Hlines. unfold all_lines. cbn [map List.concat].
    rewrite app_nil_r, map_app. cbn [map marker_ahead negb stored_in].
    now rewrite andb_true_r.
  - apply parseDiffHunk_loop_cons in Hloop.
    destruct Hloop as [ys [st' [more [Hstep [Hmore ->]]]]].
    assert (bump (positionInHunk st) = positionInHunk st + 1) as Hbump.
    { unfold bump. destruct (Z.eqb_spec (positionInHunk st) (-1)); [lia | reflexivity]. }
    inversion Hstep as [matches p Hexec Hp | h Hexec Ho Htype
                       | h returns Hexec Ho Htype Hcount Hret
                       | Hexec Ho]; subst; try congruence.
    + (* a header: the open hunk is yielded as it is *)
      assert ((if positionInHunk st =? -1 then 0 else positionInHunk st)
              = positionInHunk st) as Hp.
      { destruct (Z.eqb_spec (positionInHunk st) (-1)); [lia | reflexivity]. }
      rewrite Hp, Hbump in *.
      assert (is_marker line = false) as Hm.
      { unfold is_marker, test. now rewrite Hexec. }
      lazymatch type of Hmore with
      | parseDiffHunk_loop _ ?s1 = _ =>
          specialize (IH s1 _ [] (header_line (positionInHunk st) line) more
                        eq_refl eq_refl ltac:(simpl; lia) Hmore)
      end.
      cbn [positionInHunk map app header_line DiffLine.positionInHunk
           DiffLine.raw DiffLine.endwithLineBreak andb] in IH.
      rewrite Hopen. cbn [yield_open app]. rewrite all_lines_cons, map_app, IH, Hlines.
      rewrite map_app. cbn [map marker_ahead stored_in]. rewrite Hm.
      cbn [negb]. rewrite andb_true_r, <- app_assoc. reflexivity.
    + (* a marker: the flag of the last line is cleared *)
      rewrite Hopen in Ho. injection Ho as <-.
      assert (is_marker line = true) as Hm.
      { unfold is_marker, test. now rewrite Hexec, Htype. }
      rewrite Hlines, clear_last_line_break_snoc, Hbump in Hmore.
      lazymatch type of Hmore with
      | parseDiffHunk_loop _ ?s1 = _ =>
          specialize (IH s1 _ init (DiffLine.set_endwithLineBreak last false) more
                        eq_refl eq_refl ltac:(simpl; lia) Hmore)
      end.
      cbn [app]. rewrite IH.
      cbn [positionInHunk marker_ahead stored_in DiffLine.set_endwithLineBreak
           DiffLine.positionInHunk DiffLine.raw DiffLine.endwithLineBreak andb].
      rewrite Hm. cbn [negb]. now rewrite andb_false_r.
    + (* a content line: it becomes the last line *)
      rewrite Hopen in Ho. injection Ho as <-.
      assert (is_marker line = false) as Hm.
      { unfold is_marker. destruct (getDiffChangeType line);
          try contradiction; simpl; apply andb_false_r. }
      rewrite Hlines, Hbump in Hmore.
      lazymatch type of Hmore with
      | parseDiffHunk_loop _ ?s1 = _ =>
          specialize (IH s1 _ (init ++ [last])%list
                        (content_line (getDiffChangeType line) st line) more
                        eq_refl eq_refl ltac:(simpl; lia) Hmore)
      end.
      cbn [app]. rewrite IH.
      cbn [positionInHunk marker_ahead stored_in content_line
           DiffLine.positionInHunk DiffLine.raw DiffLine.endwithLineBreak andb].
      rewrite Hm. cbn [negb]. rewrite andb_true_r, map_app, <- app_assoc.
      reflexivity.
Qed.

Lemma parseDiffHunk_loop_stored (lines : list string) :
  forall (st : cursor) (hunks : list DiffHunk.t),
    diffHunk st = None ->
    positionInHunk st = -1 ->
    parseDiffHunk_loop lines st = Return hunks ->
    map stored_view (all_lines hunks) = stored_from_first_header lines.
Proof.
  induction lines as [|line rest IH]; intros st hunks Hopen Hpos Hloop.
  - simpl in Hloop. rewrite Hopen in Hloop. now injection Hloop as <-.
  - apply parseDiffHunk_loop_cons in Hloop.
    destruct Hloop as [ys [st' [more [Hstep [Hmore ->]]]]].
    inversion Hstep as [matches p Hexec Hp | h Hexec Ho Htype
                       | h returns Hexec Ho Htype Hcount Hret
                       | Hexec Ho]; subst; try congruence.
    + rewrite Hopen, Hpos in *. cbn [yield_open app Z.eqb] in *.
      lazymatch type of Hmore with
      | parseDiffHunk_loop _ ?s1 = _ =>
          pose proof (parseDiffHunk_loop_stored_open rest s1 _ []
                        (header_line 0 line) more eq_refl eq_refl
                        ltac:(simpl; unfold bump; simpl; lia) Hmore) as H
      end.
      rewrite H. cbn [stored_from_first_header stored_in]. unfold test at 1.
      rewrite Hexec.
      assert (is_marker line = false) as ->
        by (unfold is_marker, test; now rewrite Hexec).
      reflexivity.
    + cbn [app stored_from_first_header]. unfold test. rewrite Hexec.
      lazymatch type of Hmore with
      | parseDiffHunk_loop _ ?s1 = _ =>
          apply (IH s1 more eq_refl); [| exact Hmore]
      end.
      cbn [positionInHunk]. now rewrite Hpos.
Qed.

(** X9.  The stored lines of the hunks [parsePatch] returns, in order, are
    the lines [LineReader] yields from the first header line on, the
    markers left out; a stored line has as [positionInHunk] its index
    counted from that header line, as raw text the scanned line, and its
    [endwithLineBreak] is false exactly when the scanned line right after
    it is a marker. *)
Theorem parsePatch_stored_lines (patch : string) :
  exists lines hunks,
    LineReader patch = Return lines /\
    parsePatch patch = Return hunks /\
    map stored_view (all_lines hunks) = stored_from_first_header lines.
Proof.
  destruct (parsePatch_total patch) as [lines [hunks [Hlines [Hloop Hparse]]]].
  exists lines, hunks. split; [exact Hlines |]. split; [exact Hparse |].
  now apply (parseDiffHunk_loop_stored lines parseDiffHunk_init).
Qed.

(** ** The hunks the segmenter returns *)

Lemma small_hunk_first (input : list DiffLine.t) (line : DiffLine.t) :
  DiffLine.type line = Context -> In line input ->
  small_hunk_ok input (addLineToHunk (newHunk line) line).
Proof.
  intros Htype Hin. unfold small_hunk_ok, addLineToHunk, newHunk, on_old_side,
    on_new_side.
  rewrite Htype. cbn. rewrite Htype. cbn.
  repeat split; try reflexivity; try assumption.
  constructor; [| constructor]. split; [congruence | assumption].
Qed.

Lemma small_hunk_more (input : list DiffLine.t) (h : DiffHunk.t)
    (line : DiffLine.t) :
  small_hunk_ok input h ->
  DiffLine.type line <> Control -> In line input ->
  small_hunk_ok input (addLineToHunk h line).
Proof.
  intros [Hfirst [Hpos [Hall [Hold Hnew]]]] Htype Hin.
  unfold small_hunk_ok. rewrite diffLines_addLineToHunk.
  assert (DiffHunk.oldLineNumber (addLineToHunk h line) = DiffHunk.oldLineNumber h /\
          DiffHunk.newLineNumber (addLineToHunk h line) = DiffHunk.newLineNumber h /\
          DiffHunk.positionInHunk (addLineToHunk h line) = DiffHunk.positionInHunk h)
    as [-> [-> ->]]
    by (unfold addLineToHunk; destruct (DiffLine.type line); auto).
  rewrite !filter_app, !length_app.
  destruct (DiffHunk.diffLines h) as [|first others] eqn:E; [contradiction |].
  cbn [app]. split; [exact Hfirst |]. split; [exact Hpos |].
  split.
  - change (first :: others ++ [line])%list with ((first :: others) ++ [line])%list.
    apply Forall_app. split; [exact Hall |].
    constructor; [| constructor]. auto.
  - pose proof (eq_refl : on_old_side line =
        match DiffLine.type line with Context | Delete => true | _ => false end)
      as Ho.
    pose proof (eq_refl : on_new_side line =
        match DiffLine.type line with Context | Add => true | _ => false end)
      as Hn.
    unfold addLineToHunk. cbn [filter] in Hold, Hnew |- *.
    rewrite Hold, Hnew, Ho, Hn.
    destruct (DiffLine.type line); try contradiction;
      cbn [DiffHunk.oldLength DiffHunk.newLength jadd List.length];
      rewrite !Nat2Z.inj_add; split; f_equal; lia.
Qed.

Lemma small_hunk_add (input : list DiffLine.t) (h : option DiffHunk.t)
    (line : DiffLine.t) :
  (forall d, h = Some d -> small_hunk_ok input d) ->
  DiffLine.type line = Context -> In line input ->
  small_hunk_ok input (addLineToHunk (or_newHunk h line) line).
Proof.
  intros Hh Htype Hin. destruct h as [d|]; cbn [or_newHunk].
  - apply small_hunk_more; [now apply Hh | congruence | exact Hin].
  - now apply small_hunk_first.
Qed.

Lemma splitIntoSmallerHunks_turn_small (input : list DiffLine.t)
    (line : DiffLine.t) (st st' : segmenter) :
  In line input ->
  splitIntoSmallerHunks_turn line st = Return st' ->
  segmenter_small input st -> segmenter_small input st'.
Proof.
  intros Hin Hturn [Hsplit [Hcur Hnext]].
  unfold splitIntoSmallerHunks_turn in Hturn.
  destruct (DiffLine.type line) eqn:Htype.
  - (* a Context line *)
    rewrite hunkHasSandwichedChanges_sandwiched in Hturn. cbn [bind] in Hturn.
    pose proof (small_hunk_add input (currentHunk st) line Hcur Htype Hin) as Hc.
    pose proof (small_hunk_add input (nextHunk st) line Hnext Htype Hin) as Hn.
    destruct (sandwiched _); injection Hturn as <-;
      (split; [exact Hsplit |]); cbn [currentHunk nextHunk];
      (split; [now intros c [= <-] |]);
      [now intros n [= <-] | exact Hnext].
  - (* an Add line *)
    destruct (currentHunk st) as [current|] eqn:Ecur;
      [| injection Hturn as <-;
         split; [exact Hsplit | split; [| exact Hnext]];
         intros c Hc'; rewrite Ecur in Hc'; discriminate].
    rewrite hunkHasSandwichedChanges_sandwiched in Hturn. cbn [bind] in Hturn.
    destruct (sandwiched current) eqn:Hs;
      cbn [currentHunk nextHunk splitHunks] in Hturn.
    + destruct (nextHunk st) as [next|] eqn:Enext; [| discriminate].
      injection Hturn as <-. split; [| split]; cbn [currentHunk nextHunk splitHunks].
      * apply Forall_app. split; [exact Hsplit |].
        constructor; [| constructor]. split; [now apply Hcur | exact Hs].
      * intros c [= <-]. apply small_hunk_more;
          [now apply Hnext | congruence | exact Hin].
      * discriminate.
    + rewrite Ecur in Hturn. injection Hturn as <-.
      split; [exact Hsplit |]. cbn [currentHunk nextHunk]. split; [| exact Hnext].
      intros c [= <-]. apply small_hunk_more;
        [now apply Hcur | congruence | exact Hin].
  - (* a Delete line *)
    destruct (currentHunk st) as [current|] eqn:Ecur;
      [| injection Hturn as <-;
         split; [exact Hsplit | split; [| exact Hnext]];
         intros c Hc'; rewrite Ecur in Hc'; discriminate].
    rewrite hunkHasSandwichedChanges_sandwiched in Hturn. cbn [bind] in Hturn.
    destruct (sandwiched current) eqn:Hs;
      cbn [currentHunk nextHunk splitHunks] in Hturn.
    + destruct (nextHunk st) as [next|] eqn:Enext; [| discriminate].
      injection Hturn as <-. split; [| split]; cbn [currentHunk nextHunk splitHunks].
      * apply Forall_app. split; [exact Hsplit |].
        constructor; [| constructor]. split; [now apply Hcur | exact Hs].
      * intros c [= <-]. apply small_hunk_more;
          [now apply Hnext | congruence | exact Hin].
      * discriminate.
    + rewrite Ecur in Hturn. injection Hturn as <-.
      split; [exact Hsplit |]. cbn [currentHunk nextHunk]. split; [| exact Hnext].
      intros c [= <-]. apply small_hunk_more;
        [now apply Hcur | congruence | exact Hin].
  - (* a Control line *)
    destruct (currentHunk st) as [current|] eqn:Ecur;
      [| injection Hturn as <-;
         split; [exact Hsplit | split; [| exact Hnext]];
         intros c Hc'; rewrite Ecur in Hc'; discriminate].
    rewrite hunkHasSandwichedChanges_sandwiched in Hturn. cbn [bind] in Hturn.
    destruct (sandwiched current) eqn:Hs; injection Hturn as <-.
    + split; [| split]; cbn [currentHunk nextHunk splitHunks].
      * apply Forall_app. split; [exact Hsplit |].
        constructor; [| constructor]. split; [now apply Hcur | exact Hs].
      * exact Hnext.
      * discriminate.
    + split; [exact Hsplit | split; [| exact Hnext]].
      intros c Hc'. apply Hcur. congruence.
Qed.

Lemma splitIntoSmallerHunks_loop_small (input lines : list DiffLine.t) :
  forall st st',
    incl lines input ->
    splitIntoSmallerHunks_loop lines st = Return st' ->
    segmenter_small input st -> segmenter_small input st'.
Proof.
  induction lines as [|line rest IH]; intros st st' Hincl Hloop Hst.
  - simpl in Hloop. now injection Hloop as <-.
  - cbn [splitIntoSmallerHunks_loop] in Hloop.
    destruct (splitIntoSmallerHunks_turn line st) as [st1| |] eqn:Hturn;
      try discriminate.
    cbn [bind] in Hloop.
    apply (IH st1 st'); [| exact Hloop |].
    + intros x Hx. apply Hincl. now right.
    + apply (splitIntoSmallerHunks_turn_small input line st st1);
        [apply Hincl; now left | exact Hturn | exact Hst].
Qed.

(** X10.  Every hunk [splitIntoSmallerHunks] returns starts with a [Context]
    line and has that line's old and new numbers as its own, has position
    [0], holds lines of the input only, none of kind [Control], and has as
    [oldLength] the number of its [Context] and [Delete] lines and as
    [newLength] the number of its [Context] and [Add] lines; every hunk but
    the last holds a change and ends with a [Context] line. *)
Theorem splitIntoSmallerHunks_hunks_ok (hunk : DiffHunk.t) :
  exists out,
    splitIntoSmallerHunks hunk = Return out /\
    Forall (small_hunk_ok (DiffHunk.diffLines hunk)) out /\
    Forall (fun h => sandwiched h = true) (removelast out).
Proof.
  assert (segmenter_ok (mkSegmenter [] None None)) as Hinit.
  { repeat split; try discriminate. constructor. }
  destruct (splitIntoSmallerHunks_loop_counts (DiffHunk.diffLines hunk) _ Hinit)
    as [st' [Hloop [[Hnone _] _]]].
  assert (segmenter_small (DiffHunk.diffLines hunk) (mkSegmenter [] None None))
    as Hsmall0 by (repeat split; try discriminate; constructor).
  pose proof (splitIntoSmallerHunks_loop_small _ _ _ _ (incl_refl _) Hloop Hsmall0)
    as [Hsplit [Hcur _]].
  unfold splitIntoSmallerHunks. rewrite Hloop. cbn [bind].
  eexists. split; [reflexivity |].
  destruct (currentHunk st') as [c|] eqn:Ecur; cbn [yield_open].
  - split.
    + apply Forall_app. split.
      * eapply Forall_impl; [| exact Hsplit]. now intros h [H _].
      * constructor; [now apply Hcur | constructor].
    + rewrite removelast_last.
      eapply Forall_impl; [| exact Hsplit]. now intros h [_ H].
  - destruct (Hnone eq_refl) as [_ ->]. split; constructor.
Qed.

(** ** What a file change carries *)

Lemma parseDiff_turn_carries (review : IRawFileChange) (parentCommit : string) :
  exists change,
    parseDiff_turn review parentCommit = Return change /\
    carries parentCommit review change.
Proof.
  unfold parseDiff_turn.
  destruct (_ && _ && _ && _).
  - eexists. split; [reflexivity |]. repeat split.
  - destruct (truthy (patch review)).
    + destruct (parsePatch_total
                  match patch review with Some t => t | None => EmptyString end)
        as [lines [hunks [_ [_ Hhunks]]]].
      rewrite Hhunks. cbn [bind]. eexists. split; [reflexivity |].
      repeat split. exact Hhunks.
    + cbn [bind]. eexists. split; [reflexivity |]. repeat split.
Qed.

(** X11.  [parseDiff] returns, for every list of records, one change per
    record, in order; each change carries the parent commit given, the
    record's file name, previous file name and URL, and the kind
    [getGitChangeType] gives for the record's status; an in-memory change
    holds the record's patch text, or the empty string when the record has
    none, and its hunks, when present, are those [parsePatch] returns on
    that text. *)
Theorem parseDiff_carries_records (reviews : list IRawFileChange)
    (parentCommit : string) :
  exists changes,
    parseDiff reviews parentCommit = Return changes /\
    Forall2 (carries parentCommit) reviews changes.
Proof.
  induction reviews as [|review rest [changes [Hrest Hall]]];
    cbn [parseDiff].
  - exists []. split; [reflexivity | constructor].
  - destruct (parseDiff_turn_carries review parentCommit) as [change [Hturn Hc]].
    rewrite Hturn, Hrest. cbn [bind]. exists (change :: changes).
    split; [reflexivity | now constructor].
Qed.

(** ** Context lines repeated across the hunks of the segmenter *)

Lemma trailing_context_snoc (lines : list DiffLine.t) (l : DiffLine.t) :
  trailing_context (lines ++ [l]) =
  if is_context l then (trailing_context lines ++ [l])%list else [].
Proof.
  unfold trailing_context. rewrite rev_app_distr. cbn [rev app leading_context].
  destruct (is_context l); reflexivity.
Qed.

Lemma leading_context_all (lines : list DiffLine.t) :
  Forall (fun l => is_context l = true) (leading_context lines).
Proof.
  induction lines as [|l rest IH]; cbn [leading_context]; [constructor |].
  destruct (is_context l) eqn:E; constructor; assumption.
Qed.

Lemma trailing_context_all (lines : list DiffLine.t) :
  Forall (fun l => is_context l = true) (trailing_context lines).
Proof.
  unfold trailing_context. apply Forall_rev, leading_context_all.
Qed.

Lemma hunkHasChanges_add_context (hunk : DiffHunk.t) (line : DiffLine.t) :
  is_context line = true ->
  hunkHasChanges (addLineToHunk hunk line) = hunkHasChanges hunk.
Proof.
  intros H. unfold hunkHasChanges.
  rewrite diffLines_addLineToHunk, existsb_app. cbn [existsb].
  fold (is_context line). rewrite H. cbn [negb orb]. apply orb_false_r.
Qed.

Lemma sandwiched_add_context (hunk : DiffHunk.t) (line : DiffLine.t) :
  is_context line = true ->
  sandwiched (addLineToHunk hunk line) = hunkHasChanges hunk.
Proof.
  intros H. unfold sandwiched.
  rewrite hunkHasChanges_add_context by exact H.
  rewrite diffLines_addLineToHunk, last_map_Some_snoc, H. apply andb_true_r.
Qed.

Lemma sandwiched_hunkHasChanges (hunk : DiffHunk.t) :
  sandwiched hunk = true -> hunkHasChanges hunk = true.
Proof.
  unfold sandwiched. intros H. now apply andb_prop in H.
Qed.

Lemma sandwiched_trailing_context (hunk : DiffHunk.t) :
  sandwiched hunk = true -> trailing_context (DiffHunk.diffLines hunk) <> [].
Proof.
  unfold sandwiched. intros H. apply andb_prop in H as [_ H].
  destruct (rev_case _ (DiffHunk.diffLines hunk)) as [E | [ls [l E]]];
    rewrite E in *.
  - discriminate.
  - rewrite last_map_Some_snoc in H. rewrite trailing_context_snoc, H.
    intros Hnil. now apply app_eq_nil in Hnil as [_ Hnil].
Qed.

Lemma changed_open_trailing_context (hunk : DiffHunk.t) :
  hunkHasChanges hunk = true -> sandwiched hunk = false ->
  trailing_context (DiffHunk.diffLines hunk) = [].
Proof.
  unfold sandwiched. intros Hc H. rewrite Hc in H. cbn [andb] in H.
  destruct (rev_case _ (DiffHunk.diffLines hunk)) as [E | [ls [l E]]];
    rewrite E in *.
  - reflexivity.
  - rewrite last_map_Some_snoc in H. now rewrite trailing_context_snoc, H.
Qed.

Lemma continues_add (l c : DiffHunk.t) (line : DiffLine.t) :
  continues l c -> continues l (addLineToHunk c line).
Proof.
  intros [Hne [more Hmore]]. split; [exact Hne |].
  exists (more ++ [line])%list.
  now rewrite diffLines_addLineToHunk, Hmore, app_assoc.
Qed.

Lemma chained_snoc (hunks : list DiffHunk.t) (c : DiffHunk.t) :
  chained hunks ->
  (forall l, last (map Some hunks) None = Some l -> continues l c) ->
  chained (hunks ++ [c]).
Proof.
  induction hunks as [|h rest IH]; intros Hch Hlast; [exact I |].
  destruct rest as [|h' rest'].
  - cbn. split; [| exact I]. now apply Hlast.
  - destruct Hch as [Hc Hrest].
    change (continues h h' /\ chained ((h' :: rest') ++ [c])).
    split; [exact Hc |]. apply IH; [exact Hrest |].
    intros l Hl. apply Hlast. exact Hl.
Qed.

Lemma splitIntoSmallerHunks_turn_chained (line : DiffLine.t)
    (st st' : segmenter) :
  splitIntoSmallerHunks_turn line st = Return st' ->
  segmenter_chained st -> segmenter_chained st'.
Proof.
  intros Hturn [K1 [K2 [K3 [K4 K5]]]].
  unfold splitIntoSmallerHunks_turn in Hturn.
  destruct (DiffLine.type line) eqn:Htype.
  - (* a Context line *)
    assert (is_context line = true) as Hctx by now apply is_context_type.
    rewrite hunkHasSandwichedChanges_sandwiched in Hturn. cbn [bind] in Hturn.
    assert (forall l,
              last (map Some (splitHunks st)) None = Some l ->
              continues l (addLineToHunk (or_newHunk (currentHunk st) line) line))
      as K2'.
    { intros l Hl. destruct (currentHunk st) as [c|] eqn:Ecur.
      - cbn [or_newHunk]. apply continues_add. now apply (K2 c l).
      - rewrite (K5 eq_refl) in Hl. discriminate. }
    destruct (sandwiched (addLineToHunk _ line)) eqn:Hs;
      injection Hturn as <-;
      (split; [exact K1 |]); cbn [currentHunk nextHunk splitHunks];
      (split; [intros c l [= <-]; apply K2' |]);
      (split; [| split; [| discriminate]]).
    + intros c [= <-] _. eexists. split; [reflexivity |].
      rewrite !diffLines_addLineToHunk, !diffLines_or_newHunk.
      rewrite trailing_context_snoc, Hctx. f_equal.
      rewrite sandwiched_add_context in Hs by exact Hctx.
      destruct (currentHunk st) as [c|] eqn:Ecur; [| discriminate].
      cbn [or_newHunk lines_of] in *.
      destruct (sandwiched c) eqn:Hsc.
      * destruct (K3 c eq_refl Hsc) as [n [-> Hn]]. exact Hn.
      * destruct (nextHunk st) as [n|] eqn:Enext.
        -- destruct (K4 n eq_refl) as [c' [[= <-] Hc']]. congruence.
        -- cbn [lines_of]. symmetry. now apply changed_open_trailing_context.
    + intros n _. eexists. split; [reflexivity | exact Hs].
    + intros c [= <-] Hc. congruence.
    + intros n Hn. destruct (K4 n Hn) as [c [Ecur Hc]].
      rewrite Ecur in Hs. cbn [or_newHunk] in Hs.
      rewrite sandwiched_add_context in Hs by exact Hctx.
      rewrite (sandwiched_hunkHasChanges c Hc) in Hs. discriminate.
  - (* an Add line *)
    assert (is_context line = false) as Hctx
      by (unfold is_context; now rewrite Htype).
    destruct (currentHunk st) as [current|] eqn:Ecur;
      [| injection Hturn as <-; unfold segmenter_chained; rewrite Ecur;
         exact (conj K1 (conj K2 (conj K3 (conj K4 K5))))].
    rewrite hunkHasSandwichedChanges_sandwiched in Hturn. cbn [bind] in Hturn.
    destruct (sandwiched current) eqn:Hs;
      cbn [currentHunk nextHunk splitHunks] in Hturn.
    + destruct (K3 current eq_refl Hs) as [n [En Hn]]. rewrite En in Hturn.
      injection Hturn as <-. cbn [currentHunk nextHunk splitHunks].
      split; [| split; [| split; [| split]]];
        cbn [currentHunk nextHunk splitHunks].
      * apply chained_snoc; [exact K1 |]. intros l Hl. now apply (K2 current l).
      * intros c l [= <-]. rewrite last_map_Some_snoc. intros [= <-].
        split; [now apply sandwiched_trailing_context |].
        exists [line]. now rewrite diffLines_addLineToHunk, Hn.
      * intros c [= <-]. now rewrite sandwiched_add_change.
      * discriminate.
      * discriminate.
    + rewrite Ecur in Hturn. injection Hturn as <-.
      split; [exact K1 |]. cbn [currentHunk nextHunk splitHunks].
      split; [| split; [| split; [| discriminate]]].
      * intros c l [= <-] Hl. apply continues_add. now apply (K2 current l).
      * intros c [= <-]. now rewrite sandwiched_add_change.
      * intros n Hn. destruct (K4 n Hn) as [c [[= <-] Hc]]. congruence.
  - (* a Delete line *)
    assert (is_context line = false) as Hctx
      by (unfold is_context; now rewrite Htype).
    destruct (currentHunk st) as [current|] eqn:Ecur;
      [| injection Hturn as <-; unfold segmenter_chained; rewrite Ecur;
         exact (conj K1 (conj K2 (conj K3 (conj K4 K5))))].
    rewrite hunkHasSandwichedChanges_sandwiched in Hturn. cbn [bind] in Hturn.
    destruct (sandwiched current) eqn:Hs;
      cbn [currentHunk nextHunk splitHunks] in Hturn.
    + destruct (K3 current eq_refl Hs) as [n [En Hn]]. rewrite En in Hturn.
      injection Hturn as <-. cbn [currentHunk nextHunk splitHunks].
      split; [| split; [| split; [| split]]];
        cbn [currentHunk nextHunk splitHunks].
      * apply chained_snoc; [exact K1 |]. intros l Hl. now apply (K2 current l).
      * intros c l [= <-]. rewrite last_map_Some_snoc. intros [= <-].
        split; [now apply sandwiched_trailing_context |].
        exists [line]. now rewrite diffLines_addLineToHunk, Hn.
      * intros c [= <-]. now rewrite sandwiched_add_change.
      * discriminate.
      * discriminate.
    + rewrite Ecur in Hturn. injection Hturn as <-.
      split; [exact K1 |]. cbn [currentHunk nextHunk splitHunks].
      split; [| split; [| split; [| discriminate]]].
      * intros c l [= <-] Hl. apply continues_add. now apply (K2 current l).
      * intros c [= <-]. now rewrite sandwiched_add_change.
      * intros n Hn. destruct (K4 n Hn) as [c [[= <-] Hc]]. congruence.
  - (* a Control line *)
    destruct (currentHunk st) as [current|] eqn:Ecur;
      [| injection Hturn as <-; unfold segmenter_chained; rewrite Ecur;
         exact (conj K1 (conj K2 (conj K3 (conj K4 K5))))].
    rewrite hunkHasSandwichedChanges_sandwiched in Hturn. cbn [bind] in Hturn.
    destruct (sandwiched current) eqn:Hs; injection Hturn as <-.
    + destruct (K3 current eq_refl Hs) as [n [En Hn]]. rewrite En.
      split; [| split; [| split; [| split]]];
        cbn [currentHunk nextHunk splitHunks].
      * apply chained_snoc; [exact K1 |]. intros l Hl. now apply (K2 current l).
      * intros c l [= <-]. rewrite last_map_Some_snoc. intros [= <-].
        split; [now apply sandwiched_trailing_context |].
        exists []. now rewrite Hn, app_nil_r.
      * intros c [= <-] Hc. rewrite sandwiched_all_context in Hc; [discriminate |].
        rewrite Hn. apply trailing_context_all.
      * discriminate.
      * discriminate.
    + unfold segmenter_chained. rewrite Ecur.
      exact (conj K1 (conj K2 (conj K3 (conj K4 K5)))).
Qed.

Lemma splitIntoSmallerHunks_loop_chained (lines : list DiffLine.t) :
  forall st st',
    splitIntoSmallerHunks_loop lines st = Return st' ->
    segmenter_chained st -> segmenter_chained st'.
Proof.
  induction lines as [|line rest IH]; intros st st' Hloop Hst.
  - simpl in Hloop. now injection Hloop as <-.
  - cbn [splitIntoSmallerHunks_loop] in Hloop.
    destruct (splitIntoSmallerHunks_turn line st) as [st1| |] eqn:Hturn;
      try discriminate.
    cbn [bind] in Hloop. apply (IH st1 st' Hloop).
    exact (splitIntoSmallerHunks_turn_chained line st st1 Hturn Hst).
Qed.

(** X12.  In the list [splitIntoSmallerHunks] returns, every hunk after the
    first begins with the [Context] lines that end the hunk before it, and
    the hunk before it ends with at least one [Context] line: the context
    between two groups of changes is held by both hunks. *)
Theorem splitIntoSmallerHunks_repeats_context (hunk : DiffHunk.t) :
  exists out,
    splitIntoSmallerHunks hunk = Return out /\ chained out.
Proof.
  assert (segmenter_ok (mkSegmenter [] None None)) as Hinit.
  { repeat split; try discriminate. constructor. }
  destruct (splitIntoSmallerHunks_loop_counts (DiffHunk.diffLines hunk) _ Hinit)
    as [st' [Hloop _]].
  assert (segmenter_chained (mkSegmenter [] None None)) as Hch0.
  { split; [exact I |]. repeat split; discriminate. }
  pose proof (splitIntoSmallerHunks_loop_chained _ _ _ Hloop Hch0)
    as [K1 [K2 _]].
  unfold splitIntoSmallerHunks. rewrite Hloop. cbn [bind].
  eexists. split; [reflexivity |].
  destruct (currentHunk st') as [c|] eqn:Ecur; cbn [yield_open].
  - apply chained_snoc; [exact K1 |]. intros l Hl. now apply (K2 c l).
  - now rewrite app_nil_r.
Qed.
